(** * sql-anonymizer: the statement-tuple parsing and reconstruction engine

    A shallow embedding of [src/cli.js].  That file holds two complete
    programs one after the other (and a release script, which is not
    modelled):

    - lines 1-420, the line-based program (readline, statements assembled
      from lines): module [Cli];
    - lines 422-737, the stream-based program (statements cut out of the
      data chunks at every semicolon): module [CliStream].

    [generateRandomQuotedString] and [parseValues] are the same text in
    both programs and live in module [Common].

    Strings.  A JavaScript string is modelled as a list of 8-bit
    characters.  [trim], [trimEnd], [toUpperCase], the regular expression
    classes [\s] and [\w] and case-insensitive matching are given their
    tables on the ASCII range; a character above 127 is an ordinary symbol
    (no white space, no case).

    Effects.  [writer.write] appends to the output text of the run state,
    [console.warn] appends to its list of diagnostics, the counters are
    fields of the run state, and [crypto.randomBytes] reads an entropy
    source [nat -> byte] at a cursor kept in the run state.  The
    [console.log] progress lines are not modelled. *)

From Stdlib Require Import List Ascii String ZArith Lia Bool Arith.
From Stdlib Require Import Strings.Byte.
From Stdlib Require Import Sorting.Sorted Sorting.Permutation.
Import ListNotations.

(** ** JavaScript strings *)

Module Js.

Definition str := list ascii.

(** A string literal of the source. *)
Definition L (s : string) : str := list_ascii_of_string s.

Definition code (c : ascii) : nat := nat_of_ascii c.

Definition ch_eqb (a b : ascii) : bool := Ascii.eqb a b.

Fixpoint str_eqb (a b : str) : bool :=
  match a, b with
  | [], [] => true
  | x :: a', y :: b' => ch_eqb x y && str_eqb a' b'
  | _, _ => false
  end.

(** White space of [String.prototype.trim] and of [\s], ASCII range:
    TAB, LF, VT, FF, CR and SPACE. *)
Definition isWhiteSpace (c : ascii) : bool :=
  let n := code c in
  ((9 <=? n) && (n <=? 13)) || (n =? 32).

(** [\w] is [[A-Za-z0-9_]]. *)
Definition isWordChar (c : ascii) : bool :=
  let n := code c in
  ((65 <=? n) && (n <=? 90)) || ((97 <=? n) && (n <=? 122))
  || ((48 <=? n) && (n <=? 57)) || (n =? 95).

(** [toUpperCase] of one character, ASCII range. *)
Definition upper (c : ascii) : ascii :=
  let n := code c in
  if (97 <=? n) && (n <=? 122) then ascii_of_nat (n - 32) else c.

Definition toUpperCase (s : str) : str := map upper s.

Fixpoint trimStart (s : str) : str :=
  match s with
  | c :: s' => if isWhiteSpace c then trimStart s' else s
  | [] => []
  end.

Definition trimEnd (s : str) : str := rev (trimStart (rev s)).

Definition trim (s : str) : str := trimEnd (trimStart s).

Fixpoint startsWith (s p : str) : bool :=
  match p, s with
  | [], _ => true
  | x :: p', y :: s' => ch_eqb x y && startsWith s' p'
  | _ :: _, [] => false
  end.

Definition endsWith (s p : str) : bool := startsWith (rev s) (rev p).

(** [s.substring(a, b)] for [a <= b], and [s.substring(a)]. *)
Definition substring (s : str) (a b : nat) : str := firstn (b - a) (skipn a s).
Definition substringFrom (s : str) (a : nat) : str := skipn a s.

(** [s.indexOf(p)]: the first position where [p] occurs, [None] for -1. *)
Fixpoint indexOf (s p : str) : option nat :=
  if startsWith s p then Some 0
  else match s with
       | [] => None
       | _ :: s' => option_map S (indexOf s' p)
       end.

(** [s.indexOf(c)] and [s.lastIndexOf(c)] for a one-character needle. *)
Fixpoint indexOfChar (s : str) (c : ascii) : option nat :=
  match s with
  | [] => None
  | x :: s' => if ch_eqb x c then Some 0 else option_map S (indexOfChar s' c)
  end.

Fixpoint lastIndexOfChar (s : str) (c : ascii) : option nat :=
  match s with
  | [] => None
  | x :: s' =>
      match lastIndexOfChar s' c with
      | Some i => Some (S i)
      | None => if ch_eqb x c then Some 0 else None
      end
  end.

(** [s.split(c)] for a one-character separator: never empty. *)
Fixpoint split (s : str) (c : ascii) : list str :=
  match s with
  | [] => [[]]
  | x :: s' =>
      if ch_eqb x c then [] :: split s' c
      else match split s' c with
           | p :: ps => (x :: p) :: ps
           | [] => [[x]]
           end
  end.

(** [xs.join(sep)]. *)
Fixpoint join (sep : str) (xs : list str) : str :=
  match xs with
  | [] => []
  | [x] => x
  | x :: xs' => x ++ sep ++ join sep xs'
  end.

(** A string is truthy when it is not empty. *)
Definition truthy (s : str) : bool :=
  match s with [] => false | _ => true end.

End Js.

Import Js.

(** ** Helpers shared by the two programs *)

Module Common.

(** The entropy behind [crypto.randomBytes]: byte number [i] of the run. *)
Definition entropy := nat -> byte.

(** [crypto.randomBytes(n)] with the cursor at [p]. *)
Definition randomBytes (e : entropy) (p n : nat) : list byte :=
  map e (seq p n).

Definition hexDigit (d : nat) : ascii :=
  nth d (L "0123456789abcdef") "0"%char.

(** [buf.toString('hex')]: two lowercase digits per byte. *)
Definition hexByte (b : byte) : str :=
  let n := Byte.to_nat b in [hexDigit (n / 16); hexDigit (n mod 16)].

Definition toHex (bs : list byte) : str := flat_map hexByte bs.

(** [Math.ceil(length / 2)]. *)
Definition ceilHalf (n : nat) : nat := (n + 1) / 2.

(** [generateRandomQuotedString(length = 16)], lines 95-99 and 497-502.
    Returns the token and the cursor after the bytes it drew. *)
Definition generateRandomQuotedStringLen (length : nat) (e : entropy) (p : nat)
  : str * nat :=
  let nbytes := ceilHalf length in
  let randomHex := firstn length (toHex (randomBytes e p nbytes)) in
  (L "'" ++ randomHex ++ L "'", p + nbytes).

Definition generateRandomQuotedString (e : entropy) (p : nat) : str * nat :=
  generateRandomQuotedStringLen 16 e p.

Definition quote : ascii := "'"%char.
Definition comma : ascii := ","%char.

(** The loop variables of [parseValues]. *)
Record pstate := PState {
  values : list str;
  currentVal : str;
  inQuotes : bool;
  quoteChar : option ascii
}.

Definition pinit : pstate := PState [] [] false None.

Definition quoteIs (q : option ascii) (c : ascii) : bool :=
  match q with Some x => ch_eqb x c | None => false end.

(** The [for] loop of [parseValues], lines 113-135 and 511-534, over the
    characters from index [i] on; [i++] inside the body skips the second
    quote of a doubled one. *)
Fixpoint parseLoop (s : str) (st : pstate) : pstate :=
  match s with
  | [] => st
  | char :: rest =>
      if ch_eqb char quote && negb (inQuotes st) then
        parseLoop rest
          (PState (values st) (currentVal st ++ [char]) true (Some quote))
      else if ch_eqb char quote && inQuotes st && quoteIs (quoteChar st) quote then
        match rest with
        | next :: rest' =>
            if ch_eqb next quote then
              parseLoop rest'
                (PState (values st) (currentVal st ++ L "''")
                        (inQuotes st) (quoteChar st))
            else
              parseLoop rest
                (PState (values st) (currentVal st ++ [char]) false None)
        | [] =>
            parseLoop rest
              (PState (values st) (currentVal st ++ [char]) false None)
        end
      else if ch_eqb char comma && negb (inQuotes st) then
        parseLoop rest
          (PState (values st ++ [trim (currentVal st)]) []
                  (inQuotes st) (quoteChar st))
      else
        parseLoop rest
          (PState (values st) (currentVal st ++ [char])
                  (inQuotes st) (quoteChar st))
  end.

(** [parseValues(valuesString)], lines 107-141 and 504-542. *)
Definition parseValues (valuesString : str) : list str :=
  let st := parseLoop valuesString pinit in
  if truthy (trim (currentVal st))
     || (0 <? List.length (values st))
     || str_eqb (trim valuesString) []
  then values st ++ [trim (currentVal st)]
  else values st.

End Common.

Import Common.

(** ** Regular expressions

    The patterns of the source are built from literals, the classes [\s],
    [\w] and [[^...]], sequence, alternation, the greedy and lazy
    quantifiers, one capturing group and the anchor [^].  The matcher
    is the backtracking matcher of ECMA-262 in continuation-passing style:
    alternatives are tried left to right, a greedy quantifier tries one more
    iteration before it tries the continuation, a lazy one the other way
    round. *)

Module Regex.

Inductive citem :=
| CChar (c : ascii)    (* one character *)
| CSpace               (* \s *)
| CWord.               (* \w *)

Inductive regex :=
| Eps
| Chr (c : ascii)
| Cls (negated : bool) (items : list citem)
| Seq (r1 r2 : regex)
| Alt (r1 r2 : regex)
| Star (greedy : bool) (r : regex)
| Group (n : nat) (r : regex)
| Bol.

(** [r+], [r?], a literal word and a sequence of parts. *)
Definition plus (greedy : bool) (r : regex) : regex := Seq r (Star greedy r).
Definition opt (r : regex) : regex := Alt r Eps.
Definition lits (s : str) : regex := fold_right (fun c r => Seq (Chr c) r) Eps s.
Definition lit (s : string) : regex := lits (L s).
Definition seqs (rs : list regex) : regex := fold_right Seq Eps rs.

(** The position in the subject, the text from there on, and the text of
    the groups that have closed. *)
Record mstate := MState {
  pos : nat;
  rest : str;
  caps : list (nat * str)
}.

Definition cont := mstate -> option mstate.

(** With flag [i] two characters match when they have the same upper
    case. *)
Definition chr_match (ic : bool) (c x : ascii) : bool :=
  if ic then ch_eqb (upper c) (upper x) else ch_eqb c x.

Definition item_match (ic : bool) (x : ascii) (it : citem) : bool :=
  match it with
  | CChar c => chr_match ic c x
  | CSpace => isWhiteSpace x
  | CWord => isWordChar x
  end.

Definition cls_match (ic : bool) (negated : bool) (items : list citem)
  (x : ascii) : bool :=
  xorb negated (existsb (item_match ic x) items).

Definition step1 (st : mstate) (s' : str) : mstate :=
  MState (S (pos st)) s' (caps st).

Definition orElse (a : option mstate) (b : unit -> option mstate)
  : option mstate :=
  match a with Some x => Some x | None => b tt end.

(** The loop of a quantifier [r*] or [r*?] (RepeatMatcher with min 0 and no
    max) over the matcher [body] of [r].  RepeatMatcher rejects an
    iteration that consumed no character, so there are at most as many
    iterations as characters left, and [n] counts them down
    ([rmatch_complete] shows that the bound loses no match). *)
Fixpoint starLoop (body : mstate -> cont -> option mstate) (greedy : bool)
  (n : nat) (st : mstate) (k : cont) {struct n} : option mstate :=
  match n with
  | 0 => k st
  | S n' =>
      let again (_ : unit) :=
        body st
          (fun st1 =>
             if pos st1 =? pos st then None else starLoop body greedy n' st1 k) in
      if greedy then orElse (again tt) (fun _ => k st)
      else orElse (k st) again
  end.

(** [rmatch ic r st k]: match [r] at [st], then the continuation [k]. *)
Fixpoint rmatch (ic : bool) (r : regex) (st : mstate) (k : cont) {struct r}
  : option mstate :=
  match r with
  | Eps => k st
  | Chr c =>
      match rest st with
      | x :: s' => if chr_match ic c x then k (step1 st s') else None
      | [] => None
      end
  | Cls negated items =>
      match rest st with
      | x :: s' => if cls_match ic negated items x then k (step1 st s') else None
      | [] => None
      end
  | Seq r1 r2 => rmatch ic r1 st (fun st1 => rmatch ic r2 st1 k)
  | Alt r1 r2 => orElse (rmatch ic r1 st k) (fun _ => rmatch ic r2 st k)
  | Star greedy r1 =>
      starLoop (rmatch ic r1) greedy (List.length (rest st)) st k
  | Group n r1 =>
      rmatch ic r1 st
        (fun st1 =>
           k (MState (pos st1) (rest st1)
                (caps st1 ++ [(n, firstn (pos st1 - pos st) (rest st))])))
  | Bol => if pos st =? 0 then k st else None
  end.

(** One match found by [exec], [match] or [search]. *)
Record found := Found {
  index : nat;        (* match.index *)
  text : str;         (* match[0] *)
  groups : list (nat * str);
  lastIndex : nat;    (* the position after the match *)
  tail : str          (* the subject from [lastIndex] on *)
}.

(** [m[n]], the text of group [n]: its last closing wins. *)
Definition group (gs : list (nat * str)) (n : nat) : str :=
  match find (fun g => fst g =? n) (rev gs) with
  | Some g => snd g
  | None => []
  end.

(** The leftmost match at or after position [p], where [s] is the subject
    from [p] on. *)
Fixpoint searchFrom (ic : bool) (r : regex) (p : nat) (s : str) : option found :=
  match rmatch ic r (MState p s []) (fun st => Some st) with
  | Some st => Some (Found p (firstn (pos st - p) s) (caps st) (pos st) (rest st))
  | None =>
      match s with
      | [] => None
      | _ :: s' => searchFrom ic r (S p) s'
      end
  end.

(** [s.match(r)], [s.search(r)] and [r.test(s)] for [r] without flag [g]. *)
Definition search (ic : bool) (r : regex) (s : str) : option found :=
  searchFrom ic r 0 s.

Definition test (ic : bool) (r : regex) (s : str) : bool :=
  match search ic r s with Some _ => true | None => false end.

(** The loop [while ((m = r.exec(s)) !== null)] for [r] with flag [g],
    started with [lastIndex] 0: all the matches, each searched from the end
    of the one before.  Every match of the patterns this is used with holds
    a parenthesis, so it is not empty and there are at most [length s]
    of them ([cli_execAll_bound], [stream_execAll_bound]). *)
Fixpoint execLoop (n : nat) (ic : bool) (r : regex) (p : nat) (s : str)
  : list found :=
  match n with
  | 0 => []
  | S n' =>
      match searchFrom ic r p s with
      | None => []
      | Some m => m :: execLoop n' ic r (lastIndex m) (tail m)
      end
  end.

Definition execAll (ic : bool) (r : regex) (s : str) : list found :=
  execLoop (S (List.length s)) ic r 0 s.

(** Shorthands for the classes of the source. *)
Definition ws : regex := Cls false [CSpace].
Definition word : regex := Cls false [CWord].
Definition notParen : regex := Cls true [CChar "("%char; CChar ")"%char].

End Regex.

Import Regex.

(** ** The state of a run *)

Module Run.

Definition nl : ascii := "010"%char.
Definition tab : ascii := "009"%char.
Definition semicolon : ascii := ";"%char.

(** The [console.warn] lines. *)
Inductive diag :=
| WarnBounds (where_ : nat) (foundValues : nat) (neededIndex : Z)
    (* "Found n values, but needed index m. Keeping original values." *)
| WarnIndexOutOfBounds (where_ : nat) (index : nat) (len : nat)
    (* "Index i out of bounds for value set (length n)." *)
| WarnNoSemicolon.
    (* "File ended without a semicolon. Processing remaining buffer." *)

Record run := MkRun {
  output : str;                               (* all that [writer.write] got *)
  diagnostics : list diag;
  cursor : nat;                               (* entropy bytes drawn so far *)
  processedStatements : nat;
  successfullyAnonymizedStatements : nat;
  statementsWithErrors : nat;
  statementsWithSkippedAnonymization : nat
}.

Definition run0 : run := MkRun [] [] 0 0 0 0 0.

Definition write (t : str) (r : run) : run :=
  MkRun (output r ++ t) (diagnostics r) (cursor r) (processedStatements r)
    (successfullyAnonymizedStatements r) (statementsWithErrors r)
    (statementsWithSkippedAnonymization r).

Definition warn (d : diag) (r : run) : run :=
  MkRun (output r) (diagnostics r ++ [d]) (cursor r) (processedStatements r)
    (successfullyAnonymizedStatements r) (statementsWithErrors r)
    (statementsWithSkippedAnonymization r).

Definition setCursor (p : nat) (r : run) : run :=
  MkRun (output r) (diagnostics r) p (processedStatements r)
    (successfullyAnonymizedStatements r) (statementsWithErrors r)
    (statementsWithSkippedAnonymization r).

Definition countProcessed (r : run) : run :=
  MkRun (output r) (diagnostics r) (cursor r) (S (processedStatements r))
    (successfullyAnonymizedStatements r) (statementsWithErrors r)
    (statementsWithSkippedAnonymization r).

Definition countAnonymized (r : run) : run :=
  MkRun (output r) (diagnostics r) (cursor r) (processedStatements r)
    (S (successfullyAnonymizedStatements r)) (statementsWithErrors r)
    (statementsWithSkippedAnonymization r).

Definition countError (r : run) : run :=
  MkRun (output r) (diagnostics r) (cursor r) (processedStatements r)
    (successfullyAnonymizedStatements r) (S (statementsWithErrors r))
    (statementsWithSkippedAnonymization r).

Definition countSkipped (r : run) : run :=
  MkRun (output r) (diagnostics r) (cursor r) (processedStatements r)
    (successfullyAnonymizedStatements r) (statementsWithErrors r)
    (S (statementsWithSkippedAnonymization r)).

(** [values[index] = newValue] for [index < values.length]. *)
Fixpoint setAt (xs : list str) (index : nat) (v : str) : list str :=
  match xs, index with
  | [], _ => []
  | _ :: xs', 0 => v :: xs'
  | x :: xs', S i => x :: setAt xs' i v
  end.

(** [cols.length > 0 ? Math.max(...cols) : -1]. *)
Definition maxIndexOf (cols : list nat) : Z :=
  match cols with
  | [] => (-1)%Z
  | c :: cs => Z.of_nat (fold_left Nat.max cs c)
  end.

End Run.

Import Run.

(** ** The line-based program, lines 1-420 *)

Module Cli.

(** [insertRegex], line 85, flag [i]:
    INSERT \s+ INTO \s+ (?: \w+ \. )? <table> \s* (?: \( [^)]* \) \s* )?
    (?: (?: OVERRIDING \s+ (?:SYSTEM|USER) \s+ VALUE | DEFAULT \s+ VALUES
          | [^;()]*? ) \s+ )? VALUES \s* \(
    (written here with blanks between the parts; the pattern has none).
    [<table>] is the table name with every metacharacter escaped (line 78),
    that is, the name taken literally. *)
Definition insertRegex (targetTableName : str) : regex :=
  seqs [ lit "INSERT"; plus true ws; lit "INTO"; plus true ws;
         opt (seqs [plus true word; Chr "."%char]);
         lits targetTableName;
         Star true ws;
         opt (seqs [Chr "("%char; Star true (Cls true [CChar ")"%char]);
                    Chr ")"%char; Star true ws]);
         opt (seqs [ Alt (seqs [lit "OVERRIDING"; plus true ws;
                                Alt (lit "SYSTEM") (lit "USER");
                                plus true ws; lit "VALUE"])
                    (Alt (seqs [lit "DEFAULT"; plus true ws; lit "VALUES"])
                         (Star false
                            (Cls true [CChar ";"%char; CChar "("%char;
                                       CChar ")"%char])));
                     plus true ws ]);
         lit "VALUES"; Star true ws; Chr "("%char ].

(** The pattern of line 276, flag [i]:  \s VALUES \s* \(  *)
Definition valuesRegex : regex :=
  seqs [ws; lit "VALUES"; Star true ws; Chr "("%char].

(** [valueSetRegex], line 291, flags [gs]:
    \( \s* ( [^()]*? (?: \( [^()]* \) [^()]*? )*? ) \s* \)
    where the second parenthesis opens group 1. *)
Definition valueSetRegex : regex :=
  seqs [ Chr "("%char; Star true ws;
         Group 1
           (Seq (Star false notParen)
                (Star false
                   (seqs [Chr "("%char; Star true notParen; Chr ")"%char;
                          Star false notParen])));
         Star true ws; Chr ")"%char ].

Section Program.

Variable targetTableName : str.
Variable columnIndicesToAnonymize : list nat.
Variable e : entropy.

(** The safety check of line 317. *)
Definition anonymizable (originalValue : str) : bool :=
  startsWith originalValue (L "'")
  || str_eqb (toUpperCase originalValue) (L "NULL").

(** The body of the [forEach] of lines 313-330; the state is [values],
    [valueSetModified] and the run. *)
Definition anonymizeIndex (endLineNumber : nat)
  (acc : list str * bool * run) (index : nat) : list str * bool * run :=
  let '(values, valueSetModified, r) := acc in
  if index <? List.length values then
    let originalValue := nth index values [] in
    if anonymizable originalValue then
      let (newValue, p) := generateRandomQuotedString e (cursor r) in
      (setAt values index newValue, true, setCursor p r)
    else (values, valueSetModified, r)
  else
    (values, valueSetModified,
     warn (WarnIndexOutOfBounds endLineNumber index (List.length values)) r).

(** The body of the [while] loop of lines 296-347 for one match; the
    state is [newValueSets], [overallModified] and the run. *)
Definition processValueSet (endLineNumber : nat)
  (acc : list str * bool * run) (valueSetMatch : found)
  : list str * bool * run :=
  let '(newValueSets, overallModified, r) := acc in
  let fullMatch := text valueSetMatch in
  let valuesString := trim (group (groups valueSetMatch) 1) in
  let values := parseValues valuesString in
  let maxIndex := maxIndexOf columnIndicesToAnonymize in
  if (Z.of_nat (List.length values) <=? maxIndex)%Z then
    (newValueSets ++ [fullMatch], overallModified,
     warn (WarnBounds endLineNumber (List.length values) maxIndex) r)
  else
    let '(values', valueSetModified, r') :=
      fold_left (anonymizeIndex endLineNumber) columnIndicesToAnonymize
        (values, false, r) in
    if valueSetModified then
      (newValueSets ++ [L "( " ++ join (L ", ") values' ++ L " )"], true, r')
    else
      (newValueSets ++ [fullMatch], overallModified, r').

(** The second [while] loop, lines 356-363; the state is
    [reconstructedValuesPart], [lastIndex] and [matchIndex]. *)
Definition reconstructStep (valuesPart : str) (newValueSets : list str)
  (acc : str * nat * nat) (valueSetMatch : found) : str * nat * nat :=
  let '(reconstructedValuesPart, lastIdx, matchIndex) := acc in
  (reconstructedValuesPart
     ++ substring valuesPart lastIdx (index valueSetMatch)
     ++ nth matchIndex newValueSets (L "undefined"),
   lastIndex valueSetMatch, S matchIndex).

Definition reconstruct (valuesPart : str) (newValueSets : list str) : str :=
  let '(reconstructedValuesPart, lastIdx, _) :=
    fold_left (reconstructStep valuesPart newValueSets)
      (execAll false valueSetRegex valuesPart) ([], 0, 0) in
  reconstructedValuesPart ++ substringFrom valuesPart lastIdx.

(** [processStatement(statement, endLineNumber)], lines 254-402.  The two
    [catch] blocks are not modelled: nothing in the [try] blocks throws. *)
Definition processStatement (statement : str) (endLineNumber : nat) (r : run)
  : run :=
  let r := countProcessed r in
  match search true (insertRegex targetTableName) statement with
  | Some _ =>
      match search true valuesRegex statement with
      | None => countSkipped (write statement r)
      | Some valuesMatch =>
          let valuesIndex := index valuesMatch in
          let prefix := substring statement 0 valuesIndex in
          let valuesPart := substringFrom statement valuesIndex in
          let '(newValueSets, overallModified, r) :=
            fold_left (processValueSet endLineNumber)
              (execAll false valueSetRegex valuesPart) ([], false, r) in
          if overallModified then
            countAnonymized
              (write (prefix ++ reconstruct valuesPart newValueSets) r)
          else
            write statement (countSkipped r)
      end
  | None => countSkipped (write statement r)
  end.

End Program.

(** The stream driver, lines 172-221, over the lines that [readline]
    hands over; [A] is the state that the statement handler works on. *)
Section Driver.

Variable A : Type.
Variable handle : str -> nat -> A -> A.     (* processStatement *)
Variable onWarn : diag -> A -> A.           (* console.warn *)

Record driver := Driver {
  currentStatementBuffer : str;
  lineNumber : nat;
  state : A
}.

Definition sameIndex (a b : option nat) : bool :=
  match a, b with
  | Some x, Some y => x =? y
  | None, None => true
  | _, _ => false
  end.

(** The ['line'] handler, lines 176-213. *)
Definition onLine (d : driver) (line : str) : driver :=
  let lineNumber := S (lineNumber d) in
  let buffer := currentStatementBuffer d ++ line ++ [nl] in
  if endsWith (trimEnd line) (L ";") then
    if negb (sameIndex (indexOfChar line semicolon)
                       (lastIndexOfChar line semicolon)) then
      let parts := split buffer semicolon in
      let a :=
        fold_left
          (fun a p =>
             let part := p ++ L ";" in
             if truthy (trim part) then handle part lineNumber a else a)
          (removelast parts) (state d) in
      Driver [] lineNumber a
    else
      Driver [] lineNumber (handle buffer lineNumber (state d))
  else
    Driver buffer lineNumber (state d).

(** The ['close'] handler, lines 216-221. *)
Definition onClose (d : driver) : A :=
  if truthy (trim (currentStatementBuffer d)) then
    handle (currentStatementBuffer d) (lineNumber d)
      (onWarn WarnNoSemicolon (state d))
  else state d.

Definition drive (lines : list str) (a : A) : A :=
  onClose (fold_left onLine lines (Driver [] 0 a)).

End Driver.

(** [processFile]: the run over the lines of the input file. *)
Definition processFile (targetTableName : str)
  (columnIndicesToAnonymize : list nat) (e : entropy) (lines : list str) : run :=
  drive run (processStatement targetTableName columnIndicesToAnonymize e)
        warn lines run0.

(** The statements that the driver hands to [processStatement], in order. *)
Definition statements (lines : list str) : list str :=
  drive (list str) (fun statement _ acc => acc ++ [statement])
        (fun _ acc => acc) lines [].

End Cli.

(** ** The stream-based program, lines 422-737 *)

Module CliStream.

(** [insertRegex], line 492, flag [i]:
    ^ \s* INSERT \s+ INTO \s+ (?: \w+ \. )? <table> \s+ VALUES \s* \(  *)
Definition insertRegex (targetTableName : str) : regex :=
  seqs [ Bol; Star true ws; lit "INSERT"; plus true ws; lit "INTO";
         plus true ws;
         opt (seqs [plus true word; Chr "."%char]);
         lits targetTableName;
         plus true ws; lit "VALUES"; Star true ws; Chr "("%char ].

(** [valueSetRegex], line 637, flag [g]:
    \( ( [^()]* (?: \( [^()]* \) [^()]* )* ) \)
    where the second parenthesis opens group 1. *)
Definition valueSetRegex : regex :=
  seqs [ Chr "("%char;
         Group 1
           (Seq (Star true notParen)
                (Star true
                   (seqs [Chr "("%char; Star true notParen; Chr ")"%char;
                          Star true notParen])));
         Chr ")"%char ].

Section Program.

Variable targetTableName : str.
Variable columnIndicesToAnonymize : list nat.
Variable e : entropy.

(** The body of the [forEach] of lines 672-679. *)
Definition anonymizeIndex (acc : list str * bool * run) (index : nat)
  : list str * bool * run :=
  let '(values, valueSetModified, r) := acc in
  if index <? List.length values then
    let (newValue, p) := generateRandomQuotedString e (cursor r) in
    (setAt values index newValue, true, setCursor p r)
  else (values, valueSetModified, r).

(** The body of the [while] loop of lines 654-692 for one match; the
    state is [valueSets], [modified] and the run. *)
Definition processValueSet (acc : list str * bool * run) (valueSetMatch : found)
  : list str * bool * run :=
  let '(valueSets, modified, r) := acc in
  let fullMatch := text valueSetMatch in
  let valuesString := group (groups valueSetMatch) 1 in
  let values := parseValues valuesString in
  let maxIndex := maxIndexOf columnIndicesToAnonymize in
  if (Z.of_nat (List.length values) <=? maxIndex)%Z then
    (valueSets ++ [fullMatch], modified,
     warn (WarnBounds (processedStatements r) (List.length values) maxIndex) r)
  else
    let '(values', valueSetModified, r') :=
      fold_left anonymizeIndex columnIndicesToAnonymize (values, false, r) in
    if valueSetModified then
      (valueSets ++ [L "(" ++ join (L ", ") values' ++ L ")"], true, r')
    else
      (valueSets ++ [fullMatch], modified, r').

(** [processStatement(statement)], lines 625-714.  The [throw] of line 645
    lands in the [catch] of lines 703-709. *)
Definition processStatement (statement : str) (r : run) : run :=
  let r := countProcessed r in
  if test true (insertRegex targetTableName) statement then
    match indexOf (toUpperCase statement) (L "VALUES") with
    | None => write (statement ++ [nl]) (countError r)
    | Some valuesPos =>
        let prefix := substring statement 0 (valuesPos + 6) in
        let valuesPart := substringFrom statement (valuesPos + 6) in
        let '(valueSets, modified, r) :=
          fold_left processValueSet
            (execAll false valueSetRegex valuesPart) ([], false, r) in
        if modified then
          countAnonymized
            (write ((prefix ++ L " " ++ join (L "," ++ [nl; tab]) valueSets
                       ++ L ";") ++ [nl; nl]) r)
        else
          countSkipped (write (statement ++ [nl]) r)
    end
  else write (statement ++ [nl]) r.

End Program.

(** The stream driver, lines 575-596, over the chunks of the ['data']
    events. *)
Section Driver.

Variable A : Type.
Variable handle : str -> A -> A.     (* processStatement *)

(** The [while] loop of lines 584-589.  Each round takes at least one
    character off [buffer], so [length buffer] rounds are enough
    ([drain_spec]: what is left holds no semicolon). *)
Fixpoint drain (n : nat) (buffer : str) (a : A) : str * A :=
  match n with
  | 0 => (buffer, a)
  | S n' =>
      match indexOfChar buffer semicolon with
      | Some statementEndIndex =>
          let statement := substring buffer 0 (statementEndIndex + 1) in
          let buffer' := substringFrom buffer (statementEndIndex + 1) in
          drain n' buffer' (handle statement a)
      | None => (buffer, a)
      end
  end.

(** The ['data'] handler. *)
Definition onData (acc : str * A) (chunk : str) : str * A :=
  let buffer := fst acc ++ chunk in
  drain (List.length buffer) buffer (snd acc).

(** The ['end'] handler, lines 592-596. *)
Definition onEnd (acc : str * A) : A :=
  if truthy (trim (fst acc)) then handle (fst acc) (snd acc) else snd acc.

Definition drive (chunks : list str) (a : A) : A :=
  onEnd (fold_left onData chunks ([], a)).

End Driver.

(** [processFile]: the run over the chunks of the input file. *)
Definition processFile (targetTableName : str)
  (columnIndicesToAnonymize : list nat) (e : entropy) (chunks : list str) : run :=
  drive run (processStatement targetTableName columnIndicesToAnonymize e)
        chunks run0.

(** The statements that the driver hands to [processStatement], in order. *)
Definition statements (chunks : list str) : list str :=
  drive (list str) (fun statement acc => acc ++ [statement]) chunks [].

End CliStream.


(** ** The arguments, lines 37-54 and 78 (457-474 and 486) *)

Module Args.

Definition isDigit (c : ascii) : bool :=
  let n := code c in (48 <=? n) && (n <=? 57).

Definition digitValue (c : ascii) : Z := Z.of_nat (code c - 48).

(** The longest prefix of decimal digits. *)
Fixpoint digitsPrefix (s : str) : str :=
  match s with
  | c :: s' => if isDigit c then c :: digitsPrefix s' else []
  | [] => []
  end.

Definition digitsValue (ds : str) : Z :=
  fold_left (fun acc c => (acc * 10 + digitValue c)%Z) ds 0%Z.

(** [parseInt(s, 10)]: leading white space is skipped, a sign is read, then
    the longest run of digits; [None] is [NaN].  The value is the exact
    integer (the source has it exactly below 2^53). *)
Definition parseInt (s : str) : option Z :=
  let s1 := trimStart s in
  let '(sign, s2) :=
    match s1 with
    | c :: s' =>
        if ch_eqb c "-"%char then ((-1)%Z, s')
        else if ch_eqb c "+"%char then (1%Z, s')
        else (1%Z, s1)
    | [] => (1%Z, s1)
    end in
  match digitsPrefix s2 with
  | [] => None
  | ds => Some (sign * digitsValue ds)%Z
  end.

(** The [map] of lines 40-46: the first part that is no number or is below
    1 throws, with that part in the message. *)
Fixpoint mapParts (parts : list str) : str + list nat :=
  match parts with
  | [] => inr []
  | numStr :: rest =>
      match parseInt (trim numStr) with
      | None => inl numStr
      | Some num =>
          if (num <? 1)%Z then inl numStr
          else match mapParts rest with
               | inl bad => inl bad
               | inr indices => inr (Z.to_nat (num - 1) :: indices)
               end
      end
  end.

(** [indices.sort((a, b) => a - b)]: the numbers in ascending order. *)
Fixpoint insertSorted (x : nat) (l : list nat) : list nat :=
  match l with
  | [] => [x]
  | y :: l' => if x <=? y then x :: l else y :: insertSorted x l'
  end.

Fixpoint sortAscending (l : list nat) : list nat :=
  match l with
  | [] => []
  | x :: l' => insertSorted x (sortAscending l')
  end.

(** The [coerce] of option [c]: the 0-based indices in ascending order, or
    the part of the argument that was refused. *)
Definition coerce (arg : str) : str + list nat :=
  match mapParts (split arg comma) with
  | inl bad => inl bad
  | inr indices => inr (sortAscending indices)
  end.

(** The characters of the class of line 78. *)
Definition isRegExpMeta (c : ascii) : bool :=
  existsb (ch_eqb c) (L ".*+?^${}()|[]\").

(** [escapedTableName], line 78: a backslash before every character of
    the class. *)
Definition escapedTableName (targetTableName : str) : str :=
  flat_map (fun c => if isRegExpMeta c then ["\"%char; c] else [c])
    targetTableName.

End Args.

Import Args.

(** ** Vocabulary of the properties *)

(** The SQL encoding of a string value: every quote doubled, the whole
    between two quotes. *)
Definition sqlEscape (body : str) : str :=
  flat_map (fun c => if ch_eqb c quote then [quote; quote] else [c]) body.

Definition sqlLiteral (body : str) : str := quote :: sqlEscape body ++ [quote].

(** [sub] occurs in [s]. *)
Definition contains (s sub : str) : Prop := exists a b, s = a ++ sub ++ b.

(** A lowercase hexadecimal digit. *)
Definition isLowerHex (c : ascii) : bool :=
  let n := code c in
  ((48 <=? n) && (n <=? 57)) || ((97 <=? n) && (n <=? 102)).

Definition isParen (c : ascii) : bool :=
  ch_eqb c "("%char || ch_eqb c ")"%char.

(** A readable form of a text. *)
Definition show (s : str) : string := string_of_list_ascii s.

(** Two entropy sources for the scenarios. *)
Definition zeroEntropy : entropy := fun _ => x00.
Definition someEntropy : entropy :=
  fun i => match Byte.of_nat ((i * 37 + 11) mod 256) with
           | Some b => b
           | None => x00
           end.

(** The sixteen digits between the quotes of a token. *)
Definition tokenDigits (e : entropy) (p : nat) : str :=
  firstn 16 (toHex (randomBytes e p 8)).

(** What a replacement may do to a list of fields: each field stays or
    becomes a token. *)
Definition keptOrToken (e : entropy) (old new : str) : Prop :=
  new = old \/ exists p, new = fst (generateRandomQuotedString e p).

(** [r'] differs from [r] at most in the diagnostics and the cursor. *)
Definition quiet (r r' : run) : Prop :=
  output r' = output r
  /\ processedStatements r' = processedStatements r
  /\ successfullyAnonymizedStatements r' = successfullyAnonymizedStatements r
  /\ statementsWithErrors r' = statementsWithErrors r
  /\ statementsWithSkippedAnonymization r' = statementsWithSkippedAnonymization r.

(** Whether the line-based program replaces the field at index [i]: the
    index is within bounds (line 314) and the field passes the safety check
    (line 317). *)
Definition cliHit (values : list str) (i : nat) : bool :=
  (i <? List.length values) && Cli.anonymizable (nth i values []).

(** Whether the stream-based program replaces the field at index [i]: the
    index is within bounds (line 673). *)
Definition streamHit (values : list str) (i : nat) : bool :=
  i <? List.length values.

(** The fields of a matched tuple, as each program reads them. *)
Definition cliFields (m : found) : list str :=
  parseValues (trim (group (groups m) 1)).

Definition streamFields (m : found) : list str :=
  parseValues (group (groups m) 1).

(** The bounds check of lines 305 and 664. *)
Definition tooNarrow (cols : list nat) (values : list str) : bool :=
  (Z.of_nat (List.length values) <=? maxIndexOf cols)%Z.

(** Whether a program replaces a field of the tuple. *)
Definition cliReplaces (cols : list nat) (m : found) : bool :=
  negb (tooNarrow cols (cliFields m))
  && existsb (cliHit (cliFields m)) cols.

Definition streamReplaces (cols : list nat) (m : found) : bool :=
  negb (tooNarrow cols (streamFields m))
  && existsb (streamHit (streamFields m)) cols.

(** The tuple [('x', 'O''Brien')] as the value-set pattern of the
    line-based program finds it. *)
Definition obrienTuple : found :=
  Found 8 (L "('x', 'O''Brien')") [(1, L "'x', 'O''Brien'")] 25 (L ";").

(** The tuple [(1,'a','b')] as the value-set patterns find it. *)
Definition threeFieldTuple : found :=
  Found 8 (L "(1,'a','b')") [(1, L "1,'a','b'")] 19 (L ",(1,2,3,4,5,'x');").

(** A statement that ends with its only semicolon. *)
Definition endsAtOnlySemicolon (s : str) : Prop :=
  exists b, s = b ++ [semicolon] /\ ~ In semicolon b.

(** [matches ic r st st']: the pattern [r] can take the matcher from state
    [st] to state [st'] (the backtracking order left aside). *)
Inductive matches (ic : bool) : regex -> mstate -> mstate -> Prop :=
| M_Eps st : matches ic Eps st st
| M_Chr c x s' st :
    rest st = x :: s' -> chr_match ic c x = true ->
    matches ic (Chr c) st (step1 st s')
| M_Cls negated items x s' st :
    rest st = x :: s' -> cls_match ic negated items x = true ->
    matches ic (Cls negated items) st (step1 st s')
| M_Seq r1 r2 st st1 st2 :
    matches ic r1 st st1 -> matches ic r2 st1 st2 ->
    matches ic (Seq r1 r2) st st2
| M_AltL r1 r2 st st' : matches ic r1 st st' -> matches ic (Alt r1 r2) st st'
| M_AltR r1 r2 st st' : matches ic r2 st st' -> matches ic (Alt r1 r2) st st'
| M_Star0 greedy r st : matches ic (Star greedy r) st st
| M_StarS greedy r st st1 st2 :
    matches ic r st st1 -> pos st1 <> pos st ->
    matches ic (Star greedy r) st1 st2 ->
    matches ic (Star greedy r) st st2
| M_Group n r st st1 :
    matches ic r st st1 ->
    matches ic (Group n r) st
      (MState (pos st1) (rest st1)
         (caps st1 ++ [(n, firstn (pos st1 - pos st) (rest st))]))
| M_Bol st : pos st = 0 -> matches ic Bol st st.

(** The words of a pattern. *)
Fixpoint lang (ic : bool) (r : regex) (w : str) : Prop :=
  match r with
  | Eps => w = []
  | Chr c => exists x, w = [x] /\ chr_match ic c x = true
  | Cls negated items => exists x, w = [x] /\ cls_match ic negated items x = true
  | Seq r1 r2 => exists u v, w = u ++ v /\ lang ic r1 u /\ lang ic r2 v
  | Alt r1 r2 => lang ic r1 w \/ lang ic r2 w
  | Star _ r1 => exists ws, w = List.concat ws /\ Forall (lang ic r1) ws
  | Group _ r1 => lang ic r1 w
  | Bol => w = []
  end.

Definition lparen : ascii := "("%char.
Definition rparen : ascii := ")"%char.

Definition noParen (s : str) : Prop := Forall (fun c => isParen c = false) s.

(** A text whose parentheses come in balanced pairs, one level deep. *)
Inductive flat : str -> Prop :=
| flat_nil : flat []
| flat_char x w : isParen x = false -> flat w -> flat (x :: w)
| flat_group u w : noParen u -> flat w -> flat (lparen :: u ++ rparen :: w).

(** A pair of parentheses around [fst g], followed by [snd g]. *)
Definition groupText (g : str * str) : str :=
  lparen :: fst g ++ rparen :: snd g.

(** A tuple: [lead] and then parenthesised groups, all between
    parentheses. *)
Definition tupleText (lead : str) (gs : list (str * str)) : str :=
  lparen :: (lead ++ List.concat (map groupText gs)) ++ [rparen].

(** A tuple with the text before it. *)
Record shape := Shape {
  before : str;
  lead : str;
  inner : list (str * str)
}.

Definition shapeTuple (t : shape) : str := tupleText (lead t) (inner t).

Definition wellShaped (t : shape) : Prop :=
  noParen (before t) /\ noParen (lead t)
  /\ Forall (fun g => noParen (fst g) /\ noParen (snd g)) (inner t).

(** The tuples, each after its [before], and [post] after the last. *)
Definition region (ts : list shape) (post : str) : str :=
  List.concat (map (fun t => before t ++ shapeTuple t) ts) ++ post.

(** One parenthesised group of the value-set patterns. *)
Definition groupRegex (g1 g2 : bool) : regex :=
  seqs [Chr lparen; Star g1 notParen; Chr rparen; Star g2 notParen].

(** The row [(1, '(555) 123-4567')] after the text [ VALUES ]. *)
Definition phoneRow : shape :=
  Shape (L " VALUES ") (L "1, '") [(L "555", L " 123-4567'")].


(** The loop variables of [parseValues] with no field closed yet, outside
    ([false]) or inside ([true]) a quoted string. *)
Definition pstateAt (v : list str) (c : str) (b : bool) : pstate :=
  PState v c b (if b then Some quote else None).

(** The tokenizer reads [f] to its end without closing a field. *)
Definition plain (b : bool) (f : str) : Prop :=
  values (parseLoop f (pstateAt [] [] b)) = [].

(** Whether the tokenizer is inside a quoted string after [f]. *)
Definition quotedAfter (b : bool) (f : str) : bool :=
  inQuotes (parseLoop f (pstateAt [] [] b)).

(** A field that [parseValues] reads back as itself before a comma: no
    white space around it, no comma outside quotes, every quote closed. *)
Definition sealedField (f : str) : Prop :=
  trim f = f /\ plain false f /\ quotedAfter false f = false.

(** A list of fields that [parseValues] reads back from its [join]: all
    but the last are sealed, the last may end inside a quoted string. *)
Definition rejoinable (fs : list str) : Prop :=
  exists init last,
    fs = init ++ [last] /\ Forall sealedField init
    /\ trim last = last /\ plain false last.

(** The tuples that the line-based program reads in a statement: those
    of the text from the match of line 276 on, none when the statement is
    no target. *)
Definition cliTuples (table statement : str) : list found :=
  match search true (Cli.insertRegex table) statement,
        search true Cli.valuesRegex statement with
  | Some _, Some valuesMatch =>
      execAll false Cli.valueSetRegex
        (substringFrom statement (index valuesMatch))
  | _, _ => []
  end.

(** The tuples that the stream-based program reads in a target
    statement: those of the text after the first [VALUES]. *)
Definition streamTuples (statement : str) : list found :=
  match indexOf (toUpperCase statement) (L "VALUES") with
  | Some valuesPos =>
      execAll false CliStream.valueSetRegex
        (substringFrom statement (valuesPos + 6))
  | None => []
  end.

(** The requested indices at which a program replaces a field of the
    tuple, repeats included. *)
Definition cliHits (cols : list nat) (m : found) : list nat :=
  if tooNarrow cols (cliFields m) then []
  else filter (cliHit (cliFields m)) cols.

Definition streamHits (cols : list nat) (m : found) : list nat :=
  if tooNarrow cols (streamFields m) then [] else cols.

(** The warning of a tuple with too few fields, if it is one. *)
Definition boundsWarning (where_ : nat) (cols : list nat) (fields : list str)
  : list diag :=
  if tooNarrow cols fields
  then [WarnBounds where_ (List.length fields) (maxIndexOf cols)]
  else [].

(** [r'] differs from [r] at most in the cursor. *)
Definition sameButCursor (r r' : run) : Prop :=
  quiet r r' /\ diagnostics r' = diagnostics r.

(** Whether the line-based program replaces a field in the statement. *)
Definition cliModifies (table : str) (cols : list nat) (statement : str) : bool :=
  existsb (cliReplaces cols) (cliTuples table statement).

(** Whether a statement is a target of the stream-based program, and
    whether the program replaces a field in it. *)
Definition streamTarget (table statement : str) : bool :=
  test true (CliStream.insertRegex table) statement.

Definition streamModifies (table : str) (cols : list nat) (statement : str)
  : bool :=
  streamTarget table statement
  && existsb (streamReplaces cols) (streamTuples statement).

(** The number of statements with a property. *)
Definition count (p : str -> bool) (statements : list str) : nat :=
  List.length (filter p statements).

(** The effect of a statement on the run: the line-based program. *)
Record cliEffect (table : str) (cols : list nat) (statement : str) (line : nat)
  (r r' : run) : Prop := {
  cli_processed : processedStatements r' = S (processedStatements r);
  cli_errors : statementsWithErrors r' = statementsWithErrors r;
  cli_anonymized :
    successfullyAnonymizedStatements r'
    = successfullyAnonymizedStatements r
      + (if cliModifies table cols statement then 1 else 0);
  cli_skipped :
    statementsWithSkippedAnonymization r'
    = statementsWithSkippedAnonymization r
      + (if cliModifies table cols statement then 0 else 1);
  cli_as_read :
    cliModifies table cols statement = false ->
    output r' = output r ++ statement;
  cli_diagnostics :
    diagnostics r'
    = diagnostics r
      ++ flat_map (fun m => boundsWarning line cols (cliFields m))
           (cliTuples table statement);
  cli_cursor :
    cursor r'
    = cursor r + 8 * List.length (flat_map (cliHits cols) (cliTuples table statement))
}.

(** The effect of a statement on the run: the stream-based program. *)
Record streamEffect (table : str) (cols : list nat) (statement : str)
  (r r' : run) : Prop := {
  stream_processed : processedStatements r' = S (processedStatements r);
  stream_errors : statementsWithErrors r' = statementsWithErrors r;
  stream_anonymized :
    successfullyAnonymizedStatements r'
    = successfullyAnonymizedStatements r
      + (if streamModifies table cols statement then 1 else 0);
  stream_skipped :
    statementsWithSkippedAnonymization r'
    = statementsWithSkippedAnonymization r
      + (if streamTarget table statement
            && negb (streamModifies table cols statement) then 1 else 0);
  stream_as_read :
    streamModifies table cols statement = false ->
    output r' = output r ++ statement ++ [nl];
  stream_diagnostics :
    diagnostics r'
    = diagnostics r
      ++ (if streamTarget table statement
          then flat_map (fun m => boundsWarning (S (processedStatements r)) cols
                                    (streamFields m))
                 (streamTuples statement)
          else []);
  stream_cursor :
    cursor r'
    = cursor r
      + 8 * (if streamTarget table statement
             then List.length (flat_map (streamHits cols) (streamTuples statement))
             else 0)
}.

(** A bounds warning, lines 306 and 665. *)
Definition isBoundsWarning (d : diag) : Prop :=
  exists where_ foundValues neededIndex,
    d = WarnBounds where_ foundValues neededIndex.

(** What holds of a run of the line-based program after it has handled
    the statements [done]. *)
Record cliRunFacts (table : str) (cols : list nat) (r : run) (done : list str)
  : Prop := {
  cli_run_processed : processedStatements r = List.length done;
  cli_run_anonymized :
    successfullyAnonymizedStatements r = count (cliModifies table cols) done;
  cli_run_skipped :
    statementsWithSkippedAnonymization r
    = count (fun s => negb (cliModifies table cols s)) done;
  cli_run_errors : statementsWithErrors r = 0;
  cli_run_cursor :
    cursor r
    = 8 * List.length
            (flat_map (fun s => flat_map (cliHits cols) (cliTuples table s)) done);
  cli_run_diagnostics :
    Forall (fun d => d = WarnNoSemicolon \/ isBoundsWarning d) (diagnostics r);
  cli_run_as_read :
    count (cliModifies table cols) done = 0 -> output r = List.concat done
}.

(** The same for the stream-based program. *)
Record streamRunFacts (table : str) (cols : list nat) (r : run)
  (done : list str) : Prop := {
  stream_run_processed : processedStatements r = List.length done;
  stream_run_anonymized :
    successfullyAnonymizedStatements r = count (streamModifies table cols) done;
  stream_run_skipped :
    statementsWithSkippedAnonymization r
    = count (fun s => streamTarget table s && negb (streamModifies table cols s))
        done;
  stream_run_errors : statementsWithErrors r = 0;
  stream_run_cursor :
    cursor r
    = 8 * List.length
            (flat_map (fun s => flat_map (streamHits cols) (streamTuples s))
               (filter (streamTarget table) done));
  stream_run_diagnostics : Forall isBoundsWarning (diagnostics r);
  stream_run_as_read :
    count (streamModifies table cols) done = 0 ->
    output r = List.concat (map (fun s => s ++ [nl]) done)
}.

(** The characters of a text that are no white space, in order. *)
Definition ink (s : str) : str := filter (fun c => negb (isWhiteSpace c)) s.

(** The texts [xs], each after its gap. *)
Definition interleave (gaps xs : list str) : str :=
  List.concat (map (fun gx => fst gx ++ snd gx) (combine gaps xs)).

(** The fields of a tuple after the [forEach] of lines 313-330: a field
    at a requested index that passes the safety check of line 317 has
    become a token, every other field is as it was. *)
Definition cliNewFields (cols : list nat) (e : entropy) (old new : list str)
  : Prop :=
  List.length new = List.length old
  /\ forall j, j < List.length old ->
       if existsb (Nat.eqb j) cols && Cli.anonymizable (nth j old [])
       then exists p, nth j new [] = fst (generateRandomQuotedString e p)
       else nth j new [] = nth j old [].

(** What the line-based program writes for a tuple: its text as read
    when it replaces no field of it, and else its fields joined again. *)
Definition cliRebuilt (cols : list nat) (e : entropy) (m : found) (t : str)
  : Prop :=
  if cliReplaces cols m
  then exists fields,
         cliNewFields cols e (cliFields m) fields
         /\ t = L "( " ++ join (L ", ") fields ++ L " )"
  else t = text m.






(** A pattern without a capturing group. *)
Fixpoint groupFree (r : regex) : bool :=
  match r with
  | Eps | Chr _ | Cls _ _ | Bol => true
  | Seq r1 r2 | Alt r1 r2 => groupFree r1 && groupFree r2
  | Star _ r1 => groupFree r1
  | Group _ _ => false
  end.

(** The text between the first and the last character. *)
Definition interior (t : str) : str := removelast (List.tl t).

(** * Properties *)

(** ** Strings *)

Lemma ch_eqb_eq (a b : ascii) : ch_eqb a b = true <-> a = b.
Proof. unfold ch_eqb. apply Ascii.eqb_eq. Qed.

Lemma ch_eqb_neq (a b : ascii) : ch_eqb a b = false <-> a <> b.
Proof. unfold ch_eqb. apply Ascii.eqb_neq. Qed.

Lemma ch_eqb_refl (a : ascii) : ch_eqb a a = true.
Proof. apply ch_eqb_eq. reflexivity. Qed.

Lemma str_eqb_eq (a b : str) : str_eqb a b = true <-> a = b.
Proof.
  revert b. induction a as [|x a IH]; intros [|y b]; simpl; split; intro H;
    try reflexivity; try discriminate.
  - apply andb_true_iff in H. destruct H as [H1 H2].
    apply ch_eqb_eq in H1. apply IH in H2. congruence.
  - injection H as -> ->. rewrite ch_eqb_refl. simpl. apply IH. reflexivity.
Qed.

Lemma trimStart_all_ws (s : str) :
  Forall (fun c => isWhiteSpace c = true) s -> trimStart s = [].
Proof.
  induction 1 as [|c s Hc _ IH]; simpl; [reflexivity|].
  rewrite Hc. exact IH.
Qed.

Lemma trim_all_ws (s : str) :
  Forall (fun c => isWhiteSpace c = true) s -> trim s = [].
Proof.
  intro H. unfold trim. rewrite (trimStart_all_ws _ H). reflexivity.
Qed.

Lemma trimStart_head (c : ascii) (s : str) :
  isWhiteSpace c = false -> trimStart (c :: s) = c :: s.
Proof. intro H. simpl. rewrite H. reflexivity. Qed.

(** A text that neither starts nor ends with white space is its own trim. *)
Lemma trim_fixed (c d : ascii) (m : str) :
  isWhiteSpace c = false -> isWhiteSpace d = false ->
  trim (c :: m ++ [d]) = c :: m ++ [d].
Proof.
  intros Hc Hd. unfold trim. rewrite (trimStart_head _ _ Hc).
  unfold trimEnd.
  assert (E : rev (c :: m ++ [d]) = d :: rev (c :: m)).
  { change (c :: m ++ [d]) with ((c :: m) ++ [d]).
    rewrite rev_app_distr. reflexivity. }
  rewrite E, (trimStart_head _ _ Hd), <- E. apply rev_involutive.
Qed.

Lemma quote_not_space : isWhiteSpace quote = false.
Proof. reflexivity. Qed.

Lemma trim_sqlLiteral (body : str) : trim (sqlLiteral body) = sqlLiteral body.
Proof. apply trim_fixed; apply quote_not_space. Qed.

Lemma contains_join (sep : str) (xs : list str) (j : nat) :
  j < List.length xs -> contains (join sep xs) (nth j xs []).
Proof.
  revert j. induction xs as [|x xs IH]; intros j Hj; simpl in Hj; [lia|].
  destruct xs as [|y ys].
  - destruct j; [|simpl in Hj; lia]. exists [], []. simpl.
    rewrite app_nil_r. reflexivity.
  - destruct j as [|j].
    + exists [], (sep ++ join sep (y :: ys)). reflexivity.
    + destruct (IH j) as [a [b E]]; [simpl in *; lia|].
      exists (x ++ sep ++ a), b.
      change (join sep (x :: y :: ys)) with (x ++ sep ++ join sep (y :: ys)).
      rewrite E. change (nth (S j) (x :: y :: ys) []) with (nth j (y :: ys) []).
      rewrite <- !app_assoc. reflexivity.
Qed.

Lemma contains_wrap (s sub a b : str) :
  contains s sub -> contains (a ++ s ++ b) sub.
Proof.
  intros [u [v E]]. exists (a ++ u), (v ++ b). rewrite E.
  rewrite <- !app_assoc. reflexivity.
Qed.

(** ** The tokenizer *)

Lemma list_pair_ind (P : list ascii -> Prop) :
  P [] -> (forall c, P [c]) ->
  (forall c d s, P s -> P (d :: s) -> P (c :: d :: s)) ->
  forall s : list ascii, P s.
Proof.
  intros H0 H1 H2 s.
  assert (H : P s /\ forall c, P (c :: s)).
  { induction s as [|d s [IHa IHb]]; split; auto. }
  apply H.
Qed.

(** One round of the loop. *)
Lemma parseLoop_cons (char : ascii) (rest : str) (st : pstate) :
  parseLoop (char :: rest) st =
    if ch_eqb char quote && negb (inQuotes st) then
      parseLoop rest
        (PState (values st) (currentVal st ++ [char]) true (Some quote))
    else if ch_eqb char quote && inQuotes st && quoteIs (quoteChar st) quote then
      match rest with
      | next :: rest' =>
          if ch_eqb next quote then
            parseLoop rest'
              (PState (values st) (currentVal st ++ L "''")
                      (inQuotes st) (quoteChar st))
          else
            parseLoop rest
              (PState (values st) (currentVal st ++ [char]) false None)
      | [] =>
          parseLoop rest
            (PState (values st) (currentVal st ++ [char]) false None)
      end
    else if ch_eqb char comma && negb (inQuotes st) then
      parseLoop rest
        (PState (values st ++ [trim (currentVal st)]) []
                (inQuotes st) (quoteChar st))
    else
      parseLoop rest
        (PState (values st) (currentVal st ++ [char])
                (inQuotes st) (quoteChar st)).
Proof. destruct rest; reflexivity. Qed.

Lemma startsWith_quote (next : ascii) (rest : str) :
  startsWith (next :: rest) (L "'") = ch_eqb quote next.
Proof. simpl. destruct rest; apply andb_true_r. Qed.

Lemma not_startsWith_quote (next : ascii) (rest : str) :
  startsWith (next :: rest) (L "'") = false -> ch_eqb next quote = false.
Proof.
  rewrite startsWith_quote. unfold ch_eqb. rewrite Ascii.eqb_sym. auto.
Qed.

Lemma parseLoop_open (rest : str) (st : pstate) :
  inQuotes st = false ->
  parseLoop (quote :: rest) st =
  parseLoop rest (PState (values st) (currentVal st ++ [quote]) true (Some quote)).
Proof. intro H. rewrite parseLoop_cons, H. reflexivity. Qed.

Lemma parseLoop_escaped (rest : str) (v : list str) (cur : str) :
  parseLoop (quote :: quote :: rest) (PState v cur true (Some quote)) =
  parseLoop rest (PState v (cur ++ L "''") true (Some quote)).
Proof. rewrite parseLoop_cons. reflexivity. Qed.

Lemma parseLoop_close (rest : str) (v : list str) (cur : str) :
  startsWith rest (L "'") = false ->
  parseLoop (quote :: rest) (PState v cur true (Some quote)) =
  parseLoop rest (PState v (cur ++ [quote]) false None).
Proof.
  intro H. rewrite parseLoop_cons. simpl.
  destruct rest as [|next rest']; [reflexivity|].
  rewrite (not_startsWith_quote _ _ H). reflexivity.
Qed.

Lemma parseLoop_inside (c : ascii) (rest : str) (v : list str) (cur : str) :
  c <> quote ->
  parseLoop (c :: rest) (PState v cur true (Some quote)) =
  parseLoop rest (PState v (cur ++ [c]) true (Some quote)).
Proof.
  intro H. apply ch_eqb_neq in H. rewrite parseLoop_cons. simpl.
  rewrite H. simpl. rewrite andb_false_r. reflexivity.
Qed.

Lemma parseLoop_comma (rest : str) (st : pstate) :
  inQuotes st = false ->
  parseLoop (comma :: rest) st =
  parseLoop rest
    (PState (values st ++ [trim (currentVal st)]) [] false (quoteChar st)).
Proof. intro H. rewrite parseLoop_cons, H. reflexivity. Qed.

Lemma sqlEscape_cons (c : ascii) (body : str) :
  sqlEscape (c :: body) =
  (if ch_eqb c quote then [quote; quote] else [c]) ++ sqlEscape body.
Proof. reflexivity. Qed.

(** The body of a literal and its closing quote, read from inside the
    quotes: every doubled quote goes to the field as two characters. *)
Lemma parseLoop_escaped_body (body rest : str) (v : list str) :
  startsWith rest (L "'") = false ->
  forall cur,
  parseLoop (sqlEscape body ++ quote :: rest) (PState v cur true (Some quote)) =
  parseLoop rest (PState v (cur ++ sqlEscape body ++ [quote]) false None).
Proof.
  intro Hrest. induction body as [|c body IH]; intro cur.
  - apply parseLoop_close. exact Hrest.
  - rewrite sqlEscape_cons. destruct (ch_eqb c quote) eqn:Hc.
    + change (([quote; quote] ++ sqlEscape body) ++ quote :: rest)
        with (quote :: quote :: sqlEscape body ++ quote :: rest).
      rewrite parseLoop_escaped, IH.
      change (L "''") with [quote; quote].
      rewrite <- !app_assoc. reflexivity.
    + change (([c] ++ sqlEscape body) ++ quote :: rest)
        with (c :: sqlEscape body ++ quote :: rest).
      rewrite parseLoop_inside by (apply ch_eqb_neq; exact Hc).
      rewrite IH. rewrite <- !app_assoc. reflexivity.
Qed.

(** A literal read from outside the quotes goes whole to the current
    field and leaves the tokenizer outside the quotes. *)
Lemma parseLoop_literal (body rest : str) (st : pstate) :
  inQuotes st = false ->
  startsWith rest (L "'") = false ->
  parseLoop (sqlLiteral body ++ rest) st =
  parseLoop rest
    (PState (values st) (currentVal st ++ sqlLiteral body) false None).
Proof.
  intros Hq Hrest. unfold sqlLiteral.
  change ((quote :: sqlEscape body ++ [quote]) ++ rest)
    with (quote :: (sqlEscape body ++ [quote]) ++ rest).
  rewrite parseLoop_open by exact Hq.
  rewrite <- app_assoc. change ([quote] ++ rest) with (quote :: rest).
  rewrite parseLoop_escaped_body by exact Hrest.
  rewrite <- app_assoc. reflexivity.
Qed.

(** Reading [s ++ t] is reading [s], then [t], unless [t] starts with a
    quote that could pair up with the last one of [s]. *)
Lemma parseLoop_app (t : str) :
  startsWith t (L "'") = false ->
  forall s st, parseLoop (s ++ t) st = parseLoop t (parseLoop s st).
Proof.
  intros Ht s. induction s as [| c | c d s IH0 IH1] using list_pair_ind; intro st.
  - reflexivity.
  - simpl app. rewrite !parseLoop_cons.
    destruct (ch_eqb c quote && negb (inQuotes st)); [reflexivity|].
    destruct (ch_eqb c quote && inQuotes st && quoteIs (quoteChar st) quote).
    + destruct t as [|next t']; [reflexivity|].
      rewrite (not_startsWith_quote _ _ Ht). reflexivity.
    + destruct (ch_eqb c comma && negb (inQuotes st)); reflexivity.
  - change ((c :: d :: s) ++ t) with (c :: (d :: s) ++ t).
    rewrite (parseLoop_cons c ((d :: s) ++ t)), (parseLoop_cons c (d :: s)).
    destruct (ch_eqb c quote && negb (inQuotes st)); [apply IH1|].
    destruct (ch_eqb c quote && inQuotes st && quoteIs (quoteChar st) quote).
    + simpl app. cbv beta iota.
      destruct (ch_eqb d quote); [apply IH0 | apply IH1].
    + destruct (ch_eqb c comma && negb (inQuotes st)); apply IH1.
Qed.

(** Either a field was closed, or all of the text went to the current
    field. *)
Lemma parseLoop_progress (s : str) :
  forall st,
    (values (parseLoop s st) = values st
     /\ currentVal (parseLoop s st) = currentVal st ++ s)
    \/ List.length (values st) < List.length (values (parseLoop s st)).
Proof.
  induction s as [| c | c d s IH0 IH1] using list_pair_ind; intro st.
  - left. simpl. rewrite app_nil_r. split; reflexivity.
  - rewrite parseLoop_cons.
    destruct (ch_eqb c quote && negb (inQuotes st)); [left; split; reflexivity|].
    destruct (ch_eqb c quote && inQuotes st && quoteIs (quoteChar st) quote);
      [left; split; reflexivity|].
    destruct (ch_eqb c comma && negb (inQuotes st)).
    + right. cbn [parseLoop values]. rewrite length_app, Nat.add_1_r.
      apply Nat.lt_succ_diag_r.
    + left. split; reflexivity.
  - rewrite parseLoop_cons.
    assert (Keep : forall st1 u, values st1 = values st ->
              currentVal st1 = currentVal st ++ u ->
              forall w, c :: d :: s = u ++ w ->
              ((values (parseLoop w st1) = values st1
                /\ currentVal (parseLoop w st1) = currentVal st1 ++ w)
               \/ List.length (values st1) < List.length (values (parseLoop w st1))) ->
              (values (parseLoop w st1) = values st
               /\ currentVal (parseLoop w st1) = currentVal st ++ c :: d :: s)
              \/ List.length (values st) < List.length (values (parseLoop w st1))).
    { intros st1 u Hv Hc w Hw [[H1 H2]|H].
      - left. split; [congruence|]. rewrite H2, Hc, Hw, <- app_assoc. reflexivity.
      - right. rewrite <- Hv. exact H. }
    destruct (ch_eqb c quote && negb (inQuotes st)) eqn:E1.
    { apply andb_true_iff in E1. destruct E1 as [E1 _]. apply ch_eqb_eq in E1.
      subst c. apply (Keep _ [quote]); [reflexivity | reflexivity | reflexivity | apply IH1]. }
    destruct (ch_eqb c quote && inQuotes st && quoteIs (quoteChar st) quote) eqn:E2.
    { apply andb_true_iff in E2. destruct E2 as [E2 _].
      apply andb_true_iff in E2. destruct E2 as [E2 _]. apply ch_eqb_eq in E2.
      subst c. destruct (ch_eqb d quote) eqn:E3.
      - apply ch_eqb_eq in E3. subst d.
        apply (Keep _ [quote; quote]); [reflexivity | reflexivity | reflexivity | apply IH0].
      - apply (Keep _ [quote]); [reflexivity | reflexivity | reflexivity | apply IH1]. }
    destruct (ch_eqb c comma && negb (inQuotes st)) eqn:E3.
    { right. destruct (IH1 (PState (values st ++ [trim (currentVal st)]) []
                                 (inQuotes st) (quoteChar st))) as [[H1 _]|H].
      - rewrite H1. cbn [values]. rewrite length_app, Nat.add_1_r.
        apply Nat.lt_succ_diag_r.
      - cbn [values] in H. rewrite length_app, Nat.add_1_r in H.
        apply Nat.lt_succ_l. exact H. }
    apply (Keep _ [c]); [reflexivity | reflexivity | reflexivity | apply IH1].
Qed.

(** The condition of line 137 always holds: the last field is always
    pushed. *)
Lemma parseValues_pushes (s : str) :
  parseValues s =
  values (parseLoop s pinit) ++ [trim (currentVal (parseLoop s pinit))].
Proof.
  unfold parseValues.
  destruct (truthy (trim (currentVal (parseLoop s pinit)))) eqn:E1;
    [reflexivity|].
  destruct (0 <? List.length (values (parseLoop s pinit))) eqn:E2;
    [reflexivity|].
  simpl.
  destruct (parseLoop_progress s pinit) as [[_ H]|H].
  - simpl in H. rewrite H in E1.
    destruct (trim s); [reflexivity | discriminate].
  - apply Nat.ltb_ge in E2. simpl in H. lia.
Qed.

Lemma parseLoop_literal_alone (body : str) :
  parseLoop (sqlLiteral body) pinit = PState [] (sqlLiteral body) false None.
Proof.
  pose proof (parseLoop_literal body [] pinit eq_refl eq_refl) as H.
  rewrite app_nil_r in H. exact H.
Qed.

Lemma parseValues_literal (body : str) :
  parseValues (sqlLiteral body) = [sqlLiteral body].
Proof.
  rewrite parseValues_pushes, parseLoop_literal_alone. simpl values.
  simpl currentVal. rewrite trim_sqlLiteral. reflexivity.
Qed.

Lemma parseLoop_no_comma (s : list ascii) :
  Forall (fun c => c <> comma) s ->
  forall st, values (parseLoop s st) = values st.
Proof.
  induction s as [| c | c d s IH0 IH1] using list_pair_ind; intros Hs st.
  - reflexivity.
  - inversion Hs as [|? ? Hc _]; subst. apply ch_eqb_neq in Hc.
    rewrite parseLoop_cons, Hc.
    destruct (ch_eqb c quote && negb (inQuotes st)); [reflexivity|].
    destruct (ch_eqb c quote && inQuotes st && quoteIs (quoteChar st) quote);
      reflexivity.
  - inversion Hs as [|? ? Hc Hds]; subst. apply ch_eqb_neq in Hc.
    assert (Hs0 : Forall (fun c => c <> comma) s) by (inversion Hds; assumption).
    rewrite parseLoop_cons, Hc.
    destruct (ch_eqb c quote && negb (inQuotes st));
      [rewrite (IH1 Hds); reflexivity|].
    destruct (ch_eqb c quote && inQuotes st && quoteIs (quoteChar st) quote).
    + destruct (ch_eqb d quote);
        [rewrite (IH0 Hs0) | rewrite (IH1 Hds)]; reflexivity.
    + cbn [andb]. rewrite (IH1 Hds). reflexivity.
Qed.

Lemma white_not_comma (c : ascii) : isWhiteSpace c = true -> c <> comma.
Proof. intros H E. subst c. discriminate H. Qed.

(** An interior of white space only is one empty field. *)
Lemma parseValues_blank (s : str) :
  Forall (fun c => isWhiteSpace c = true) s -> parseValues s = [[]].
Proof.
  intro Hs. rewrite parseValues_pushes.
  assert (Hv : values (parseLoop s pinit) = []).
  { apply (parseLoop_no_comma s).
    eapply Forall_impl; [|exact Hs]. intros c. apply white_not_comma. }
  rewrite Hv.
  destruct (parseLoop_progress s pinit) as [[_ Hc]|Hlt].
  - rewrite Hc. simpl. rewrite (trim_all_ws _ Hs). reflexivity.
  - rewrite Hv in Hlt. simpl in Hlt. inversion Hlt.
Qed.

(** A comma read outside the quotes closes the current field and leaves
    an empty last one. *)
Lemma parseValues_trailing_comma (s : str) :
  inQuotes (parseLoop s pinit) = false ->
  parseValues (s ++ L ",") = parseValues s ++ [[]].
Proof.
  intro Hq. rewrite !parseValues_pushes.
  rewrite (parseLoop_app (L ",") eq_refl s pinit).
  change (L ",") with [comma].
  rewrite (parseLoop_comma [] _ Hq). reflexivity.
Qed.

(** C8, as the claim states it, fails: the interior of [()] is one empty
    field, not zero fields. *)
Lemma C8_empty_interior_is_one_field :
  parseValues (L "") = [L ""] /\ parseValues (L "") <> [].
Proof. split; [reflexivity | discriminate]. Qed.

(** C8 (amended): tokenizing the empty tuple interior (the content of
    [()], possibly only white space) yields exactly one field, the empty
    string, and no interior yields zero fields; tokenizing an interior
    that ends with a top-level trailing comma yields a final field that is
    the empty string. *)
Theorem C8_empty_and_trailing_fields :
  (forall s, Forall (fun c => isWhiteSpace c = true) s -> parseValues s = [[]])
  /\ (forall s, parseValues s <> [])
  /\ (forall s, inQuotes (parseLoop s pinit) = false ->
        parseValues (s ++ L ",") = parseValues s ++ [[]]).
Proof.
  split; [exact parseValues_blank|]. split; [|exact parseValues_trailing_comma].
  intros s H. rewrite parseValues_pushes in H.
  destruct (values (parseLoop s pinit)); discriminate H.
Qed.

Lemma C8_empty_and_trailing_fields_witness :
  parseValues (L "  ") = [[]]
  /\ parseValues (L "1, 'a,b',") = [L "1"; L "'a,b'"; L ""].
Proof.
  destruct C8_empty_and_trailing_fields as [Hblank [_ Hcomma]].
  split.
  - apply Hblank. repeat constructor.
  - apply (Hcomma (L "1, 'a,b'")). reflexivity.
Defined.

(** ** The replacement token *)

Lemma hexByte_shape (b : byte) :
  exists h l, hexByte b = [h; l] /\ isLowerHex h = true /\ isLowerHex l = true.
Proof.
  exists (hexDigit (Byte.to_nat b / 16)), (hexDigit (Byte.to_nat b mod 16)).
  split; [reflexivity|]. destruct b; split; vm_compute; reflexivity.
Qed.

Lemma toHex_length (bs : list byte) : List.length (toHex bs) = 2 * List.length bs.
Proof.
  induction bs as [|b bs IH]; [reflexivity|].
  unfold toHex in *. cbn [flat_map]. rewrite length_app, IH.
  destruct (hexByte_shape b) as [h [l [E _]]]. rewrite E. simpl. lia.
Qed.

Lemma toHex_lower (bs : list byte) :
  Forall (fun c => isLowerHex c = true) (toHex bs).
Proof.
  induction bs as [|b bs IH]; [constructor|].
  unfold toHex in *. cbn [flat_map].
  destruct (hexByte_shape b) as [h [l [E [Hh Hl]]]]. rewrite E.
  constructor; [exact Hh|]. constructor; [exact Hl|]. exact IH.
Qed.

Lemma randomBytes_length (e : entropy) (p n : nat) :
  List.length (randomBytes e p n) = n.
Proof. unfold randomBytes. rewrite length_map, length_seq. reflexivity. Qed.

Lemma token_shape (e : entropy) (p : nat) :
  fst (generateRandomQuotedString e p) = quote :: tokenDigits e p ++ [quote].
Proof. reflexivity. Qed.

Lemma token_cursor (e : entropy) (p : nat) :
  snd (generateRandomQuotedString e p) = p + 8.
Proof. reflexivity. Qed.


Lemma Forall_firstn (A : Type) (P : A -> Prop) (n : nat) (l : list A) :
  Forall P l -> Forall P (firstn n l).
Proof.
  intro H. revert n. induction H as [|x l Hx _ IH]; intros [|n]; simpl;
    constructor; auto.
Qed.

Lemma tokenDigits_lower (e : entropy) (p : nat) :
  Forall (fun c => isLowerHex c = true) (tokenDigits e p).
Proof. unfold tokenDigits. apply Forall_firstn, toHex_lower. Qed.

(** A digit is none of the characters that structure a statement. *)
Lemma lowerHex_plain (c : ascii) :
  isLowerHex c = true ->
  c <> quote /\ c <> comma /\ c <> "("%char /\ c <> ")"%char /\ c <> semicolon.
Proof.
  intro H. repeat split; intro E; subst c; discriminate H.
Qed.

Lemma sqlEscape_plain (body : str) :
  Forall (fun c => c <> quote) body -> sqlEscape body = body.
Proof.
  induction 1 as [|c body Hc _ IH]; [reflexivity|].
  rewrite sqlEscape_cons, IH. apply ch_eqb_neq in Hc. rewrite Hc. reflexivity.
Qed.

Lemma token_is_literal (e : entropy) (p : nat) :
  fst (generateRandomQuotedString e p) = sqlLiteral (tokenDigits e p).
Proof.
  rewrite token_shape. unfold sqlLiteral. rewrite sqlEscape_plain; [reflexivity|].
  eapply Forall_impl; [|apply tokenDigits_lower].
  intros c Hc. apply (lowerHex_plain c Hc).
Qed.



Example token_zero :
  show (fst (generateRandomQuotedString zeroEntropy 0)) = "'0000000000000000'"%string.
Proof. reflexivity. Qed.

Example token_some :
  show (fst (generateRandomQuotedString someEntropy 0)) = "'0b30557a9fc4e90e'"%string.
Proof. reflexivity. Qed.

(** ** Replacing the fields of one tuple *)

Lemma setAt_length (xs : list str) (i : nat) (v : str) :
  List.length (setAt xs i v) = List.length xs.
Proof.
  revert i. induction xs as [|x xs IH]; intros [|i]; simpl; auto.
Qed.

Lemma setAt_other (xs : list str) (i j : nat) (v : str) :
  i <> j -> nth j (setAt xs i v) [] = nth j xs [].
Proof.
  revert i j. induction xs as [|x xs IH]; intros [|i] [|j] H; simpl; auto.
  - contradiction.
Qed.

Lemma setAt_same (xs : list str) (i : nat) (v : str) :
  i < List.length xs -> nth i (setAt xs i v) [] = v.
Proof.
  revert i. induction xs as [|x xs IH]; intros [|i] H; simpl in *;
    try lia; auto. apply IH. lia.
Qed.

Lemma keptOrToken_refl (e : entropy) (xs : list str) :
  Forall2 (keptOrToken e) xs xs.
Proof. induction xs; constructor; auto. left. reflexivity. Qed.

Lemma keptOrToken_setAt (e : entropy) (old xs : list str) (i p : nat) :
  Forall2 (keptOrToken e) old xs ->
  Forall2 (keptOrToken e) old (setAt xs i (fst (generateRandomQuotedString e p))).
Proof.
  intro H. revert i. induction H as [|a b old xs Hab Hrest IH]; intros [|i];
    simpl; constructor; auto.
  right. exists p. reflexivity.
Qed.

Lemma token_anonymizable (e : entropy) (p : nat) :
  Cli.anonymizable (fst (generateRandomQuotedString e p)) = true.
Proof. reflexivity. Qed.

Lemma quiet_refl (r : run) : quiet r r.
Proof. repeat split. Qed.

Lemma quiet_trans (a b c : run) : quiet a b -> quiet b c -> quiet a c.
Proof.
  unfold quiet. intros [H1 [H2 [H3 [H4 H5]]]] [K1 [K2 [K3 [K4 K5]]]].
  repeat split; congruence.
Qed.

Lemma quiet_setCursor (p : nat) (r : run) : quiet r (setCursor p r).
Proof. repeat split. Qed.

Lemma quiet_warn (d : diag) (r : run) : quiet r (warn d r).
Proof. repeat split. Qed.

Section CliFold.

Variable e : entropy.
Variable endLineNumber : nat.

Local Abbreviation step := (Cli.anonymizeIndex e endLineNumber).

Lemma cli_step_hit (values : list str) (b : bool) (r : run) (i : nat) :
  cliHit values i = true ->
  step (values, b, r) i =
  (setAt values i (fst (generateRandomQuotedString e (cursor r))), true,
   setCursor (snd (generateRandomQuotedString e (cursor r))) r).
Proof.
  unfold cliHit. intro H. apply andb_true_iff in H. destruct H as [H1 H2].
  unfold Cli.anonymizeIndex. rewrite H1, H2.
  destruct (generateRandomQuotedString e (cursor r)). reflexivity.
Qed.

Lemma cli_step_miss (values : list str) (b : bool) (r : run) (i : nat) :
  cliHit values i = false ->
  exists r', step (values, b, r) i = (values, b, r')
             /\ cursor r' = cursor r /\ quiet r r'.
Proof.
  unfold cliHit. intro H. unfold Cli.anonymizeIndex.
  destruct (i <? List.length values); simpl in H.
  - rewrite H. exists r. split; [reflexivity|]. split; [reflexivity|].
    apply quiet_refl.
  - eexists. split; [reflexivity|]. split; [reflexivity|]. apply quiet_warn.
Qed.

(** A replacement does not change which fields pass the safety check. *)
Lemma cli_hit_setAt (values : list str) (i j p : nat) :
  cliHit values i = true ->
  cliHit (setAt values i (fst (generateRandomQuotedString e p))) j = cliHit values j.
Proof.
  unfold cliHit. intro H. apply andb_true_iff in H. destruct H as [H1 H2].
  rewrite setAt_length. destruct (Nat.eq_dec i j) as [->|Hne].
  - apply Nat.ltb_lt in H1. rewrite setAt_same by exact H1.
    rewrite token_anonymizable, H2. reflexivity.
  - rewrite setAt_other by exact Hne. reflexivity.
Qed.

(** The [forEach] over the requested indices. *)
Lemma cli_fold_spec (cols : list nat) :
  forall values0 values b r,
    Forall2 (keptOrToken e) values0 values ->
    (forall j, cliHit values j = cliHit values0 j) ->
    (forall j, cliHit values0 j = false -> nth j values [] = nth j values0 []) ->
    exists values' r',
      fold_left step cols (values, b, r) =
        (values', b || existsb (cliHit values0) cols, r')
      /\ Forall2 (keptOrToken e) values0 values'
      /\ (forall j, cliHit values0 j = false -> nth j values' [] = nth j values0 [])
      /\ (forall j, ~ In j cols -> nth j values' [] = nth j values [])
      /\ (forall j, In j cols -> cliHit values0 j = true ->
            exists p, nth j values' [] = fst (generateRandomQuotedString e p))
      /\ quiet r r'.
Proof.
  induction cols as [|i cols IH]; intros values0 values b r HF Hhit Hkeep.
  - exists values, r. simpl. rewrite orb_false_r.
    split; [reflexivity|]. split; [exact HF|]. split; [exact Hkeep|].
    split; [reflexivity|]. split; [intros j []|apply quiet_refl].
  - cbn [fold_left existsb]. destruct (cliHit values0 i) eqn:Hi.
    + rewrite cli_step_hit by (rewrite Hhit; exact Hi).
      set (tok := fst (generateRandomQuotedString e (cursor r))).
      destruct (IH values0 (setAt values i tok) true
                  (setCursor (snd (generateRandomQuotedString e (cursor r))) r))
        as [values' [r' [E [HF' [Hk' [Hf' [Ht' Ho']]]]]]].
      * apply keptOrToken_setAt. exact HF.
      * intro j. unfold tok. rewrite cli_hit_setAt by (rewrite Hhit; exact Hi).
        apply Hhit.
      * intros j Hj. rewrite setAt_other; [apply Hkeep; exact Hj|].
        intro Eij. subst j. rewrite Hi in Hj. discriminate.
      * exists values', r'. rewrite E. rewrite orb_true_r. cbn [orb].
        split; [reflexivity|]. split; [exact HF'|]. split; [exact Hk'|].
        split; [|split].
        -- intros j Hj. rewrite Hf' by (intro Hin; apply Hj; right; exact Hin).
           apply setAt_other. intro Eij. apply Hj. left. exact Eij.
        -- intros j [Eij|Hin] Hj.
           ++ subst j. destruct (in_dec Nat.eq_dec i cols) as [Hin|Hnin].
              ** apply Ht'; assumption.
              ** rewrite Hf' by exact Hnin. exists (cursor r).
                 apply setAt_same. rewrite <- Hhit in Hi. unfold cliHit in Hi.
                 apply andb_true_iff in Hi. apply Nat.ltb_lt. apply Hi.
           ++ apply Ht'; assumption.
        -- eapply quiet_trans; [apply quiet_setCursor|exact Ho'].
    + destruct (cli_step_miss values b r i) as [r1 [E1 [Hc1 Ho1]]];
        [rewrite Hhit; exact Hi|].
      rewrite E1.
      destruct (IH values0 values b r1 HF Hhit Hkeep)
        as [values' [r' [E [HF' [Hk' [Hf' [Ht' Ho']]]]]]].
      exists values', r'. rewrite E. cbn [orb].
      split; [reflexivity|]. split; [exact HF'|]. split; [exact Hk'|].
      split; [|split].
      * intros j Hj. apply Hf'. intro Hin. apply Hj. right. exact Hin.
      * intros j [Eij|Hin] Hj; [subst j; congruence | apply Ht'; assumption].
      * eapply quiet_trans; [exact Ho1|exact Ho'].
Qed.

End CliFold.

Section StreamFold.

Variable e : entropy.

Local Abbreviation step := (CliStream.anonymizeIndex e).

Lemma stream_step_hit (values : list str) (b : bool) (r : run) (i : nat) :
  streamHit values i = true ->
  step (values, b, r) i =
  (setAt values i (fst (generateRandomQuotedString e (cursor r))), true,
   setCursor (snd (generateRandomQuotedString e (cursor r))) r).
Proof.
  unfold streamHit. intro H. unfold CliStream.anonymizeIndex. rewrite H.
  destruct (generateRandomQuotedString e (cursor r)). reflexivity.
Qed.

Lemma stream_step_miss (values : list str) (b : bool) (r : run) (i : nat) :
  streamHit values i = false -> step (values, b, r) i = (values, b, r).
Proof.
  unfold streamHit. intro H. unfold CliStream.anonymizeIndex. rewrite H. reflexivity.
Qed.

Lemma stream_fold_spec (cols : list nat) :
  forall values0 values b r,
    Forall2 (keptOrToken e) values0 values ->
    exists values' r',
      fold_left step cols (values, b, r) =
        (values', b || existsb (streamHit values0) cols, r')
      /\ Forall2 (keptOrToken e) values0 values'
      /\ (forall j, ~ In j cols -> nth j values' [] = nth j values [])
      /\ (forall j, In j cols -> streamHit values0 j = true ->
            exists p, nth j values' [] = fst (generateRandomQuotedString e p))
      /\ quiet r r'
      /\ diagnostics r' = diagnostics r.
Proof.
  induction cols as [|i cols IH]; intros values0 values b r HF.
  - exists values, r. simpl. rewrite orb_false_r.
    split; [reflexivity|]. split; [exact HF|]. split; [reflexivity|].
    split; [intros j []|]. split; [apply quiet_refl|reflexivity].
  - assert (Hlen : List.length values = List.length values0)
      by (symmetry; eapply Forall2_length; exact HF).
    cbn [fold_left existsb]. destruct (streamHit values0 i) eqn:Hi.
    + rewrite stream_step_hit by (unfold streamHit in *; rewrite Hlen; exact Hi).
      set (tok := fst (generateRandomQuotedString e (cursor r))).
      destruct (IH values0 (setAt values i tok) true
                  (setCursor (snd (generateRandomQuotedString e (cursor r))) r))
        as [values' [r' [E [HF' [Hf' [Ht' [Ho' Hd']]]]]]].
      * apply keptOrToken_setAt. exact HF.
      * exists values', r'. rewrite E. rewrite orb_true_r. cbn [orb].
        split; [reflexivity|]. split; [exact HF'|]. split; [|split; [|split]].
        -- intros j Hj. rewrite Hf' by (intro Hin; apply Hj; right; exact Hin).
           apply setAt_other. intro Eij. apply Hj. left. exact Eij.
        -- intros j [Eij|Hin] Hj.
           ++ subst j. destruct (in_dec Nat.eq_dec i cols) as [Hin|Hnin].
              ** apply Ht'; assumption.
              ** rewrite Hf' by exact Hnin. exists (cursor r).
                 apply setAt_same. unfold streamHit in Hi.
                 rewrite Hlen. apply Nat.ltb_lt. exact Hi.
           ++ apply Ht'; assumption.
        -- eapply quiet_trans; [apply quiet_setCursor|exact Ho'].
        -- exact Hd'.
    + rewrite stream_step_miss by (unfold streamHit in *; rewrite Hlen; exact Hi).
      destruct (IH values0 values b r HF)
        as [values' [r' [E [HF' [Hf' [Ht' [Ho' Hd']]]]]]].
      exists values', r'. rewrite E. cbn [orb].
      split; [reflexivity|]. split; [exact HF'|]. split; [|split; [|split]].
      * intros j Hj. apply Hf'. intro Hin. apply Hj. right. exact Hin.
      * intros j [Eij|Hin] Hj; [subst j; congruence | apply Ht'; assumption].
      * exact Ho'.
      * exact Hd'.
Qed.

End StreamFold.

(** ** One tuple *)

Lemma cli_processValueSet_narrow cols e line nvs om r m :
  tooNarrow cols (cliFields m) = true ->
  Cli.processValueSet cols e line (nvs, om, r) m =
  (nvs ++ [text m], om,
   warn (WarnBounds line (List.length (cliFields m)) (maxIndexOf cols)) r).
Proof.
  unfold tooNarrow, cliFields, Cli.processValueSet. intro H. rewrite H.
  reflexivity.
Qed.

Lemma stream_processValueSet_narrow cols e nvs om r m :
  tooNarrow cols (streamFields m) = true ->
  CliStream.processValueSet cols e (nvs, om, r) m =
  (nvs ++ [text m], om,
   warn (WarnBounds (processedStatements r) (List.length (streamFields m))
           (maxIndexOf cols)) r).
Proof.
  unfold tooNarrow, streamFields, CliStream.processValueSet. intro H. rewrite H.
  reflexivity.
Qed.

(** What the line-based program pushes for one tuple. *)
Lemma cli_processValueSet_spec cols e line nvs om r m :
  let values := cliFields m in
  let replaced :=
    negb (tooNarrow cols values) && existsb (cliHit values) cols in
  exists values' r',
    Cli.processValueSet cols e line (nvs, om, r) m =
      (nvs ++ [if replaced then L "( " ++ join (L ", ") values' ++ L " )"
               else text m],
       om || replaced, r')
    /\ Forall2 (keptOrToken e) values values'
    /\ (forall j, cliHit values j = false ->
          nth j values' [] = nth j values [])
    /\ (forall j, ~ In j cols -> nth j values' [] = nth j values [])
    /\ (forall j, tooNarrow cols values = false -> In j cols ->
          cliHit values j = true ->
          exists p, nth j values' [] = fst (generateRandomQuotedString e p))
    /\ quiet r r'.
Proof.
  intros values replaced. subst replaced.
  destruct (tooNarrow cols values) eqn:Hn.
  - exists values, (warn (WarnBounds line (List.length values) (maxIndexOf cols)) r).
    rewrite (cli_processValueSet_narrow cols e line nvs om r m Hn).
    cbn [negb andb]. rewrite orb_false_r.
    split; [reflexivity|]. split; [apply keptOrToken_refl|].
    split; [reflexivity|]. split; [reflexivity|].
    split; [discriminate|apply quiet_warn].
  - destruct (cli_fold_spec e line cols values values false r
                (keptOrToken_refl e values) (fun _ => eq_refl) (fun _ _ => eq_refl))
      as [values' [r' [E [HF [Hk [Hf [Ht Hq]]]]]]].
    exists values', r'.
    split.
    + unfold Cli.processValueSet. fold (cliFields m). fold values.
      fold (tooNarrow cols values). rewrite Hn, E. cbn [negb andb orb].
      destruct (existsb (cliHit values) cols).
      * rewrite orb_true_r. reflexivity.
      * rewrite orb_false_r. reflexivity.
    + split; [exact HF|]. split; [exact Hk|]. split; [exact Hf|].
      split; [intros j _; apply Ht | exact Hq].
Qed.

(** What the stream-based program pushes for one tuple. *)
Lemma stream_processValueSet_spec cols e nvs om r m :
  let values := streamFields m in
  let replaced :=
    negb (tooNarrow cols values) && existsb (streamHit values) cols in
  exists values' r',
    CliStream.processValueSet cols e (nvs, om, r) m =
      (nvs ++ [if replaced then L "(" ++ join (L ", ") values' ++ L ")"
               else text m],
       om || replaced, r')
    /\ Forall2 (keptOrToken e) values values'
    /\ (forall j, ~ In j cols -> nth j values' [] = nth j values [])
    /\ (forall j, tooNarrow cols values = false -> In j cols ->
          streamHit values j = true ->
          exists p, nth j values' [] = fst (generateRandomQuotedString e p))
    /\ quiet r r'.
Proof.
  intros values replaced. subst replaced.
  destruct (tooNarrow cols values) eqn:Hn.
  - exists values,
      (warn (WarnBounds (processedStatements r) (List.length values)
               (maxIndexOf cols)) r).
    rewrite (stream_processValueSet_narrow cols e nvs om r m Hn).
    cbn [negb andb]. rewrite orb_false_r.
    split; [reflexivity|]. split; [apply keptOrToken_refl|].
    split; [reflexivity|]. split; [discriminate|apply quiet_warn].
  - destruct (stream_fold_spec e cols values values false r
                (keptOrToken_refl e values))
      as [values' [r' [E [HF [Hf [Ht [Hq _]]]]]]].
    exists values', r'.
    split.
    + unfold CliStream.processValueSet. fold (streamFields m). fold values.
      fold (tooNarrow cols values). rewrite Hn, E. cbn [negb andb orb].
      destruct (existsb (streamHit values) cols).
      * rewrite orb_true_r. reflexivity.
      * rewrite orb_false_r. reflexivity.
    + split; [exact HF|]. split; [exact Hf|].
      split; [intros j _; apply Ht | exact Hq].
Qed.

(** The safety check of the line-based program: a field changes only if
    its index is requested and its text starts with a quote or is [NULL] in
    any case; a requested field within bounds that passes the check becomes
    a token. *)
Lemma cli_safety_predicate cols e line nvs om r m :
  exists fields nvs' om' r',
    Cli.processValueSet cols e line (nvs, om, r) m = (nvs', om', r')
    /\ Forall2 (keptOrToken e) (cliFields m) fields
    /\ (forall j, nth j fields [] <> nth j (cliFields m) [] ->
          In j cols /\ j < List.length (cliFields m)
          /\ Cli.anonymizable (nth j (cliFields m) []) = true)
    /\ (forall j, tooNarrow cols (cliFields m) = false -> In j cols ->
          Cli.anonymizable (nth j (cliFields m) []) = true ->
          exists p, nth j fields [] = fst (generateRandomQuotedString e p)).
Proof.
  destruct (cli_processValueSet_spec cols e line nvs om r m)
    as [fields [r' [E [HF [Hk [Hf [Ht _]]]]]]].
  exists fields. do 3 eexists. split; [exact E|]. split; [exact HF|]. split.
  - intros j Hne.
    destruct (in_dec Nat.eq_dec j cols) as [Hin|Hnin];
      [|exfalso; apply Hne, Hf, Hnin].
    destruct (cliHit (cliFields m) j) eqn:Hh;
      [|exfalso; apply Hne, Hk, Hh].
    unfold cliHit in Hh. apply andb_true_iff in Hh.
    destruct Hh as [H1 H2]. apply Nat.ltb_lt in H1. auto.
  - intros j Hn Hin Ha. apply Ht; try assumption.
    unfold cliHit. rewrite Ha, andb_true_r. apply Nat.ltb_lt.
    unfold tooNarrow in Hn. apply Z.leb_gt in Hn.
    assert (Hmax : (Z.of_nat j <= maxIndexOf cols)%Z).
    { clear - Hin. unfold maxIndexOf. destruct cols as [|c cs]; [destruct Hin|].
      apply inj_le.
      assert (G : forall cs a, a <= fold_left Nat.max cs a
                  /\ forall x, In x cs -> x <= fold_left Nat.max cs a).
      { clear. induction cs as [|y cs IH]; intro a; simpl.
        - split; [lia|intros x []].
        - destruct (IH (Nat.max a y)) as [H1 H2]. split; [lia|].
          intros x [->|Hx]; [lia|auto]. }
      destruct (G cs c) as [G1 G2]. destruct Hin as [->|Hin]; auto. }
    lia.
Qed.



(** ** One statement *)

Lemma cli_fold_quiet cols e line (ms : list found) :
  forall nvs om r nvs' om' r',
    fold_left (Cli.processValueSet cols e line) ms (nvs, om, r) = (nvs', om', r') ->
    quiet r r'.
Proof.
  induction ms as [|m ms IH]; intros nvs om r nvs' om' r' H.
  - injection H as _ _ <-. apply quiet_refl.
  - cbn [fold_left] in H.
    destruct (cli_processValueSet_spec cols e line nvs om r m)
      as [fields [r1 [E [_ [_ [_ [_ Hq]]]]]]].
    rewrite E in H. apply IH in H. eapply quiet_trans; eassumption.
Qed.

(** The line-based program writes a statement that is not a target, and a
    target statement of which it replaced no field, as it read it. *)
Lemma cli_nontarget_identical table cols e statement line r :
  search true (Cli.insertRegex table) statement = None ->
  output (Cli.processStatement table cols e statement line r)
  = output r ++ statement.
Proof. intro H. unfold Cli.processStatement. rewrite H. reflexivity. Qed.

Lemma cli_unmodified_identical table cols e statement line r :
  successfullyAnonymizedStatements
    (Cli.processStatement table cols e statement line r)
  = successfullyAnonymizedStatements r ->
  output (Cli.processStatement table cols e statement line r)
  = output r ++ statement.
Proof.
  unfold Cli.processStatement.
  destruct (search true (Cli.insertRegex table) statement); [|reflexivity].
  destruct (search true Cli.valuesRegex statement) as [vm|]; [|reflexivity].
  destruct (fold_left (Cli.processValueSet cols e line)
              (execAll false Cli.valueSetRegex
                 (substringFrom statement (index vm)))
              ([], false, countProcessed r)) as [[nvs om] r'] eqn:E.
  apply cli_fold_quiet in E. destruct E as [Ho [_ [Ha _]]].
  destruct om.
  - cbn. rewrite Ha. cbn. intro H. exfalso. lia.
  - intros _. cbn. rewrite Ho. reflexivity.
Qed.

(** The stream-based program writes a statement that is not a target with
    a line feed after it. *)
Lemma stream_nontarget_newline table cols e statement r :
  test true (CliStream.insertRegex table) statement = false ->
  output (CliStream.processStatement table cols e statement r)
  = output r ++ statement ++ [nl].
Proof. intro H. unfold CliStream.processStatement. rewrite H. reflexivity. Qed.

(** C1, the stream-based program at a bare number: the field [42] at the
    requested index 1 is replaced by a token; the line-based program
    leaves it ([cli_safety_predicate]). *)
Theorem C1_stream_replaces_bare_number :
  output (CliStream.processStatement (L "t") [1] zeroEntropy
            (L "INSERT INTO t VALUES (1, 42);") run0)
  = L "INSERT INTO t VALUES (1, '0000000000000000');" ++ [nl; nl].
Proof. vm_compute. reflexivity. Qed.

Example cli_keeps_bare_number :
  show (output (Cli.processStatement (L "t") [1; 2] zeroEntropy
                  (L "INSERT INTO t VALUES (1, null, 42);") 1 run0))
  = "INSERT INTO t VALUES ( 1, '0000000000000000', 42 );"%string.
Proof. vm_compute. reflexivity. Qed.

(** C2, the stream-based program at a statement for another table: the
    text written is the statement and a line feed, not the statement
    alone; the line-based program writes the statement alone
    ([cli_nontarget_identical], [cli_unmodified_identical]). *)
Theorem C2_stream_appends_line_feed :
  let statement := L "INSERT INTO other_table VALUES (1,'a');" in
  let written :=
    output (CliStream.processStatement (L "t") [1] zeroEntropy statement run0) in
  written = statement ++ [nl] /\ written <> statement.
Proof. split; [vm_compute; reflexivity | vm_compute; discriminate]. Qed.

Example cli_writes_other_table_as_read :
  let statement := L "INSERT INTO other_table VALUES (1,'a');" in
  output (Cli.processStatement (L "t") [1] zeroEntropy statement 1 run0)
  = statement.
Proof. vm_compute. reflexivity. Qed.

(** C4, the line-based program at table [users] with target [user]: the
    pattern matches, the statement counts as a target and its field is
    replaced ([cli_matches_longer_names] has it for every longer name);
    the pattern of the stream-based program rejects it
    ([stream_target_exact]). *)
Theorem C4_cli_matches_longer_table_name :
  let statement := L "INSERT INTO users VALUES (1,'a');" in
  test true (Cli.insertRegex (L "user")) statement = true
  /\ show (output (Cli.processStatement (L "user") [1] zeroEntropy statement 1 run0))
     = "INSERT INTO users VALUES ( 1, '0000000000000000' );"%string
  /\ test true (CliStream.insertRegex (L "user")) statement = false.
Proof. repeat split; vm_compute; reflexivity. Qed.

Example scenario_A :
  show (output (Cli.processStatement (L "users") [1; 2] someEntropy
          (L "INSERT INTO users VALUES (1, 'alice@example.com', 'secret');")
          1 run0))
  = "INSERT INTO users VALUES ( 1, '0b30557a9fc4e90e', '33587da2c7ec1136' );"%string.
Proof. vm_compute. reflexivity. Qed.

Example scenario_B :
  show (output (Cli.processStatement (L "t") [1] someEntropy
          (L "INSERT INTO t VALUES (1,'a'),(2,'b');") 1 run0))
  = "INSERT INTO t VALUES ( 1, '0b30557a9fc4e90e' ),( 2, '33587da2c7ec1136' );"%string.
Proof. vm_compute. reflexivity. Qed.

Example scenario_bounds :
  let r := Cli.processStatement (L "t") [5] zeroEntropy
             (L "INSERT INTO t VALUES (1,'a','b'),(1,2,3,4,5,'x');") 7 run0 in
  show (output r)
  = "INSERT INTO t VALUES (1,'a','b'),( 1, 2, 3, 4, 5, '0000000000000000' );"%string
  /\ diagnostics r = [WarnBounds 7 3 5].
Proof. split; vm_compute; reflexivity. Qed.

Example scenario_bounds_stream :
  let r := CliStream.processStatement (L "t") [5] zeroEntropy
             (L "INSERT INTO t VALUES (1,'a','b'),(1,2,3,4,5,'x');") run0 in
  output r
  = L "INSERT INTO t VALUES (1,'a','b')," ++ [nl; tab]
    ++ L "(1, 2, 3, 4, 5, '0000000000000000');" ++ [nl; nl]
  /\ diagnostics r = [WarnBounds 1 3 5].
Proof. split; vm_compute; reflexivity. Qed.

Example threeFieldTuple_found :
  nth 0 (execAll false Cli.valueSetRegex
           (L " VALUES (1,'a','b'),(1,2,3,4,5,'x');")) (Found 0 [] [] 0 [])
  = threeFieldTuple.
Proof. vm_compute. reflexivity. Qed.

Example obrienTuple_found :
  execAll false Cli.valueSetRegex (L " VALUES ('x', 'O''Brien');")
  = [obrienTuple].
Proof. vm_compute. reflexivity. Qed.

Example obrien_statement :
  show (output (Cli.processStatement (L "t") [0] zeroEntropy
          (L "INSERT INTO t VALUES ('x', 'O''Brien');") 1 run0))
  = "INSERT INTO t VALUES ( '0000000000000000', 'O''Brien' );"%string.
Proof. vm_compute. reflexivity. Qed.

(** ** The stream drivers *)

Lemma indexOfChar_some (s : str) (c : ascii) (i : nat) :
  indexOfChar s c = Some i ->
  exists b rest, s = b ++ c :: rest /\ ~ In c b /\ List.length b = i.
Proof.
  revert i. induction s as [|x s IH]; intros i H; [discriminate H|].
  simpl in H. destruct (ch_eqb x c) eqn:E.
  - injection H as <-. apply ch_eqb_eq in E. subst x.
    exists [], s. repeat split. intros [].
  - destruct (indexOfChar s c) as [k|]; [|discriminate H].
    injection H as <-. destruct (IH k eq_refl) as [b [rest [Hs [Hb Hl]]]].
    exists (x :: b), rest. rewrite Hs. split; [reflexivity|].
    split; [|simpl; congruence].
    intros [Hx|Hin]; [|exact (Hb Hin)].
    apply ch_eqb_neq in E. exact (E Hx).
Qed.

Lemma indexOfChar_none_inv (s : str) (c : ascii) :
  indexOfChar s c = None -> ~ In c s.
Proof.
  induction s as [|x s IH]; intros H; [intros []|].
  simpl in H. destruct (ch_eqb x c) eqn:E; [discriminate H|].
  destruct (indexOfChar s c); [discriminate H|].
  intros [Hx|Hin]; [|exact (IH eq_refl Hin)].
  apply ch_eqb_neq in E. exact (E Hx).
Qed.

Lemma firstn_length_app (a b : str) : firstn (List.length a) (a ++ b) = a.
Proof. induction a as [|x a IH]; simpl; [destruct b|rewrite IH]; reflexivity. Qed.

Lemma skipn_length_app (a b : str) : skipn (List.length a) (a ++ b) = b.
Proof. induction a as [|x a IH]; simpl; auto. Qed.

Lemma length_snoc (b : str) (c : ascii) :
  List.length b + 1 = List.length (b ++ [c]).
Proof. rewrite length_app. reflexivity. Qed.

Section StreamDriver.

Variable A : Type.
Variable handle : str -> A -> A.

Local Abbreviation handleAll :=
  (fold_left (fun a statement => handle statement a)).

(** The [while] loop cuts the buffer at every semicolon. *)
Lemma drain_spec (n : nat) :
  forall buffer a, List.length buffer <= n ->
    exists stmts rest,
      CliStream.drain A handle n buffer a = (rest, handleAll stmts a)
      /\ buffer = List.concat stmts ++ rest
      /\ Forall endsAtOnlySemicolon stmts
      /\ ~ In semicolon rest.
Proof.
  induction n as [|n IH]; intros buffer a Hlen.
  - destruct buffer; [|simpl in Hlen; lia].
    exists [], []. repeat split; auto.
  - cbn [CliStream.drain].
    destruct (indexOfChar buffer semicolon) as [i|] eqn:E.
    + destruct (indexOfChar_some _ _ _ E) as [b [rest [Hs [Hb Hl]]]].
      assert (E1 : substring buffer 0 (i + 1) = b ++ [semicolon]).
      { unfold substring. rewrite Nat.sub_0_r. cbn [skipn].
        rewrite Hs, <- Hl.
        change (b ++ semicolon :: rest) with (b ++ [semicolon] ++ rest).
        rewrite app_assoc, (length_snoc b semicolon).
        apply firstn_length_app. }
      assert (E2 : substringFrom buffer (i + 1) = rest).
      { unfold substringFrom. rewrite Hs, <- Hl.
        change (b ++ semicolon :: rest) with (b ++ [semicolon] ++ rest).
        rewrite app_assoc, (length_snoc b semicolon).
        apply skipn_length_app. }
      rewrite E1, E2.
      destruct (IH rest (handle (b ++ [semicolon]) a))
        as [stmts [rest' [Hd [Hc [Hf Hr]]]]].
      { rewrite Hs, length_app in Hlen. simpl in Hlen. lia. }
      exists ((b ++ [semicolon]) :: stmts), rest'.
      split; [exact Hd|]. split.
      * rewrite Hs. cbn [List.concat]. rewrite <- !app_assoc. simpl.
        rewrite Hc. reflexivity.
      * split; [|exact Hr]. constructor; [|exact Hf]. exists b. auto.
    + exists [], buffer. repeat split; auto.
      apply indexOfChar_none_inv. exact E.
Qed.

Lemma onData_spec (chunks : list str) :
  forall buffer a,
    exists stmts rest,
      fold_left (CliStream.onData A handle) chunks (buffer, a)
        = (rest, handleAll stmts a)
      /\ buffer ++ List.concat chunks = List.concat stmts ++ rest
      /\ Forall endsAtOnlySemicolon stmts
      /\ (~ In semicolon buffer -> ~ In semicolon rest).
Proof.
  induction chunks as [|chunk chunks IH]; intros buffer a.
  - exists [], buffer. simpl. rewrite app_nil_r. repeat split; auto.
  - cbn [fold_left]. unfold CliStream.onData at 2. cbn [fst snd].
    destruct (drain_spec (List.length (buffer ++ chunk)) (buffer ++ chunk) a
                (le_n _)) as [s1 [r1 [Hd [Hc [Hf Hr]]]]].
    rewrite Hd.
    destruct (IH r1 (handleAll s1 a)) as [s2 [r2 [Hd2 [Hc2 [Hf2 Hr2]]]]].
    exists (s1 ++ s2), r2. split.
    + rewrite Hd2, fold_left_app. reflexivity.
    + split.
      * cbn [List.concat]. rewrite app_assoc, Hc, <- app_assoc, Hc2.
        rewrite concat_app, <- app_assoc. reflexivity.
      * split; [apply Forall_app; auto|]. intros _. apply Hr2. exact Hr.
Qed.

End StreamDriver.

Lemma collect_all (stmts acc : list str) :
  fold_left (fun a statement => a ++ [statement]) stmts acc = acc ++ stmts.
Proof.
  revert acc. induction stmts as [|s stmts IH]; intro acc; simpl.
  - symmetry. apply app_nil_r.
  - rewrite IH, <- app_assoc. reflexivity.
Qed.

(** The stream-based program hands over the input cut at every
    semicolon, and what is left after the last one if it is not blank. *)
Lemma stream_statements_spec (chunks : list str) :
  exists stmts rest,
    CliStream.statements chunks
      = stmts ++ (if truthy (trim rest) then [rest] else [])
    /\ List.concat chunks = List.concat stmts ++ rest
    /\ Forall endsAtOnlySemicolon stmts
    /\ ~ In semicolon rest.
Proof.
  destruct (onData_spec (list str) (fun statement acc => acc ++ [statement])
              chunks [] []) as [stmts [rest [Hd [Hc [Hf Hr]]]]].
  exists stmts, rest. split.
  - unfold CliStream.statements, CliStream.drive. unfold str in *. rewrite Hd.
    unfold CliStream.onEnd. cbn [fst snd]. rewrite collect_all.
    destruct (truthy (trim rest)); [reflexivity|].
    simpl. rewrite app_nil_r. reflexivity.
  - split; [exact Hc|]. split; [exact Hf|]. apply Hr. intros [].
Qed.

Lemma split_nonempty (s : str) (c : ascii) : split s c <> [].
Proof.
  destruct s as [|x s]; simpl; [discriminate|].
  destruct (ch_eqb x c); [discriminate|].
  destruct (split s c); discriminate.
Qed.

Lemma split_no_separator (s : str) (c : ascii) :
  Forall (fun p => ~ In c p) (split s c).
Proof.
  induction s as [|x s IH]; simpl.
  - constructor; [intros []|constructor].
  - destruct (ch_eqb x c) eqn:E.
    + constructor; [intros []|exact IH].
    + apply ch_eqb_neq in E. destruct (split s c) as [|p ps].
      * constructor; [|constructor]. intros [H|[]]. exact (E H).
      * inversion IH as [|? ? Hp Hps]; subst. constructor; [|exact Hps].
        intros [H|H]; [exact (E H) | exact (Hp H)].
Qed.

(** The parts with the separator put back after each but the last are
    the text again. *)
Lemma split_concat (s : str) (c : ascii) :
  List.concat (map (fun p => p ++ [c]) (removelast (split s c)))
    ++ last (split s c) [] = s.
Proof.
  induction s as [|x s IH]; [reflexivity|]. cbn [split].
  pose proof (split_nonempty s c) as Hne.
  destruct (ch_eqb x c) eqn:E.
  - apply ch_eqb_eq in E. subst x.
    destruct (split s c) as [|p ps]; [contradiction|].
    change (removelast ([] :: p :: ps)) with ([] :: removelast (p :: ps)).
    change (last ([] :: p :: ps) []) with (last (p :: ps) []).
    cbn [map List.concat app]. rewrite IH. reflexivity.
  - destruct (split s c) as [|p ps]; [contradiction|].
    destruct ps as [|q ps].
    + simpl in *. rewrite IH. reflexivity.
    + change (removelast ((x :: p) :: q :: ps))
        with ((x :: p) :: removelast (q :: ps)).
      change (last ((x :: p) :: q :: ps) []) with (last (q :: ps) []).
      change (removelast (p :: q :: ps)) with (p :: removelast (q :: ps)) in IH.
      change (last (p :: q :: ps) []) with (last (q :: ps) []) in IH.
      cbn [map List.concat app] in *. f_equal. exact IH.
Qed.

Lemma trimStart_snoc (p : str) (c : ascii) :
  isWhiteSpace c = false -> exists u, trimStart (p ++ [c]) = u ++ [c].
Proof.
  intro H. induction p as [|x p [u IH]].
  - exists []. simpl. rewrite H. reflexivity.
  - cbn [app trimStart]. destruct (isWhiteSpace x).
    + exists u. exact IH.
    + exists (x :: p). reflexivity.
Qed.

(** A text that ends with a character that is no white space is not
    blank. *)
Lemma trim_snoc_truthy (p : str) (c : ascii) :
  isWhiteSpace c = false -> truthy (trim (p ++ [c])) = true.
Proof.
  intro H. unfold trim. destruct (trimStart_snoc p c H) as [u ->].
  unfold trimEnd. rewrite rev_app_distr. cbn [rev app].
  rewrite (trimStart_head _ _ H).
  change (c :: rev u) with ([c] ++ rev u).
  rewrite rev_app_distr, rev_involutive. destruct u; reflexivity.
Qed.

Section LineDriver.

Variable A : Type.
Variable handle : str -> nat -> A -> A.
Variable onWarn : diag -> A -> A.

(** The three cases of the ['line'] handler. *)
Lemma onLine_cases (buffer : str) (n : nat) (a : A) (line : str) :
  let d := Cli.Driver A buffer n a in
  let buffer' := buffer ++ line ++ [nl] in
  (endsWith (trimEnd line) (L ";") = false ->
     Cli.onLine A handle d line = Cli.Driver A buffer' (S n) a)
  /\ (endsWith (trimEnd line) (L ";") = true ->
      Cli.sameIndex (indexOfChar line semicolon)
                    (lastIndexOfChar line semicolon) = true ->
      Cli.onLine A handle d line
      = Cli.Driver A [] (S n) (handle buffer' (S n) a))
  /\ (endsWith (trimEnd line) (L ";") = true ->
      Cli.sameIndex (indexOfChar line semicolon)
                    (lastIndexOfChar line semicolon) = false ->
      exists stmts,
        Cli.onLine A handle d line
        = Cli.Driver A [] (S n)
            (fold_left (fun a statement => handle statement (S n) a) stmts a)
        /\ Forall endsAtOnlySemicolon stmts
        /\ buffer' = List.concat stmts ++ last (split buffer' semicolon) []).
Proof.
  intros d buffer'. unfold Cli.onLine. subst d. cbn [Cli.currentStatementBuffer
    Cli.lineNumber Cli.state]. fold buffer'.
  split; [intro H; rewrite H; reflexivity|].
  split; [intros H1 H2; rewrite H1, H2; reflexivity|].
  intros H1 H2. rewrite H1, H2. cbn [negb].
  exists (map (fun p => p ++ [semicolon]) (removelast (split buffer' semicolon))).
  split; [|split].
  - f_equal. generalize (removelast (split buffer' semicolon)). intro ps.
    revert a. induction ps as [|p ps IH]; intro a; [reflexivity|].
    cbn [fold_left map]. change (L ";") with [semicolon].
    rewrite trim_snoc_truthy by reflexivity. apply IH.
  - pose proof (split_no_separator buffer' semicolon) as Hall.
    assert (Hrl : forall ps : list str,
              Forall (fun p => ~ In semicolon p) ps ->
              Forall (fun p => ~ In semicolon p) (removelast ps)).
    { induction 1 as [|p ps Hp Hps IH]; [constructor|].
      destruct ps; [constructor|]. constructor; assumption. }
    apply Hrl in Hall. induction Hall as [|p ps Hp _ IH]; [constructor|].
    constructor; [|exact IH]. exists p. auto.
  - symmetry. apply split_concat.
Qed.

End LineDriver.

(** C7, as the claim states it, fails in both programs: the statement
    with a semicolon inside its quoted string is handed over in two
    pieces, cut at the quoted semicolon. *)
Lemma C7_quoted_semicolon_splits :
  let piece1 := L "INSERT INTO t VALUES (1,'a;" in
  let piece2 := L "b');" in
  Cli.statements [L "INSERT INTO t VALUES (1,'a;b');"] = [piece1; piece2]
  /\ CliStream.statements [L "INSERT INTO t VALUES (1,'a;b');"] = [piece1; piece2].
Proof. split; vm_compute; reflexivity. Qed.

(** C7 (amended): statement boundaries are determined by semicolons
    whether or not they are inside a quoted string.  The stream-based
    program cuts the input at every semicolon: each statement it hands
    over before the end of the input ends with its only semicolon, and what
    is left has none.  The line-based program hands over what it has
    buffered when a line ends with a semicolon (trailing white space
    apart): whole when that line holds one semicolon, cut at every
    semicolon of the buffer when it holds more; a line that does not end
    with a semicolon is only buffered. *)
Theorem C7_boundaries_at_semicolons :
  (forall chunks, exists stmts rest,
     CliStream.statements chunks
       = stmts ++ (if truthy (trim rest) then [rest] else [])
     /\ List.concat chunks = List.concat stmts ++ rest
     /\ Forall endsAtOnlySemicolon stmts
     /\ ~ In semicolon rest)
  /\ (forall (buffer : str) (n : nat) (delivered : list str) (line : str),
      let collect := fun (statement : str) (_ : nat) (acc : list str) =>
                       acc ++ [statement] in
      let d := Cli.Driver (list str) buffer n delivered in
      let buffer' := buffer ++ line ++ [nl] in
      (endsWith (trimEnd line) (L ";") = false ->
         Cli.onLine (list str) collect d line
         = Cli.Driver (list str) buffer' (S n) delivered)
      /\ (endsWith (trimEnd line) (L ";") = true ->
          Cli.sameIndex (indexOfChar line semicolon)
                        (lastIndexOfChar line semicolon) = true ->
          Cli.onLine (list str) collect d line
          = Cli.Driver (list str) [] (S n) (delivered ++ [buffer']))
      /\ (endsWith (trimEnd line) (L ";") = true ->
          Cli.sameIndex (indexOfChar line semicolon)
                        (lastIndexOfChar line semicolon) = false ->
          exists stmts,
            Cli.onLine (list str) collect d line
            = Cli.Driver (list str) [] (S n) (delivered ++ stmts)
            /\ Forall endsAtOnlySemicolon stmts
            /\ buffer' = List.concat stmts ++ last (split buffer' semicolon) [])).
Proof.
  split; [exact stream_statements_spec|].
  intros buffer n delivered line collect d buffer'.
  destruct (onLine_cases (list str) collect buffer n delivered line)
    as [H1 [H2 H3]].
  split; [exact H1|]. split; [exact H2|].
  intros Ha Hb. destruct (H3 Ha Hb) as [stmts [E [Hf Hc]]].
  exists stmts. split; [|split; assumption].
  fold d in E. rewrite E. f_equal. unfold collect. apply collect_all.
Qed.

Lemma C7_boundaries_at_semicolons_witness :
  Cli.onLine (list str) (fun statement _ acc => acc ++ [statement])
    (Cli.Driver (list str) (L "INSERT INTO t VALUES (1,'a;b')," ++ [nl]) 1 [])
    (L "(2,'c');")
  = Cli.Driver (list str) [] 2
      ([] ++ [(L "INSERT INTO t VALUES (1,'a;b')," ++ [nl])
                ++ L "(2,'c');" ++ [nl]])
  /\ Cli.onLine (list str) (fun statement _ acc => acc ++ [statement])
       (Cli.Driver (list str) [] 0 []) (L "INSERT INTO t")
     = Cli.Driver (list str) ([] ++ L "INSERT INTO t" ++ [nl]) 1 []
  /\ exists stmts,
       Cli.onLine (list str) (fun statement _ acc => acc ++ [statement])
         (Cli.Driver (list str) [] 0 []) (L "SELECT ';'; SELECT 2;")
       = Cli.Driver (list str) [] 1 ([] ++ stmts)
       /\ Forall endsAtOnlySemicolon stmts
       /\ [] ++ L "SELECT ';'; SELECT 2;" ++ [nl]
          = List.concat stmts
            ++ last (split ([] ++ L "SELECT ';'; SELECT 2;" ++ [nl]) semicolon) [].
Proof.
  destruct C7_boundaries_at_semicolons as [_ Hline].
  split; [|split].
  - apply (proj1 (proj2 (Hline (L "INSERT INTO t VALUES (1,'a;b')," ++ [nl]) 1 []
                           (L "(2,'c');")))); reflexivity.
  - apply (proj1 (Hline [] 0 [] (L "INSERT INTO t"))). reflexivity.
  - apply (proj2 (proj2 (Hline [] 0 [] (L "SELECT ';'; SELECT 2;"))));
      reflexivity.
Defined.

Example cli_statement_over_two_lines :
  Cli.statements [L "INSERT INTO t VALUES (1,'a;b'),"; L "(2,'c');"]
  = [L "INSERT INTO t VALUES (1,'a;b')," ++ [nl] ++ L "(2,'c');" ++ [nl]].
Proof. vm_compute. reflexivity. Qed.

(** ** The matcher and the matches of a pattern *)

Lemma orElse_some a b x :
  orElse a b = Some x -> a = Some x \/ (a = None /\ b tt = Some x).
Proof. destruct a; simpl; auto. Qed.

Lemma orElse_none a b : orElse a b = None -> a = None /\ b tt = None.
Proof. destruct a; simpl; auto. discriminate. Qed.

(** A match consumes a word of the pattern from the front of the text. *)
Lemma matches_lang ic r st st' :
  matches ic r st st' ->
  exists w, rest st = w ++ rest st' /\ pos st' = pos st + List.length w
            /\ lang ic r w.
Proof.
  induction 1 as
    [ st | c x s' st Hr Hc | negated items x s' st Hr Hc
    | r1 r2 st st1 st2 _ [u [Hu1 [Hu2 Hu3]]] _ [v [Hv1 [Hv2 Hv3]]]
    | r1 r2 st st' _ [w [H1 [H2 H3]]] | r1 r2 st st' _ [w [H1 [H2 H3]]]
    | greedy r st
    | greedy r st st1 st2 _ [u [Hu1 [Hu2 Hu3]]] Hne _ [v [Hv1 [Hv2 Hv3]]]
    | n r st st1 _ [w [H1 [H2 H3]]] | st Hp ].
  - exists []. simpl. auto.
  - exists [x]. simpl. rewrite Hr. repeat split; [lia|]. exists x. auto.
  - exists [x]. simpl. rewrite Hr. repeat split; [lia|]. exists x. auto.
  - exists (u ++ v). rewrite Hu1, Hv1, <- app_assoc. split; [reflexivity|].
    split; [rewrite length_app; lia|]. simpl. exists u, v. auto.
  - exists w. simpl. auto.
  - exists w. simpl. auto.
  - exists []. simpl. repeat split; [lia|]. exists []. split; [reflexivity|constructor].
  - exists (u ++ v). rewrite Hu1, Hv1, <- app_assoc. split; [reflexivity|].
    split; [rewrite length_app; lia|]. simpl in *.
    destruct Hv3 as [ws [Hws Hall]]. exists (u :: ws). split.
    + simpl. rewrite Hws. reflexivity.
    + constructor; assumption.
  - exists w. simpl. auto.
  - exists []. simpl. repeat split; lia.
Qed.

(** What the matcher finds is a match. *)
Lemma rmatch_sound ic r :
  forall st k x, rmatch ic r st k = Some x ->
    exists st', matches ic r st st' /\ k st' = Some x.
Proof.
  induction r as [ | c | negated items | r1 IH1 r2 IH2 | r1 IH1 r2 IH2
                 | greedy r1 IH1 | n r1 IH1 | ]; intros st k x H; simpl in H.
  - exists st. split; [constructor|exact H].
  - destruct (rest st) as [|y s'] eqn:E; [discriminate|].
    destruct (chr_match ic c y) eqn:Ec; [|discriminate].
    exists (step1 st s'). split; [econstructor; eassumption|exact H].
  - destruct (rest st) as [|y s'] eqn:E; [discriminate|].
    destruct (cls_match ic negated items y) eqn:Ec; [|discriminate].
    exists (step1 st s'). split; [econstructor; eassumption|exact H].
  - apply IH1 in H. destruct H as [st1 [M1 H]].
    apply IH2 in H. destruct H as [st2 [M2 H]].
    exists st2. split; [econstructor; eassumption|exact H].
  - apply orElse_some in H. destruct H as [H|[_ H]].
    + apply IH1 in H. destruct H as [st' [M H]].
      exists st'. split; [apply M_AltL; exact M|exact H].
    + apply IH2 in H. destruct H as [st' [M H]].
      exists st'. split; [apply M_AltR; exact M|exact H].
  - remember (List.length (rest st)) as n eqn:En. clear En. revert st H.
    induction n as [|n IHn]; intros st H; cbn [starLoop] in H.
    + exists st. split; [constructor|exact H].
    + assert (Again :
        rmatch ic r1 st
          (fun st1 => if pos st1 =? pos st then None
                      else starLoop (rmatch ic r1) greedy n st1 k) = Some x ->
        exists st', matches ic (Star greedy r1) st st' /\ k st' = Some x).
      { intro Ha. apply IH1 in Ha. destruct Ha as [st1 [M1 Ha]].
        destruct (pos st1 =? pos st) eqn:Ep; [discriminate|].
        apply Nat.eqb_neq in Ep. apply IHn in Ha. destruct Ha as [st' [M Ha]].
        exists st'. split; [eapply M_StarS; eassumption|exact Ha]. }
      destruct greedy; apply orElse_some in H; destruct H as [H|[_ H]].
      * apply Again. exact H.
      * exists st. split; [constructor|exact H].
      * exists st. split; [constructor|exact H].
      * apply Again. exact H.
  - apply IH1 in H. destruct H as [st1 [M1 H]].
    eexists. split; [apply M_Group; exact M1|exact H].
  - destruct (pos st =? 0) eqn:E; [|discriminate].
    apply Nat.eqb_eq in E. exists st. split; [constructor; exact E|exact H].
Qed.

(** When the matcher fails, the continuation fails at every match. *)
Lemma rmatch_complete ic r :
  forall st k, rmatch ic r st k = None ->
    forall st', matches ic r st st' -> k st' = None.
Proof.
  induction r as [ | c | negated items | r1 IH1 r2 IH2 | r1 IH1 r2 IH2
                 | greedy r1 IH1 | n r1 IH1 | ]; intros st k H st' M; simpl in H.
  - inversion M; subst. exact H.
  - inversion M as [ | ? x s' ? Hr Hc | | | | | | | | ]; subst.
    rewrite Hr, Hc in H. exact H.
  - inversion M as [ | | ? ? x s' ? Hr Hc | | | | | | | ]; subst.
    rewrite Hr, Hc in H. exact H.
  - inversion M as [ | | | ? ? ? st1 ? M1 M2 | | | | | | ]; subst.
    apply (IH2 st1 k); [|exact M2].
    apply (IH1 st _ H st1 M1).
  - apply orElse_none in H. destruct H as [Ha Hb].
    inversion M; subst; [eapply IH1 | eapply IH2]; eassumption.
  - assert (G : forall n st, List.length (rest st) <= n ->
                starLoop (rmatch ic r1) greedy n st k = None ->
                forall st', matches ic (Star greedy r1) st st' -> k st' = None).
    { clear st H st' M. induction n as [|n IHn]; intros st Hlen H st' M;
        cbn [starLoop] in H.
      - inversion M as [ | | | | | | | ? ? ? st1 ? M1 Hne M2 | | ]; subst;
          [exact H|].
        apply matches_lang in M1. destruct M1 as [w [Hw1 [Hw2 _]]].
        destruct (rest st); [|simpl in Hlen; lia].
        destruct w; [|discriminate Hw1]. simpl in Hw2. lia.
      - assert (Hboth :
          rmatch ic r1 st
            (fun st1 => if pos st1 =? pos st then None
                        else starLoop (rmatch ic r1) greedy n st1 k) = None
          /\ k st = None).
        { destruct greedy; apply orElse_none in H; tauto. }
        destruct Hboth as [Ha Hk].
        inversion M as [ | | | | | | | ? ? ? st1 ? M1 Hne M2 | | ]; subst;
          [exact Hk|].
        pose proof (IH1 st _ Ha st1 M1) as H1. cbv beta in H1.
        apply Nat.eqb_neq in Hne. rewrite Hne in H1.
        apply (IHn st1); [|exact H1|exact M2].
        apply matches_lang in M1. destruct M1 as [w [Hw1 [Hw2 _]]].
        apply Nat.eqb_neq in Hne.
        rewrite Hw1, length_app in Hlen.
        destruct w; [simpl in Hw2; lia|simpl in Hlen; lia]. }
    apply (G (List.length (rest st)) st (le_n _) H st' M).
  - inversion M as [ | | | | | | | | ? ? ? st1 M1 | ]; subst.
    apply (IH1 st _ H st1 M1).
  - inversion M; subst. rewrite (proj2 (Nat.eqb_eq _ _) H0) in H. exact H.
Qed.

(** ** The tuple extractor *)

Lemma isParen_cases (x : ascii) :
  isParen x = true -> x = lparen \/ x = rparen.
Proof.
  unfold isParen. intro H. apply orb_true_iff in H.
  destruct H as [H|H]; apply ch_eqb_eq in H; auto.
Qed.

Lemma notParen_match (x : ascii) :
  cls_match false true [CChar lparen; CChar rparen] x = negb (isParen x).
Proof.
  unfold cls_match, isParen, existsb, item_match, chr_match, ch_eqb,
    lparen, rparen.
  rewrite orb_false_r.
  rewrite (Ascii.eqb_sym "("%char x), (Ascii.eqb_sym ")"%char x).
  destruct (Ascii.eqb x "("%char), (Ascii.eqb x ")"%char); reflexivity.
Qed.

Lemma space_not_paren (x : ascii) : isWhiteSpace x = true -> isParen x = false.
Proof.
  intro H. destruct (isParen x) eqn:E; [|reflexivity].
  apply isParen_cases in E. destruct E; subst x; discriminate H.
Qed.

Lemma noParen_flat (u : str) : noParen u -> flat u.
Proof. induction 1; constructor; assumption. Qed.

Lemma flat_app (u v : str) : flat u -> flat v -> flat (u ++ v).
Proof.
  intros Hu Hv. induction Hu as [|x w Hx _ IH|b w Hb _ IH].
  - exact Hv.
  - simpl. constructor; assumption.
  - change ((lparen :: b ++ rparen :: w) ++ v)
      with (lparen :: (b ++ rparen :: w) ++ v).
    rewrite <- app_assoc. simpl. constructor; assumption.
Qed.

(** The words of [c], of a class under a star. *)
Lemma lang_chr (c : ascii) (w : str) : lang false (Chr c) w -> w = [c].
Proof.
  intros [x [-> H]]. unfold chr_match in H. apply ch_eqb_eq in H. congruence.
Qed.

Lemma lang_star_cls greedy negated items (w : str) :
  lang false (Star greedy (Cls negated items)) w ->
  Forall (fun x => cls_match false negated items x = true) w.
Proof.
  intros [ws [-> Hall]]. induction Hall as [|u ws [x [-> Hx]] _ IH]; simpl.
  - constructor.
  - constructor; assumption.
Qed.

Lemma lang_star_notParen greedy (w : str) :
  lang false (Star greedy notParen) w -> noParen w.
Proof.
  intro H. apply lang_star_cls in H. unfold noParen.
  eapply Forall_impl; [|exact H]. intros x Hx. cbv beta in Hx.
  rewrite notParen_match in Hx. destruct (isParen x); [discriminate|reflexivity].
Qed.

Lemma lang_star_ws greedy (w : str) :
  lang false (Star greedy ws) w -> noParen w.
Proof.
  intro H. apply lang_star_cls in H. unfold noParen.
  eapply Forall_impl; [|exact H]. intros x Hx. cbv beta in Hx.
  apply space_not_paren. unfold cls_match in Hx. simpl in Hx.
  rewrite orb_false_r in Hx. exact Hx.
Qed.

Lemma lang_group g1 g2 (w : str) :
  lang false (groupRegex g1 g2) w ->
  exists b c, noParen b /\ noParen c /\ w = lparen :: b ++ rparen :: c.
Proof.
  intros [u1 [v1 [-> [H1 [u2 [v2 [-> [H2 [u3 [v3 [-> [H3
          [u4 [v4 [-> [H4 ->]]]]]]]]]]]]]]]].
  apply lang_chr in H1, H3. subst u1 u3.
  apply lang_star_notParen in H2, H4.
  exists u2, u4. rewrite app_nil_r. repeat split; assumption.
Qed.

Lemma lang_star_group g g1 g2 (w : str) :
  lang false (Star g (groupRegex g1 g2)) w -> flat w.
Proof.
  intros [ws [-> Hall]]. induction Hall as [|u ws Hu _ IH]; simpl.
  - constructor.
  - apply lang_group in Hu. destruct Hu as [b [c [Hb [Hc ->]]]].
    change ((lparen :: b ++ rparen :: c) ++ List.concat ws)
      with (lparen :: (b ++ rparen :: c) ++ List.concat ws).
    rewrite <- app_assoc. simpl. constructor; [exact Hb|].
    apply flat_app; [apply noParen_flat; exact Hc|exact IH].
Qed.

(** A word of either value-set pattern is a flat text between
    parentheses. *)
Lemma lang_cli_valueSet (w : str) :
  lang false Cli.valueSetRegex w ->
  exists X, flat X /\ w = lparen :: X ++ [rparen].
Proof.
  intros [u1 [v1 [-> [H1 [u2 [v2 [-> [H2 [u3 [v3 [-> [H3
          [u4 [v4 [-> [H4 [u5 [v5 [-> [H5 ->]]]]]]]]]]]]]]]]]]]].
  apply lang_chr in H1, H5. subst u1 u5.
  apply lang_star_ws in H2, H4.
  destruct H3 as [a [g [-> [Ha Hg]]]].
  apply lang_star_notParen in Ha.
  apply (lang_star_group false true false) in Hg.
  exists (u2 ++ (a ++ g) ++ u4). split.
  - apply flat_app; [apply noParen_flat; exact H2|].
    apply flat_app; [|apply noParen_flat; exact H4].
    apply flat_app; [apply noParen_flat; exact Ha|exact Hg].
  - rewrite app_nil_r. simpl. rewrite <- !app_assoc. reflexivity.
Qed.

Lemma lang_stream_valueSet (w : str) :
  lang false CliStream.valueSetRegex w ->
  exists X, flat X /\ w = lparen :: X ++ [rparen].
Proof.
  intros [u1 [v1 [-> [H1 [u3 [v3 [-> [H3 [u5 [v5 [-> [H5 ->]]]]]]]]]]]].
  apply lang_chr in H1, H5. subst u1 u5.
  destruct H3 as [a [g [-> [Ha Hg]]]].
  apply lang_star_notParen in Ha.
  apply (lang_star_group true true true) in Hg.
  exists (a ++ g). split.
  - apply flat_app; [apply noParen_flat; exact Ha|exact Hg].
  - rewrite app_nil_r. reflexivity.
Qed.

Lemma paren_split (u : str) :
  noParen u -> forall b v v', noParen b ->
  u ++ rparen :: v = b ++ rparen :: v' -> u = b /\ v = v'.
Proof.
  induction 1 as [|x u Hx _ IH]; intros b v v' Hb E.
  - destruct b as [|y b]; simpl in E.
    + injection E as ->. auto.
    + injection E as <- _. inversion Hb as [|? ? Hy _]; subst. discriminate Hy.
  - destruct b as [|y b]; simpl in E.
    + injection E as -> _. discriminate Hx.
    + injection E as <- E. inversion Hb as [|? ? _ Hb']; subst.
      destruct (IH b v v' Hb' E) as [-> ->]. auto.
Qed.

(** A flat text ends at the first closing parenthesis that follows it. *)
Lemma flat_unique (X : str) :
  flat X -> forall X0, flat X0 -> forall r r0,
  X ++ rparen :: r = X0 ++ rparen :: r0 -> X = X0 /\ r = r0.
Proof.
  induction 1 as [|x w Hx _ IH|u w Hu _ IH]; intros X0 H0 r r0 E.
  - inversion H0 as [|y w0 Hy _|u0 w0 _ _]; subst; simpl in E.
    + injection E as ->. auto.
    + injection E as <- _. discriminate Hy.
    + discriminate E.
  - inversion H0 as [|y w0 Hy Hw0|u0 w0 _ _]; subst; simpl in E.
    + injection E as -> _. discriminate Hx.
    + injection E as <- E. destruct (IH w0 Hw0 r r0 E) as [-> ->]. auto.
    + injection E as -> _. discriminate Hx.
  - inversion H0 as [|y w0 Hy _|u0 w0 Hu0 Hw0]; subst; simpl in E.
    + discriminate E.
    + injection E as <- _. discriminate Hy.
    + injection E as E. rewrite <- !app_assoc in E. simpl in E.
      destruct (paren_split u Hu u0 _ _ Hu0 E) as [-> E'].
      destruct (IH w0 Hw0 r r0 E') as [-> ->]. auto.
Qed.

Lemma groups_flat (gs : list (str * str)) :
  Forall (fun g => noParen (fst g) /\ noParen (snd g)) gs ->
  flat (List.concat (map groupText gs)).
Proof.
  induction 1 as [|[b c] gs [Hb Hc] _ IH]; simpl; [constructor|].
  unfold groupText at 1. cbn [fst snd].
  change ((lparen :: b ++ rparen :: c) ++ List.concat (map groupText gs))
    with (lparen :: (b ++ rparen :: c) ++ List.concat (map groupText gs)).
  rewrite <- app_assoc. simpl. constructor; [exact Hb|].
  apply flat_app; [apply noParen_flat; exact Hc|exact IH].
Qed.

(** Building matches. *)
Lemma matches_chr (c : ascii) (p : nat) (s : str) caps :
  matches false (Chr c) (MState p (c :: s) caps) (MState (S p) s caps).
Proof.
  apply (M_Chr false c c s (MState p (c :: s) caps)); [reflexivity|].
  apply ch_eqb_refl.
Qed.

Lemma matches_star_cls ic greedy negated items (w : str) :
  Forall (fun x => cls_match ic negated items x = true) w ->
  forall p s caps,
    matches ic (Star greedy (Cls negated items))
      (MState p (w ++ s) caps) (MState (p + List.length w) s caps).
Proof.
  induction 1 as [|x w Hx _ IH]; intros p s caps.
  - simpl. rewrite Nat.add_0_r. constructor.
  - apply (M_StarS ic greedy _ _ (MState (S p) (w ++ s) caps)).
    + apply (M_Cls ic negated items x (w ++ s) (MState p (x :: w ++ s) caps));
        [reflexivity|exact Hx].
    + simpl. lia.
    + replace (p + List.length (x :: w)) with (S p + List.length w)
        by (simpl; lia).
      apply IH.
Qed.

Lemma matches_star_notParen greedy (w : str) :
  noParen w -> forall p s caps,
    matches false (Star greedy notParen)
      (MState p (w ++ s) caps) (MState (p + List.length w) s caps).
Proof.
  intro H. apply matches_star_cls. eapply Forall_impl; [|exact H].
  intros x Hx. cbv beta. rewrite notParen_match, Hx. reflexivity.
Qed.

Lemma matches_group g1 g2 (b c : str) :
  noParen b -> noParen c -> forall p s caps,
    matches false (groupRegex g1 g2)
      (MState p (groupText (b, c) ++ s) caps)
      (MState (p + List.length (groupText (b, c))) s caps).
Proof.
  intros Hb Hc p s caps. unfold groupRegex, groupText. cbn [seqs fold_right fst snd].
  change ((lparen :: b ++ rparen :: c) ++ s)
    with (lparen :: (b ++ rparen :: c) ++ s).
  rewrite <- app_assoc. cbn [app].
  eapply M_Seq; [apply matches_chr|].
  eapply M_Seq; [apply (matches_star_notParen g1 b Hb)|].
  eapply M_Seq; [apply matches_chr|].
  eapply M_Seq; [apply (matches_star_notParen g2 c Hc)|].
  replace (p + List.length (lparen :: b ++ rparen :: c))
    with (S (S p + List.length b) + List.length c)
    by (cbn [List.length]; rewrite length_app; cbn [List.length]; lia).
  constructor.
Qed.

Lemma matches_star_groups g g1 g2 (gs : list (str * str)) :
  Forall (fun g => noParen (fst g) /\ noParen (snd g)) gs ->
  forall p s caps,
    matches false (Star g (groupRegex g1 g2))
      (MState p (List.concat (map groupText gs) ++ s) caps)
      (MState (p + List.length (List.concat (map groupText gs))) s caps).
Proof.
  induction 1 as [|[b c] gs [Hb Hc] _ IH]; intros p s caps.
  - simpl. rewrite Nat.add_0_r. constructor.
  - cbn [map List.concat]. rewrite <- app_assoc.
    eapply M_StarS.
    + apply (matches_group g1 g2 b c Hb Hc).
    + cbn [pos groupText List.length]. lia.
    + rewrite length_app, Nat.add_assoc. apply IH.
Qed.

Lemma tupleText_length (a : str) (gs : list (str * str)) :
  List.length (tupleText a gs)
  = S (List.length a + List.length (List.concat (map groupText gs)) + 1).
Proof.
  unfold tupleText. cbn [List.length]. rewrite !length_app. reflexivity.
Qed.

Lemma cli_valueSet_matches (a : str) (gs : list (str * str)) p post :
  noParen a -> Forall (fun g => noParen (fst g) /\ noParen (snd g)) gs ->
  exists caps',
    matches false Cli.valueSetRegex
      (MState p (tupleText a gs ++ post) [])
      (MState (p + List.length (tupleText a gs)) post caps').
Proof.
  intros Ha Hgs. eexists. unfold Cli.valueSetRegex, tupleText.
  cbn [seqs fold_right].
  change ((lparen :: (a ++ List.concat (map groupText gs)) ++ [rparen]) ++ post)
    with (lparen :: ((a ++ List.concat (map groupText gs)) ++ [rparen]) ++ post).
  rewrite <- !app_assoc. cbn [app].
  eapply M_Seq; [apply matches_chr|].
  eapply M_Seq; [apply M_Star0|].
  eapply M_Seq.
  { apply M_Group. eapply M_Seq; [apply (matches_star_notParen false a Ha)|].
    apply (matches_star_groups false true false gs Hgs). }
  cbn [pos rest caps].
  eapply M_Seq; [apply M_Star0|].
  eapply M_Seq; [apply matches_chr|].
  match goal with
  | |- matches _ Eps (MState ?q _ _) (MState ?q' _ _) =>
      replace q' with q; [constructor|]
  end.
  cbn [List.length]. rewrite !length_app. cbn [List.length]. lia.
Qed.

Lemma stream_valueSet_matches (a : str) (gs : list (str * str)) p post :
  noParen a -> Forall (fun g => noParen (fst g) /\ noParen (snd g)) gs ->
  exists caps',
    matches false CliStream.valueSetRegex
      (MState p (tupleText a gs ++ post) [])
      (MState (p + List.length (tupleText a gs)) post caps').
Proof.
  intros Ha Hgs. eexists. unfold CliStream.valueSetRegex, tupleText.
  cbn [seqs fold_right].
  change ((lparen :: (a ++ List.concat (map groupText gs)) ++ [rparen]) ++ post)
    with (lparen :: ((a ++ List.concat (map groupText gs)) ++ [rparen]) ++ post).
  rewrite <- !app_assoc. cbn [app].
  eapply M_Seq; [apply matches_chr|].
  eapply M_Seq.
  { apply M_Group. eapply M_Seq; [apply (matches_star_notParen true a Ha)|].
    apply (matches_star_groups true true true gs Hgs). }
  cbn [pos rest caps].
  eapply M_Seq; [apply matches_chr|].
  match goal with
  | |- matches _ Eps (MState ?q _ _) (MState ?q' _ _) =>
      replace q' with q; [constructor|]
  end.
  cbn [List.length]. rewrite !length_app. cbn [List.length]. lia.
Qed.

Lemma searchFrom_eq ic r p s :
  searchFrom ic r p s =
  match rmatch ic r (MState p s []) (fun st => Some st) with
  | Some st => Some (Found p (firstn (pos st - p) s) (caps st) (pos st) (rest st))
  | None => match s with
            | [] => None
            | _ :: s' => searchFrom ic r (S p) s'
            end
  end.
Proof. destruct s; reflexivity. Qed.

Lemma rmatch_needs_head ic (c : ascii) (r : regex) st k :
  match rest st with
  | x :: _ => chr_match ic c x = false
  | [] => True
  end ->
  rmatch ic (Seq (Chr c) r) st k = None.
Proof.
  intro H. cbn [rmatch]. destruct (rest st) as [|x s']; [reflexivity|].
  rewrite H. reflexivity.
Qed.

Section Extract.

(** A pattern that starts with an opening parenthesis, whose words are
    flat texts between parentheses, and that matches every such tuple. *)
Variable R : regex.
Hypothesis R_head : exists r', R = Seq (Chr lparen) r'.
Hypothesis R_lang :
  forall w, lang false R w -> exists X, flat X /\ w = lparen :: X ++ [rparen].
Hypothesis R_matches :
  forall a gs p post,
    noParen a -> Forall (fun g => noParen (fst g) /\ noParen (snd g)) gs ->
    exists caps',
      matches false R (MState p (tupleText a gs ++ post) [])
        (MState (p + List.length (tupleText a gs)) post caps').

(** At a tuple the search finds the tuple, whole. *)
Lemma searchFrom_tuple (a : str) (gs : list (str * str)) p post :
  noParen a -> Forall (fun g => noParen (fst g) /\ noParen (snd g)) gs ->
  exists m,
    searchFrom false R p (tupleText a gs ++ post) = Some m
    /\ text m = tupleText a gs
    /\ lastIndex m = p + List.length (tupleText a gs)
    /\ tail m = post.
Proof.
  intros Ha Hgs. rewrite searchFrom_eq.
  destruct (rmatch false R (MState p (tupleText a gs ++ post) [])
              (fun st => Some st)) as [st|] eqn:E.
  - apply rmatch_sound in E. destruct E as [st' [M E]]. injection E as ->.
    apply matches_lang in M. destruct M as [w [Hw1 [Hw2 Hw3]]].
    apply R_lang in Hw3. destruct Hw3 as [X [HX ->]].
    cbn [rest pos] in Hw1, Hw2.
    unfold tupleText in Hw1.
    change ((lparen :: (a ++ List.concat (map groupText gs)) ++ [rparen]) ++ post)
      with (lparen :: ((a ++ List.concat (map groupText gs)) ++ [rparen]) ++ post)
      in Hw1.
    change ((lparen :: X ++ [rparen]) ++ rest st)
      with (lparen :: (X ++ [rparen]) ++ rest st) in Hw1.
    injection Hw1 as Hw1. rewrite <- !app_assoc in Hw1. cbn [app] in Hw1.
    assert (Hflat : flat (a ++ List.concat (map groupText gs)))
      by (apply flat_app; [apply noParen_flat; exact Ha|apply groups_flat; exact Hgs]).
    rewrite app_assoc in Hw1.
    destruct (flat_unique _ Hflat X HX _ _ Hw1) as [<- <-].
    fold (tupleText a gs) in Hw2.
    eexists. split; [reflexivity|]. cbn [text lastIndex tail].
    split; [|split; [exact Hw2|reflexivity]].
    rewrite Hw2. replace (p + List.length (tupleText a gs) - p)
      with (List.length (tupleText a gs)) by lia.
    apply firstn_length_app.
  - exfalso. destruct (R_matches a gs p post Ha Hgs) as [caps' M].
    pose proof (rmatch_complete false R _ _ E _ M) as H. discriminate H.
Qed.

(** The search passes over text without parentheses. *)
Lemma searchFrom_skip (pre : str) :
  noParen pre -> forall p s,
  searchFrom false R p (pre ++ s) = searchFrom false R (p + List.length pre) s.
Proof.
  destruct R_head as [r' HR].
  induction 1 as [|x pre Hx _ IH]; intros p s.
  - simpl. rewrite Nat.add_0_r. reflexivity.
  - rewrite searchFrom_eq. rewrite HR at 1. rewrite rmatch_needs_head.
    + cbn [app]. rewrite IH. f_equal. simpl. lia.
    + cbn [rest app]. unfold chr_match.
      unfold isParen in Hx. apply orb_false_iff in Hx. destruct Hx as [Hx _].
      unfold ch_eqb in *. rewrite Ascii.eqb_sym. exact Hx.
Qed.

Lemma searchFrom_none (post : str) :
  noParen post -> forall p, searchFrom false R p post = None.
Proof.
  intros H p. rewrite <- (app_nil_r post), (searchFrom_skip post H).
  destruct R_head as [r' HR]. rewrite searchFrom_eq, HR.
  rewrite rmatch_needs_head; [reflexivity|exact I].
Qed.

(** The loop over the matches finds the tuples of a region, each whole. *)
Lemma execLoop_region (ts : list shape) :
  Forall wellShaped ts -> forall post, noParen post ->
  forall n p, List.length ts < n ->
  map text (execLoop n false R p (region ts post)) = map shapeTuple ts.
Proof.
  induction 1 as [|t ts [Hb [Ha Hgs]] _ IH]; intros post Hpost n p Hn.
  - destruct n as [|n]; [lia|]. unfold region. cbn [map List.concat app execLoop].
    rewrite searchFrom_none by exact Hpost. reflexivity.
  - destruct n as [|n]; [lia|]. unfold region. cbn [map List.concat execLoop].
    rewrite <- !app_assoc. rewrite (searchFrom_skip _ Hb).
    fold (region ts post).
    destruct (searchFrom_tuple (lead t) (inner t)
                (p + List.length (before t)) (region ts post) Ha Hgs)
      as [m [E [Hm1 [Hm2 Hm3]]]].
    unfold shapeTuple at 1. rewrite E. cbn [map]. rewrite Hm1, Hm3.
    f_equal. apply IH; [exact Hpost|]. simpl in Hn. lia.
Qed.

Lemma region_length (ts : list shape) (post : str) :
  List.length ts <= List.length (region ts post).
Proof.
  unfold region. induction ts as [|t ts IH]; [simpl; lia|].
  cbn [map List.concat]. rewrite <- !app_assoc, !length_app.
  unfold shapeTuple at 1. rewrite tupleText_length.
  cbn [List.length]. rewrite length_app in IH. lia.
Qed.

Lemma execAll_region (ts : list shape) (post : str) :
  Forall wellShaped ts -> noParen post ->
  map text (execAll false R (region ts post)) = map shapeTuple ts.
Proof.
  intros Hts Hpost. unfold execAll. apply execLoop_region; try assumption.
  pose proof (region_length ts post). lia.
Qed.

(** The bound of the loop over the matches is never reached: every match
    is at least two parentheses long, so any bound above the length of the
    text gives the same matches. *)
Lemma searchFrom_shorter (s : str) :
  forall p m, searchFrom false R p s = Some m ->
  List.length (tail m) < List.length s.
Proof.
  induction s as [|x s IH]; intros p m H; rewrite searchFrom_eq in H.
  - destruct R_head as [r' HR]. rewrite HR in H.
    rewrite rmatch_needs_head in H; [discriminate H|exact I].
  - destruct (rmatch false R (MState p (x :: s) []) (fun st => Some st))
      as [st|] eqn:E.
    + injection H as <-. cbn [tail].
      apply rmatch_sound in E. destruct E as [st' [M E]]. injection E as ->.
      apply matches_lang in M. destruct M as [w [Hw1 [_ Hw3]]].
      apply R_lang in Hw3. destruct Hw3 as [X [_ ->]].
      cbn [rest] in Hw1. rewrite Hw1. cbn [List.length app].
      rewrite length_app. lia.
    + apply IH in H. simpl. lia.
Qed.

Lemma execLoop_enough (n : nat) :
  forall s p n', List.length s < n -> List.length s < n' ->
  execLoop n false R p s = execLoop n' false R p s.
Proof.
  induction n as [|n IH]; intros s p n' Hn Hn'; [lia|].
  destruct n' as [|n']; [lia|]. cbn [execLoop].
  destruct (searchFrom false R p s) as [m|] eqn:E; [|reflexivity].
  apply searchFrom_shorter in E. f_equal. apply IH; lia.
Qed.

End Extract.

(** For the two value-set patterns. *)
Lemma cli_execAll_bound (s : str) (n : nat) :
  List.length s < n ->
  execLoop n false Cli.valueSetRegex 0 s = execAll false Cli.valueSetRegex s.
Proof.
  intro H. unfold execAll.
  apply (execLoop_enough Cli.valueSetRegex); try lia.
  - eexists. reflexivity.
  - exact lang_cli_valueSet.
Qed.

Lemma stream_execAll_bound (s : str) (n : nat) :
  List.length s < n ->
  execLoop n false CliStream.valueSetRegex 0 s
  = execAll false CliStream.valueSetRegex s.
Proof.
  intro H. unfold execAll.
  apply (execLoop_enough CliStream.valueSetRegex); try lia.
  - eexists. reflexivity.
  - exact lang_stream_valueSet.
Qed.

(** C5, as the claim states it, fails in both programs: the closing
    parenthesis inside the quoted string ['a)b'] closes the tuple, which
    comes out as [(1, 'a)] and not as the whole row. *)
Lemma C5_quoted_parenthesis_closes_tuple :
  map text (execAll false Cli.valueSetRegex (L " VALUES (1, 'a)b');"))
    = [L "(1, 'a)"]
  /\ map text (execAll false CliStream.valueSetRegex (L " (1, 'a)b');"))
    = [L "(1, 'a)"].
Proof. split; vm_compute; reflexivity. Qed.

(** C5 (amended): for every VALUES region, tuple extraction matches each
    parenthesised span that holds, besides other characters, only balanced
    pairs of parentheses one level deep, and it does not look at the quote
    state: when every quoted (or unquoted) parenthesis inside the tuples
    is part of such a pair, the extractor yields exactly the tuples, each
    spanning its whole parenthesised row; in particular one tuple with the
    field ['(555) 123-4567'] is found as one tuple. *)
Theorem C5_balanced_parentheses_stay_inside (ts : list shape) (post : str) :
  Forall wellShaped ts -> noParen post ->
  map text (execAll false Cli.valueSetRegex (region ts post))
    = map shapeTuple ts
  /\ map text (execAll false CliStream.valueSetRegex (region ts post))
    = map shapeTuple ts.
Proof.
  intros Hts Hpost. split.
  - apply execAll_region; try assumption.
    + eexists. reflexivity.
    + exact lang_cli_valueSet.
    + intros. apply cli_valueSet_matches; assumption.
  - apply execAll_region; try assumption.
    + eexists. reflexivity.
    + exact lang_stream_valueSet.
    + intros. apply stream_valueSet_matches; assumption.
Qed.

Lemma C5_balanced_parentheses_stay_inside_witness :
  map text (execAll false Cli.valueSetRegex
              (L " VALUES (1, '(555) 123-4567');"))
    = [L "(1, '(555) 123-4567')"]
  /\ map text (execAll false CliStream.valueSetRegex
                 (L " VALUES (1, '(555) 123-4567');"))
    = [L "(1, '(555) 123-4567')"].
Proof.
  apply (C5_balanced_parentheses_stay_inside [phoneRow] (L ";")).
  - constructor; [|constructor]. repeat split; repeat constructor.
  - repeat constructor.
Defined.

(** ** A tuple in its statement *)











Lemma contains_after (s sub a : str) : contains s sub -> contains (a ++ s) sub.
Proof.
  intros [u [v E]]. exists (a ++ u), v. rewrite E, <- app_assoc. reflexivity.
Qed.

Lemma contains_before (s sub b : str) : contains s sub -> contains (s ++ b) sub.
Proof.
  intros [u [v E]]. exists u, (v ++ b). rewrite E, <- !app_assoc. reflexivity.
Qed.

(** The second loop of the line-based program puts every pushed text
    into the rebuilt values part. *)
Lemma cli_reconstruct_fold vp nvs (ms : list found) :
  forall acc li mi, exists out li',
    fold_left (Cli.reconstructStep vp nvs) ms (acc, li, mi)
      = (acc ++ out, li', mi + List.length ms)
    /\ forall k, k < List.length ms ->
         contains out (nth (mi + k) nvs (L "undefined")).
Proof.
  induction ms as [|m ms IH]; intros acc li mi.
  - exists [], li. rewrite app_nil_r, Nat.add_0_r. split; [reflexivity|].
    intros k Hk. simpl in Hk. lia.
  - cbn [fold_left].
    change (Cli.reconstructStep vp nvs (acc, li, mi) m)
      with (acc ++ substring vp li (index m) ++ nth mi nvs (L "undefined"),
            lastIndex m, S mi).
    destruct (IH (acc ++ substring vp li (index m) ++ nth mi nvs (L "undefined"))
                (lastIndex m) (S mi)) as [out [li' [E Hc]]].
    exists ((substring vp li (index m) ++ nth mi nvs (L "undefined")) ++ out), li'.
    unfold str in *. rewrite E. split.
    + rewrite <- !app_assoc. cbn [List.length].
      replace (S mi + List.length ms) with (mi + S (List.length ms)) by lia.
      reflexivity.
    + intros [|k] Hk.
      * rewrite Nat.add_0_r. exists (substring vp li (index m)), out.
        rewrite <- app_assoc. reflexivity.
      * replace (mi + S k) with (S mi + k) by lia.
        destruct (Hc k) as [a [b Hab]]; [simpl in Hk; lia|].
        exists ((substring vp li (index m) ++ nth mi nvs (L "undefined")) ++ a), b.
        rewrite Hab, <- !app_assoc. reflexivity.
Qed.

Lemma cli_reconstruct_contains vp nvs k :
  k < List.length (execAll false Cli.valueSetRegex vp) ->
  contains (Cli.reconstruct vp nvs) (nth k nvs (L "undefined")).
Proof.
  intro Hk. unfold Cli.reconstruct.
  destruct (cli_reconstruct_fold vp nvs (execAll false Cli.valueSetRegex vp) [] 0 0)
    as [out [li' [E Hc]]].
  unfold str in *. rewrite E. cbn [app].
  destruct (Hc k Hk) as [a [b Hab]]. cbn [Nat.add] in Hab.
  exists a, (b ++ substringFrom vp li'). rewrite Hab, <- !app_assoc.
  reflexivity.
Qed.

(** A match is a piece of the text that was searched. *)
Lemma searchFrom_parts ic r (s : str) :
  forall p m, searchFrom ic r p s = Some m ->
  exists a, s = a ++ text m ++ tail m.
Proof.
  assert (Here : forall p s st,
            rmatch ic r (MState p s []) (fun st => Some st) = Some st ->
            s = firstn (pos st - p) s ++ rest st).
  { intros p s0 st E. apply rmatch_sound in E. destruct E as [st' [M E]].
    injection E as ->. apply matches_lang in M.
    destruct M as [w [Hw1 [Hw2 _]]]. cbn [rest pos] in Hw1, Hw2.
    rewrite Hw2. replace (p + List.length w - p) with (List.length w) by lia.
    rewrite Hw1 at 2. rewrite firstn_length_app. exact Hw1. }
  induction s as [|x s IH]; intros p m H; rewrite searchFrom_eq in H.
  - destruct (rmatch ic r (MState p [] []) (fun st => Some st)) as [st|] eqn:E;
      [|discriminate H].
    injection H as <-. exists []. cbn [text tail app]. apply (Here _ _ _ E).
  - destruct (rmatch ic r (MState p (x :: s) []) (fun st => Some st))
      as [st|] eqn:E.
    + injection H as <-. exists []. cbn [text tail app]. apply (Here _ _ _ E).
    + apply IH in H. destruct H as [a Ha]. exists (x :: a). rewrite Ha at 1.
      reflexivity.
Qed.

Lemma execLoop_contained ic r (n : nat) :
  forall s p m, In m (execLoop n ic r p s) -> contains s (text m).
Proof.
  induction n as [|n IH]; intros s p m H; [destruct H|].
  cbn [execLoop] in H. destruct (searchFrom ic r p s) as [m0|] eqn:E;
    [|destruct H].
  apply searchFrom_parts in E. destruct E as [a Ha].
  destruct H as [<-|H].
  - exists a, (tail m0). exact Ha.
  - apply IH in H. destruct H as [u [v Huv]].
    exists (a ++ text m0 ++ u), v. rewrite Ha, Huv, <- !app_assoc. reflexivity.
Qed.

Lemma nth_of_nth_error (outs : list str) (k : nat) (t d : str) :
  nth_error outs k = Some t -> nth k outs d = t.
Proof. intro H. apply nth_error_nth. exact H. Qed.


Lemma stream_fold_quiet cols e (ms : list found) :
  forall nvs om r nvs' om' r',
    fold_left (CliStream.processValueSet cols e) ms (nvs, om, r) = (nvs', om', r') ->
    quiet r r'.
Proof.
  induction ms as [|m ms IH]; intros nvs om r nvs' om' r' H.
  - injection H as _ _ <-. apply quiet_refl.
  - cbn [fold_left] in H.
    destruct (stream_processValueSet_spec cols e nvs om r m)
      as [fields [r1 [E [_ [_ [_ Hq]]]]]].
    rewrite E in H. apply IH in H. eapply quiet_trans; eassumption.
Qed.




(** ** A field in its statement *)

Lemma contains_self (s : str) : contains s s.
Proof. exists [], []. rewrite app_nil_r. reflexivity. Qed.

Lemma contains_empty (s : str) : contains s [].
Proof. exists [], s. reflexivity. Qed.

Lemma contains_trans (a b c : str) : contains a b -> contains b c -> contains a c.
Proof.
  intros [u [v ->]] [x [y ->]]. exists (u ++ x), (y ++ v).
  rewrite <- !app_assoc. reflexivity.
Qed.

Lemma contains_trimStart (s : str) : contains s (trimStart s).
Proof.
  induction s as [|c s IH]; simpl; [apply contains_self|].
  destruct (isWhiteSpace c); [|apply contains_self].
  apply (contains_after _ _ [c]). exact IH.
Qed.

Lemma contains_rev (s t : str) : contains s t -> contains (rev s) (rev t).
Proof.
  intros [u [v ->]]. exists (rev v), (rev u).
  rewrite !rev_app_distr, <- app_assoc. reflexivity.
Qed.

Lemma contains_trim (s : str) : contains s (trim s).
Proof.
  unfold trim, trimEnd. eapply contains_trans; [apply contains_trimStart|].
  rewrite <- (rev_involutive (trimStart s)) at 1.
  apply contains_rev, contains_trimStart.
Qed.

(** Every field is a piece of the text that was tokenized. *)
Lemma parseLoop_contained (s : list ascii) :
  forall st done,
    Forall (contains done) (values st) ->
    (exists a, done = a ++ currentVal st) ->
    Forall (contains (done ++ s)) (values (parseLoop s st))
    /\ exists a, done ++ s = a ++ currentVal (parseLoop s st).
Proof.
  assert (Grow : forall done x vs,
            Forall (contains done) vs -> Forall (contains (done ++ x)) vs).
  { intros done x vs H. eapply Forall_impl; [|exact H].
    intros v Hv. apply contains_before. exact Hv. }
  assert (Push : forall (st : pstate) done (x : str),
            (exists a, done = a ++ currentVal st) ->
            exists a, done ++ x = a ++ currentVal st ++ x).
  { intros st done x [a ->]. exists a. rewrite <- app_assoc. reflexivity. }
  assert (Close : forall (st : pstate) done (x : str),
            Forall (contains done) (values st) ->
            (exists a, done = a ++ currentVal st) ->
            Forall (contains (done ++ x)) (values st ++ [trim (currentVal st)])).
  { intros st done x Hv [a Ha]. apply Forall_app. split; [apply Grow; exact Hv|].
    constructor; [|constructor]. apply contains_before.
    eapply contains_trans; [|apply contains_trim].
    rewrite Ha. apply contains_after, contains_self. }
  induction s as [| c | c d s IH0 IH1] using list_pair_ind; intros st done Hv Hc.
  - simpl. rewrite app_nil_r. auto.
  - rewrite parseLoop_cons.
    destruct (ch_eqb c quote && negb (inQuotes st));
      [simpl; split; [apply Grow; exact Hv|apply Push; exact Hc]|].
    destruct (ch_eqb c quote && inQuotes st && quoteIs (quoteChar st) quote);
      [simpl; split; [apply Grow; exact Hv|apply Push; exact Hc]|].
    destruct (ch_eqb c comma && negb (inQuotes st)); simpl.
    + split; [apply Close; assumption|]. exists (done ++ [c]).
      symmetry. apply app_nil_r.
    + split; [apply Grow; exact Hv|apply Push; exact Hc].
  - rewrite parseLoop_cons.
    assert (Next : forall st1 (x rest : str),
              c :: d :: s = x ++ rest ->
              Forall (contains (done ++ x)) (values st1) ->
              (exists a, done ++ x = a ++ currentVal st1) ->
              (forall st done,
                 Forall (contains done) (values st) ->
                 (exists a, done = a ++ currentVal st) ->
                 Forall (contains (done ++ rest)) (values (parseLoop rest st))
                 /\ exists a, done ++ rest = a ++ currentVal (parseLoop rest st)) ->
              Forall (contains (done ++ c :: d :: s)) (values (parseLoop rest st1))
              /\ exists a, done ++ c :: d :: s = a ++ currentVal (parseLoop rest st1)).
    { intros st1 x rest E H1 H2 IH. rewrite E, app_assoc. apply IH; assumption. }
    destruct (ch_eqb c quote && negb (inQuotes st)).
    { apply (Next _ [c] (d :: s)); [reflexivity| | |exact IH1].
      - apply Grow. exact Hv.
      - apply Push. exact Hc. }
    destruct (ch_eqb c quote && inQuotes st && quoteIs (quoteChar st) quote) eqn:E2.
    { destruct (ch_eqb d quote) eqn:E3.
      - apply andb_true_iff in E2. destruct E2 as [E2 _].
        apply andb_true_iff in E2. destruct E2 as [E2 _].
        apply ch_eqb_eq in E2, E3. subst c d.
        apply (Next _ [quote; quote] s); [reflexivity| | |exact IH0].
        + apply Grow. exact Hv.
        + apply (Push st done (L "''")). exact Hc.
      - apply (Next _ [c] (d :: s)); [reflexivity| | |exact IH1].
        + apply Grow. exact Hv.
        + apply Push. exact Hc. }
    destruct (ch_eqb c comma && negb (inQuotes st)).
    { apply (Next _ [c] (d :: s)); [reflexivity| | |exact IH1].
      - apply Close; assumption.
      - exists (done ++ [c]). symmetry. apply app_nil_r. }
    apply (Next _ [c] (d :: s)); [reflexivity| | |exact IH1].
    + apply Grow. exact Hv.
    + apply Push. exact Hc.
Qed.

Lemma parseValues_contained (s : str) (j : nat) :
  j < List.length (parseValues s) -> contains s (nth j (parseValues s) []).
Proof.
  intro Hj. rewrite parseValues_pushes in *.
  destruct (parseLoop_contained s pinit [] (Forall_nil _)) as [Hv [a Ha]].
  { exists []. reflexivity. }
  cbn [app] in Hv, Ha.
  assert (Hall : Forall (contains s)
            (values (parseLoop s pinit) ++ [trim (currentVal (parseLoop s pinit))])).
  { apply Forall_app. split; [exact Hv|]. constructor; [|constructor].
    eapply contains_trans; [|apply contains_trim].
    rewrite Ha at 1. apply contains_after, contains_self. }
  apply (proj1 (Forall_forall _ _) Hall). apply nth_In. exact Hj.
Qed.

(** The text of a group is a piece of the word that the match consumed. *)
Lemma matches_caps ic r st st' :
  matches ic r st st' ->
  exists w new,
    rest st = w ++ rest st' /\ pos st' = pos st + List.length w
    /\ caps st' = caps st ++ new
    /\ Forall (fun g => contains w (snd g)) new.
Proof.
  induction 1 as
    [ st | c x s' st Hr Hc | negated items x s' st Hr Hc
    | r1 r2 st st1 st2 _ [u [n1 [Hu1 [Hu2 [Hu3 Hu4]]]]]
                       _ [v [n2 [Hv1 [Hv2 [Hv3 Hv4]]]]]
    | r1 r2 st st' _ IH | r1 r2 st st' _ IH
    | greedy r st
    | greedy r st st1 st2 _ [u [n1 [Hu1 [Hu2 [Hu3 Hu4]]]]] Hne
                          _ [v [n2 [Hv1 [Hv2 [Hv3 Hv4]]]]]
    | n r st st1 _ [w [new [H1 [H2 [H3 H4]]]]] | st Hp ].
  - exists [], []. rewrite app_nil_r. simpl. repeat split; auto; lia.
  - exists [x], []. rewrite app_nil_r. simpl. rewrite Hr.
    repeat split; auto; lia.
  - exists [x], []. rewrite app_nil_r. simpl. rewrite Hr.
    repeat split; auto; lia.
  - exists (u ++ v), (n1 ++ n2). rewrite Hu1, Hv1, Hv3, Hu3, <- !app_assoc.
    split; [reflexivity|]. split; [rewrite length_app; lia|].
    split; [reflexivity|]. apply Forall_app. split.
    + eapply Forall_impl; [|exact Hu4]. intros g Hg.
      apply contains_before. exact Hg.
    + eapply Forall_impl; [|exact Hv4]. intros g Hg.
      apply contains_after. exact Hg.
  - exact IH.
  - exact IH.
  - exists [], []. rewrite app_nil_r. simpl. repeat split; auto; lia.
  - exists (u ++ v), (n1 ++ n2). rewrite Hu1, Hv1, Hv3, Hu3, <- !app_assoc.
    split; [reflexivity|]. split; [rewrite length_app; lia|].
    split; [reflexivity|]. apply Forall_app. split.
    + eapply Forall_impl; [|exact Hu4]. intros g Hg.
      apply contains_before. exact Hg.
    + eapply Forall_impl; [|exact Hv4]. intros g Hg.
      apply contains_after. exact Hg.
  - exists w, (new ++ [(n, firstn (pos st1 - pos st) (rest st))]).
    cbn [rest pos caps]. split; [exact H1|]. split; [exact H2|].
    split; [rewrite H3, <- app_assoc; reflexivity|].
    apply Forall_app. split; [exact H4|]. constructor; [|constructor].
    cbn [snd]. rewrite H2, H1.
    replace (pos st + List.length w - pos st) with (List.length w) by lia.
    rewrite firstn_length_app. apply contains_self.
  - exists [], []. rewrite app_nil_r. simpl. repeat split; auto; lia.
Qed.

Lemma group_contained (gs : list (nat * str)) (w : str) (n : nat) :
  Forall (fun g => contains w (snd g)) gs -> contains w (group gs n).
Proof.
  intro H. unfold group.
  destruct (find (fun g => fst g =? n) (rev gs)) as [g|] eqn:E;
    [|apply contains_empty].
  apply find_some in E. destruct E as [Hin _]. apply in_rev in Hin.
  exact (proj1 (Forall_forall _ _) H g Hin).
Qed.

Lemma searchFrom_groups ic r (s : str) :
  forall p m n, searchFrom ic r p s = Some m ->
  contains (text m) (group (groups m) n).
Proof.
  assert (Here : forall p s st n,
            rmatch ic r (MState p s []) (fun st => Some st) = Some st ->
            contains (firstn (pos st - p) s) (group (caps st) n)).
  { intros p s0 st n E. apply rmatch_sound in E. destruct E as [st' [M E]].
    injection E as ->. apply matches_caps in M.
    destruct M as [w [new [Hw1 [Hw2 [Hw3 Hw4]]]]]. cbn [rest pos caps] in *.
    rewrite Hw2, Hw1, Hw3. cbn [app].
    replace (p + List.length w - p) with (List.length w) by lia.
    rewrite firstn_length_app. apply group_contained. exact Hw4. }
  induction s as [|x s IH]; intros p m n H; rewrite searchFrom_eq in H.
  - destruct (rmatch ic r (MState p [] []) (fun st => Some st)) as [st|] eqn:E;
      [|discriminate H].
    injection H as <-. cbn [text groups]. apply (Here _ _ _ _ E).
  - destruct (rmatch ic r (MState p (x :: s) []) (fun st => Some st))
      as [st|] eqn:E.
    + injection H as <-. cbn [text groups]. apply (Here _ _ _ _ E).
    + apply (IH _ _ _ H).
Qed.

Lemma execLoop_groups ic r (n : nat) :
  forall s p m g, In m (execLoop n ic r p s) ->
  contains (text m) (group (groups m) g).
Proof.
  induction n as [|n IH]; intros s p m g H; [destruct H|].
  cbn [execLoop] in H. destruct (searchFrom ic r p s) as [m0|] eqn:E;
    [|destruct H].
  destruct H as [<-|H]; [apply (searchFrom_groups _ _ _ _ _ _ E)|].
  apply (IH _ _ _ _ H).
Qed.

(** A field of a tuple is a piece of the text of the tuple. *)
Lemma cli_field_in_tuple ic r (s : str) (m : found) (j : nat) :
  In m (execAll ic r s) -> j < List.length (cliFields m) ->
  contains (text m) (nth j (cliFields m) []).
Proof.
  intros Hm Hj. unfold cliFields in *.
  eapply contains_trans; [apply (execLoop_groups _ _ _ _ _ _ 1 Hm)|].
  eapply contains_trans; [apply contains_trim|].
  apply parseValues_contained. exact Hj.
Qed.

Lemma stream_field_in_tuple ic r (s : str) (m : found) (j : nat) :
  In m (execAll ic r s) -> j < List.length (streamFields m) ->
  contains (text m) (nth j (streamFields m) []).
Proof.
  intros Hm Hj. unfold streamFields in *.
  eapply contains_trans; [apply (execLoop_groups _ _ _ _ _ _ 1 Hm)|].
  apply parseValues_contained. exact Hj.
Qed.

(** What either loop pushes for a tuple is the original text of the
    tuple, or the tuple rebuilt from fields that are those of the tuple at
    every index that is not requested. *)
Lemma cli_processValueSet_emits cols e line nvs om r m :
  exists t om' r',
    Cli.processValueSet cols e line (nvs, om, r) m = (nvs ++ [t], om', r')
    /\ (t = text m
        \/ exists fields,
             t = L "( " ++ join (L ", ") fields ++ L " )"
             /\ List.length fields = List.length (cliFields m)
             /\ forall j, ~ In j cols ->
                  nth j fields [] = nth j (cliFields m) []).
Proof.
  destruct (cli_processValueSet_spec cols e line nvs om r m)
    as [fields [r' [E [HF [_ [Hf _]]]]]].
  do 3 eexists. split; [exact E|].
  destruct (negb (tooNarrow cols (cliFields m))
            && existsb (cliHit (cliFields m)) cols); [right|left; reflexivity].
  exists fields. split; [reflexivity|]. split; [|exact Hf].
  symmetry. apply (Forall2_length HF).
Qed.

Lemma stream_processValueSet_emits cols e nvs om r m :
  exists t om' r',
    CliStream.processValueSet cols e (nvs, om, r) m = (nvs ++ [t], om', r')
    /\ (t = text m
        \/ exists fields,
             t = L "(" ++ join (L ", ") fields ++ L ")"
             /\ List.length fields = List.length (streamFields m)
             /\ forall j, ~ In j cols ->
                  nth j fields [] = nth j (streamFields m) []).
Proof.
  destruct (stream_processValueSet_spec cols e nvs om r m)
    as [fields [r' [E [HF [Hf _]]]]].
  do 3 eexists. split; [exact E|].
  destruct (negb (tooNarrow cols (streamFields m))
            && existsb (streamHit (streamFields m)) cols);
    [right|left; reflexivity].
  exists fields. split; [reflexivity|]. split; [|exact Hf].
  symmetry. apply (Forall2_length HF).
Qed.

Lemma cli_fold_emits cols e line (ms : list found) :
  forall nvs om r, exists outs om' r',
    fold_left (Cli.processValueSet cols e line) ms (nvs, om, r)
      = (nvs ++ outs, om', r')
    /\ forall k m, nth_error ms k = Some m ->
         exists t, nth_error outs k = Some t
           /\ (t = text m
               \/ exists fields,
                    t = L "( " ++ join (L ", ") fields ++ L " )"
                    /\ List.length fields = List.length (cliFields m)
                    /\ forall j, ~ In j cols ->
                         nth j fields [] = nth j (cliFields m) []).
Proof.
  induction ms as [|m0 ms IH]; intros nvs om r.
  - exists [], om, r. rewrite app_nil_r. split; [reflexivity|].
    intros [|k] m H; discriminate H.
  - destruct (cli_processValueSet_emits cols e line nvs om r m0)
      as [t [om1 [r1 [E1 Ht]]]].
    destruct (IH (nvs ++ [t]) om1 r1) as [outs [om' [r' [E Hk]]]].
    exists (t :: outs), om', r'. cbn [fold_left]. rewrite E1, E, <- app_assoc.
    split; [reflexivity|].
    intros [|k] m H.
    + injection H as <-. exists t. split; [reflexivity|exact Ht].
    + apply (Hk k m H).
Qed.

Lemma stream_fold_emits cols e (ms : list found) :
  forall nvs om r, exists outs om' r',
    fold_left (CliStream.processValueSet cols e) ms (nvs, om, r)
      = (nvs ++ outs, om', r')
    /\ List.length outs = List.length ms
    /\ forall k m, nth_error ms k = Some m ->
         exists t, nth_error outs k = Some t
           /\ (t = text m
               \/ exists fields,
                    t = L "(" ++ join (L ", ") fields ++ L ")"
                    /\ List.length fields = List.length (streamFields m)
                    /\ forall j, ~ In j cols ->
                         nth j fields [] = nth j (streamFields m) []).
Proof.
  induction ms as [|m0 ms IH]; intros nvs om r.
  - exists [], om, r. rewrite app_nil_r. split; [reflexivity|].
    split; [reflexivity|]. intros [|k] m H; discriminate H.
  - destruct (stream_processValueSet_emits cols e nvs om r m0)
      as [t [om1 [r1 [E1 Ht]]]].
    destruct (IH (nvs ++ [t]) om1 r1) as [outs [om' [r' [E [Hl Hk]]]]].
    exists (t :: outs), om', r'. cbn [fold_left]. rewrite E1, E, <- app_assoc.
    split; [reflexivity|]. split; [simpl; congruence|].
    intros [|k] m H.
    + injection H as <-. exists t. split; [reflexivity|exact Ht].
    + apply (Hk k m H).
Qed.

(** A field at an index that is not requested, in the text that the
    line-based program writes for its statement. *)
Lemma cli_statement_keeps_field table cols e statement line r vm k m j :
  search true (Cli.insertRegex table) statement <> None ->
  search true Cli.valuesRegex statement = Some vm ->
  nth_error (execAll false Cli.valueSetRegex
               (substringFrom statement (index vm))) k = Some m ->
  j < List.length (cliFields m) ->
  ~ In j cols ->
  exists written,
    output (Cli.processStatement table cols e statement line r)
      = output r ++ written
    /\ contains written (nth j (cliFields m) []).
Proof.
  intros Hins Hval Hk Hj Hnin. unfold Cli.processStatement.
  destruct (search true (Cli.insertRegex table) statement); [|contradiction].
  rewrite Hval.
  set (ms := execAll false Cli.valueSetRegex (substringFrom statement (index vm)))
    in *.
  destruct (cli_fold_emits cols e line ms [] false (countProcessed r))
    as [outs [om' [r' [E Hemit]]]].
  pose proof (cli_fold_quiet cols e line ms _ _ _ _ _ _ E) as [Ho _].
  rewrite E. cbn [app].
  assert (Hfield : contains (text m) (nth j (cliFields m) [])).
  { apply (cli_field_in_tuple false Cli.valueSetRegex
             (substringFrom statement (index vm))); [|exact Hj].
    apply (nth_error_In _ _ Hk). }
  destruct om'.
  - eexists. split; [cbn; rewrite Ho; reflexivity|].
    destruct (Hemit k m Hk) as [t [Hout Ht]].
    apply contains_after.
    apply (contains_trans _ t).
    + rewrite <- (nth_of_nth_error outs k t (L "undefined") Hout).
      apply cli_reconstruct_contains. fold ms.
      apply nth_error_Some. rewrite Hk. discriminate.
    + destruct Ht as [->|[fields [-> [Hlen Hsame]]]]; [exact Hfield|].
      apply contains_wrap. rewrite <- (Hsame j Hnin).
      apply contains_join. rewrite Hlen. exact Hj.
  - exists statement. split; [cbn; rewrite Ho; reflexivity|].
    eapply contains_trans; [|exact Hfield].
    apply nth_error_In in Hk. apply execLoop_contained in Hk.
    rewrite <- (firstn_skipn (index vm) statement).
    apply contains_after. exact Hk.
Qed.

(** The same in the stream-based program. *)
Lemma stream_statement_keeps_field table cols e statement r valuesPos k m j :
  test true (CliStream.insertRegex table) statement = true ->
  indexOf (toUpperCase statement) (L "VALUES") = Some valuesPos ->
  nth_error (execAll false CliStream.valueSetRegex
               (substringFrom statement (valuesPos + 6))) k = Some m ->
  j < List.length (streamFields m) ->
  ~ In j cols ->
  exists written,
    output (CliStream.processStatement table cols e statement r)
      = output r ++ written
    /\ contains written (nth j (streamFields m) []).
Proof.
  intros Hins Hval Hk Hj Hnin. unfold CliStream.processStatement.
  rewrite Hins, Hval.
  set (ms := execAll false CliStream.valueSetRegex
               (substringFrom statement (valuesPos + 6))) in *.
  destruct (stream_fold_emits cols e ms [] false (countProcessed r))
    as [outs [om' [r' [E [Hl Hemit]]]]].
  pose proof (stream_fold_quiet cols e ms _ _ _ _ _ _ E) as [Ho _].
  rewrite E. cbn [app].
  assert (Hfield : contains (text m) (nth j (streamFields m) [])).
  { apply (stream_field_in_tuple false CliStream.valueSetRegex
             (substringFrom statement (valuesPos + 6))); [|exact Hj].
    apply (nth_error_In _ _ Hk). }
  destruct om'.
  - eexists. split; [cbn; rewrite Ho; reflexivity|].
    destruct (Hemit k m Hk) as [t [Hout Ht]].
    apply contains_before, contains_after.
    apply (contains_after _ _ (L " ")). apply contains_before.
    apply (contains_trans _ t).
    + rewrite <- (nth_of_nth_error outs k t [] Hout).
      apply contains_join. rewrite Hl. fold ms.
      apply nth_error_Some. rewrite Hk. discriminate.
    + destruct Ht as [->|[fields [-> [Hlen Hsame]]]]; [exact Hfield|].
      apply contains_wrap. rewrite <- (Hsame j Hnin).
      apply contains_join. rewrite Hlen. exact Hj.
  - exists (statement ++ [nl]). split; [cbn; rewrite Ho; reflexivity|].
    eapply contains_trans; [|exact Hfield].
    apply nth_error_In in Hk. apply execLoop_contained in Hk.
    rewrite <- (firstn_skipn (valuesPos + 6) statement).
    apply contains_before, contains_after. exact Hk.
Qed.

(** C3: a quoted literal with its quotes doubled (['O''Brien']) is read
    by the tokenizer as part of one field, both characters of each doubled
    quote kept, and alone it is exactly one field; and when that field is
    not at a requested index, the text that either program writes for the
    statement holds the field unchanged: the tuple that the program emits
    is the original text of the tuple or holds the field as it was. *)
Theorem C3_escaped_quote_roundtrip (body : str) :
  (forall st rest,
     inQuotes st = false -> startsWith rest (L "'") = false ->
     parseLoop (sqlLiteral body ++ rest) st =
     parseLoop rest
       (PState (values st) (currentVal st ++ sqlLiteral body) false None))
  /\ parseValues (sqlLiteral body) = [sqlLiteral body]
  /\ (forall cols e line nvs om r m j,
        j < List.length (cliFields m) ->
        nth j (cliFields m) [] = sqlLiteral body ->
        ~ In j cols ->
        exists t om' r',
          Cli.processValueSet cols e line (nvs, om, r) m = (nvs ++ [t], om', r')
          /\ (t = text m \/ contains t (sqlLiteral body)))
  /\ (forall cols e nvs om r m j,
        j < List.length (streamFields m) ->
        nth j (streamFields m) [] = sqlLiteral body ->
        ~ In j cols ->
        exists t om' r',
          CliStream.processValueSet cols e (nvs, om, r) m = (nvs ++ [t], om', r')
          /\ (t = text m \/ contains t (sqlLiteral body)))
  /\ (forall table cols e statement line r valuesMatch k m j,
        search true (Cli.insertRegex table) statement <> None ->
        search true Cli.valuesRegex statement = Some valuesMatch ->
        nth_error (execAll false Cli.valueSetRegex
                     (substringFrom statement (index valuesMatch))) k = Some m ->
        j < List.length (cliFields m) ->
        nth j (cliFields m) [] = sqlLiteral body ->
        ~ In j cols ->
        exists written,
          output (Cli.processStatement table cols e statement line r)
            = output r ++ written
          /\ contains written (sqlLiteral body))
  /\ (forall table cols e statement r valuesPos k m j,
        test true (CliStream.insertRegex table) statement = true ->
        indexOf (toUpperCase statement) (L "VALUES") = Some valuesPos ->
        nth_error (execAll false CliStream.valueSetRegex
                     (substringFrom statement (valuesPos + 6))) k = Some m ->
        j < List.length (streamFields m) ->
        nth j (streamFields m) [] = sqlLiteral body ->
        ~ In j cols ->
        exists written,
          output (CliStream.processStatement table cols e statement r)
            = output r ++ written
          /\ contains written (sqlLiteral body)).
Proof.
  split; [intros st rest; apply parseLoop_literal|].
  split; [apply parseValues_literal|].
  split; [|split; [|split]].
  - intros cols e line nvs om r m j Hj Hnth Hnin.
    destruct (cli_processValueSet_emits cols e line nvs om r m)
      as [t [om' [r' [E Ht]]]].
    exists t, om', r'. split; [exact E|].
    destruct Ht as [->|[fields [-> [Hlen Hsame]]]]; [left; reflexivity|right].
    apply contains_wrap. rewrite <- Hnth, <- (Hsame j Hnin).
    apply contains_join. rewrite Hlen. exact Hj.
  - intros cols e nvs om r m j Hj Hnth Hnin.
    destruct (stream_processValueSet_emits cols e nvs om r m)
      as [t [om' [r' [E Ht]]]].
    exists t, om', r'. split; [exact E|].
    destruct Ht as [->|[fields [-> [Hlen Hsame]]]]; [left; reflexivity|right].
    apply contains_wrap. rewrite <- Hnth, <- (Hsame j Hnin).
    apply contains_join. rewrite Hlen. exact Hj.
  - intros table cols e statement line r valuesMatch k m j H1 H2 H3 Hj Hnth Hnin.
    rewrite <- Hnth.
    apply (cli_statement_keeps_field table cols e statement line r
             valuesMatch k m j H1 H2 H3 Hj Hnin).
  - intros table cols e statement r valuesPos k m j H1 H2 H3 Hj Hnth Hnin.
    rewrite <- Hnth.
    apply (stream_statement_keeps_field table cols e statement r
             valuesPos k m j H1 H2 H3 Hj Hnin).
Qed.

Lemma C3_escaped_quote_roundtrip_witness :
  parseLoop (sqlLiteral (L "O'Brien") ++ L ", 1") pinit =
    parseLoop (L ", 1") (PState [] (L "'O''Brien'") false None)
  /\ exists written,
       output (Cli.processStatement (L "t") [0] zeroEntropy
                 (L "INSERT INTO t VALUES ('x', 'O''Brien');") 1 run0)
         = output run0 ++ written
       /\ contains written (sqlLiteral (L "O'Brien")).
Proof.
  destruct (C3_escaped_quote_roundtrip (L "O'Brien"))
    as [Hloop [_ [_ [_ [Hstatement _]]]]].
  split.
  - apply (Hloop pinit (L ", 1")); reflexivity.
  - eapply (Hstatement (L "t") [0] zeroEntropy
              (L "INSERT INTO t VALUES ('x', 'O''Brien');") 1 run0 _ 0
              obrienTuple 1).
    + vm_compute. discriminate.
    + vm_compute. reflexivity.
    + vm_compute. reflexivity.
    + vm_compute. lia.
    + reflexivity.
    + intros [E|[]]. discriminate E.
Defined.

(** ** Whole runs *)

Example cli_run :
  let r := Cli.processFile (L "t") [1] zeroEntropy
             [L "INSERT INTO t VALUES (1,'a'),"; L "  (2, 7);"; L "SELECT 1;"] in
  output r
  = L "INSERT INTO t VALUES ( 1, '0000000000000000' )," ++ [nl]
    ++ L "  (2, 7);" ++ [nl] ++ L "SELECT 1;" ++ [nl]
  /\ processedStatements r = 2
  /\ successfullyAnonymizedStatements r = 1
  /\ statementsWithSkippedAnonymization r = 1.
Proof. repeat split; vm_compute; reflexivity. Qed.

Example stream_run :
  let r := CliStream.processFile (L "t") [1] zeroEntropy
             [L "INSERT INTO t VALUES (1,'a'),"; [nl] ++ L "  (2, 7);" ++ [nl];
              L "SELECT 1;" ++ [nl]] in
  output r
  = L "INSERT INTO t VALUES (1, '0000000000000000')," ++ [nl; tab]
    ++ L "(2, '0000000000000000');" ++ [nl; nl]
    ++ [nl] ++ L "SELECT 1;" ++ [nl]
  /\ processedStatements r = 2
  /\ successfullyAnonymizedStatements r = 1.
Proof. repeat split; vm_compute; reflexivity. Qed.

(** ** The classifier *)

Lemma matches_lits_self (s : str) :
  forall p rest0 caps0,
    matches true (lits s) (MState p (s ++ rest0) caps0)
      (MState (p + List.length s) rest0 caps0).
Proof.
  induction s as [|c s IH]; intros p rest0 caps0.
  - simpl. rewrite Nat.add_0_r. constructor.
  - cbn [lits fold_right]. eapply M_Seq.
    + apply (M_Chr true c c (s ++ rest0) (MState p (c :: s ++ rest0) caps0));
        [reflexivity|]. unfold chr_match. apply ch_eqb_refl.
    + replace (p + List.length (c :: s)) with (S p + List.length s)
        by (simpl; lia).
      apply IH.
Qed.

Lemma matches_space (p : nat) (rest0 : str) caps0 :
  matches true (plus true ws) (MState p (" "%char :: rest0) caps0)
    (MState (S p) rest0 caps0).
Proof.
  unfold plus. eapply M_Seq; [|apply M_Star0].
  apply (M_Cls true false [CSpace] " "%char rest0
           (MState p (" "%char :: rest0) caps0)); reflexivity.
Qed.

(** The pattern of the line-based program takes any text without
    semicolon and parenthesis that follows the table name as part of an
    optional clause: a statement for a table with a longer name is a
    target. *)
Lemma cli_matches_longer_names (table extra : str) :
  Forall (fun c => cls_match true true
                     [CChar ";"%char; CChar "("%char; CChar ")"%char] c = true)
    extra ->
  test true (Cli.insertRegex table)
    (L "INSERT INTO " ++ table ++ extra ++ L " VALUES (") = true.
Proof.
  intro Hextra. unfold test, search. rewrite searchFrom_eq.
  destruct (rmatch true (Cli.insertRegex table)
              (MState 0 (L "INSERT INTO " ++ table ++ extra ++ L " VALUES (") [])
              (fun st => Some st)) as [st|] eqn:E; [reflexivity|].
  exfalso.
  assert (M : matches true (Cli.insertRegex table)
                (MState 0 (L "INSERT INTO " ++ table ++ extra ++ L " VALUES (") [])
                (MState (12 + List.length table + List.length extra + 9) [] [])).
  { unfold Cli.insertRegex. cbn [seqs fold_right].
    eapply M_Seq; [apply (matches_lits_self (L "INSERT") 0)|].
    eapply M_Seq; [apply matches_space|].
    eapply M_Seq; [apply (matches_lits_self (L "INTO"))|].
    eapply M_Seq; [apply matches_space|].
    eapply M_Seq; [apply M_AltR; apply M_Eps|].
    eapply M_Seq; [apply (matches_lits_self table)|].
    eapply M_Seq; [apply M_Star0|].
    eapply M_Seq; [apply M_AltR; apply M_Eps|].
    eapply M_Seq.
    { apply M_AltL. cbn [seqs fold_right]. eapply M_Seq.
      - apply M_AltR. apply M_AltR.
        apply (matches_star_cls true false true _ extra Hextra).
      - eapply M_Seq; [apply matches_space|apply M_Eps]. }
    eapply M_Seq; [apply (matches_lits_self (L "VALUES"))|].
    eapply M_Seq.
    { apply (matches_star_cls true true false [CSpace] (L " ")).
      repeat constructor. }
    eapply M_Seq.
    { apply (M_Chr true "("%char "("%char []); reflexivity. }
    unfold step1. cbn [pos rest caps].
    match goal with
    | |- matches _ Eps ?a ?b => replace b with a; [constructor|]
    end.
    f_equal. simpl. lia. }
  pose proof (rmatch_complete true _ _ _ E _ M) as H. discriminate H.
Qed.

Example cli_matches_users_for_user :
  test true (Cli.insertRegex (L "user"))
    (L "INSERT INTO " ++ L "user" ++ L "s" ++ L " VALUES (") = true.
Proof. apply cli_matches_longer_names. repeat constructor. Qed.

Lemma searchFrom_lang ic r (s : str) :
  forall p m, searchFrom ic r p s = Some m ->
  exists a w b, s = a ++ w ++ b /\ lang ic r w.
Proof.
  assert (Here : forall p s st,
            rmatch ic r (MState p s []) (fun st => Some st) = Some st ->
            exists w b, s = w ++ b /\ lang ic r w).
  { intros p s0 st E. apply rmatch_sound in E. destruct E as [st' [M E]].
    apply matches_lang in M. destruct M as [w [Hw1 [_ Hw3]]].
    exists w, (rest st'). split; [exact Hw1|exact Hw3]. }
  induction s as [|x s IH]; intros p m H; rewrite searchFrom_eq in H.
  - destruct (rmatch ic r (MState p [] []) (fun st => Some st)) as [st|] eqn:E;
      [|discriminate H].
    destruct (Here _ _ _ E) as [w [b [Hs Hw]]]. exists [], w, b. auto.
  - destruct (rmatch ic r (MState p (x :: s) []) (fun st => Some st))
      as [st|] eqn:E.
    + destruct (Here _ _ _ E) as [w [b [Hs Hw]]]. exists [], w, b. auto.
    + destruct (IH _ _ H) as [a [w [b [Hs Hw]]]].
      exists (x :: a), w, b. rewrite Hs. auto.
Qed.

Lemma lang_lits (t : str) :
  forall name, lang true (lits t) name -> toUpperCase name = toUpperCase t.
Proof.
  induction t as [|c t IH]; intros name H.
  - simpl in H. subst name. reflexivity.
  - cbn [lits fold_right] in H. destruct H as [u [v [-> [[x [-> Hx]] Hv]]]].
    unfold chr_match in Hx. apply ch_eqb_eq in Hx.
    simpl. rewrite Hx. f_equal. apply IH. exact Hv.
Qed.

Lemma upper_dot (x : ascii) : upper "."%char = upper x -> x = "."%char.
Proof.
  destruct x as [[] [] [] [] [] [] [] []]; vm_compute; intro H;
    solve [reflexivity | discriminate H].
Qed.

Lemma lang_plus_ws (u : str) :
  lang true (plus true ws) u ->
  exists u0 b, u = u0 ++ [b] /\ isWhiteSpace b = true.
Proof.
  intros [x [v [-> [[y [-> Hy]] Hv]]]].
  assert (Hall : Forall (fun c => isWhiteSpace c = true) ([y] ++ v)).
  { apply Forall_app. split.
    - constructor; [|constructor]. unfold cls_match in Hy. simpl in Hy.
      rewrite orb_false_r in Hy. exact Hy.
    - destruct Hv as [ws0 [-> Hws]]. clear - Hws.
      induction Hws as [|w ws0 [z [-> Hz]] _ IH]; simpl; [constructor|].
      constructor; [|exact IH]. unfold cls_match in Hz. simpl in Hz.
      rewrite orb_false_r in Hz. exact Hz. }
  destruct (exists_last (l := [y] ++ v)) as [u0 [b Hb]]; [discriminate|].
  exists u0, b. split; [exact Hb|].
  rewrite Hb in Hall. apply Forall_app in Hall. destruct Hall as [_ Hall].
  inversion Hall; assumption.
Qed.

(** The pattern of the stream-based program matches the table name as a
    whole word: in a target statement the name (in any case) stands after
    white space or after the dot of a schema, and white space follows it. *)
Lemma stream_target_exact (table statement : str) :
  test true (CliStream.insertRegex table) statement = true ->
  exists pre b name sp post,
    statement = (pre ++ [b]) ++ name ++ sp :: post
    /\ toUpperCase name = toUpperCase table
    /\ (isWhiteSpace b = true \/ b = "."%char)
    /\ isWhiteSpace sp = true.
Proof.
  unfold test, search. intro H.
  destruct (searchFrom true (CliStream.insertRegex table) 0 statement)
    as [m|] eqn:E; [clear H|discriminate H].
  apply searchFrom_lang in E. destruct E as [a [w [z [Hs Hw]]]].
  unfold CliStream.insertRegex in Hw. cbn [seqs fold_right] in Hw.
  destruct Hw as [u0 [v0 [-> [_ Hw]]]].
  destruct Hw as [u1 [v1 [-> [_ Hw]]]].
  destruct Hw as [u2 [v2 [-> [_ Hw]]]].
  destruct Hw as [u3 [v3 [-> [_ Hw]]]].
  destruct Hw as [u4 [v4 [-> [_ Hw]]]].
  destruct Hw as [u5 [v5 [-> [H5 Hw]]]].
  destruct Hw as [u6 [v6 [-> [H6 Hw]]]].
  destruct Hw as [name [v7 [-> [Hname Hw]]]].
  destruct Hw as [u8 [v8 [-> [H8 _]]]].
  apply lang_lits in Hname.
  destruct H8 as [x8 [y8 [-> [[sp [-> Hsp]] _]]]].
  unfold cls_match in Hsp. simpl in Hsp. rewrite orb_false_r in Hsp.
  apply lang_plus_ws in H5. destruct H5 as [w5 [b5 [-> Hb5]]].
  destruct H6 as [H6|H6].
  - cbn [seqs fold_right] in H6.
    destruct H6 as [q1 [q2 [-> [_ [q3 [q4 [-> [[dot [-> Hdot]] ->]]]]]]]].
    unfold chr_match in Hdot. apply ch_eqb_eq, upper_dot in Hdot.
    subst dot.
    exists (a ++ u0 ++ u1 ++ u2 ++ u3 ++ u4 ++ (w5 ++ [b5]) ++ q1), "."%char,
      name, sp, (y8 ++ v8 ++ z).
    split; [|auto]. rewrite Hs. rewrite <- !app_assoc. reflexivity.
  - simpl in H6. subst u6.
    exists (a ++ u0 ++ u1 ++ u2 ++ u3 ++ u4 ++ w5), b5,
      name, sp, (y8 ++ v8 ++ z).
    split; [|auto]. rewrite Hs. rewrite <- !app_assoc. reflexivity.
Qed.

(** ** The tokenizer on its own output *)

Lemma parseLoop_values_grow (s : str) (st : pstate) :
  List.length (values st) <= List.length (values (parseLoop s st)).
Proof.
  destruct (parseLoop_progress s st) as [[H _]|H]; [rewrite H|]; lia.
Qed.

Lemma parseLoop_nil (st : pstate) : parseLoop [] st = st.
Proof. reflexivity. Qed.

Lemma grown_not_same (s : str) (v : list str) (t c : str) (b : bool)
  (q : option ascii) :
  values (parseLoop s (PState (v ++ [t]) c b q)) = v -> False.
Proof.
  intro H.
  pose proof (parseLoop_values_grow s (PState (v ++ [t]) c b q)) as G.
  rewrite H in G. cbn [values] in G. rewrite length_app in G. simpl in G. lia.
Qed.

Lemma pstateAt_true (v : list str) (c : str) :
  PState v c true (Some quote) = pstateAt v c true.
Proof. reflexivity. Qed.

Lemma pstateAt_false (v : list str) (c : str) :
  PState v c false None = pstateAt v c false.
Proof. reflexivity. Qed.

(** Reading a text that closes no field moves the text to the current
    field, whatever was there. *)
Lemma parseLoop_plain (f : list ascii) :
  forall b v c v0 c0,
    values (parseLoop f (pstateAt v0 c0 b)) = v0 ->
    parseLoop f (pstateAt v c b)
    = pstateAt v (c ++ f) (inQuotes (parseLoop f (pstateAt v0 c0 b))).
Proof.
  induction f as [| x | x y f IH0 IH1] using list_pair_ind; intros b v c v0 c0 H.
  - simpl. rewrite app_nil_r. destruct b; reflexivity.
  - revert H. rewrite !parseLoop_cons. destruct b;
      destruct (ch_eqb x quote) eqn:Ex; destruct (ch_eqb x comma) eqn:Ec;
      cbn [pstateAt inQuotes quoteChar values currentVal negb andb quoteIs];
      rewrite ?ch_eqb_refl; cbn [andb]; rewrite ?parseLoop_nil;
      intro H; try reflexivity.
    exfalso. exact (grown_not_same [] _ _ _ _ _ H).
  - revert H. rewrite (parseLoop_cons x (y :: f)), (parseLoop_cons x (y :: f)).
    destruct b; destruct (ch_eqb x quote) eqn:Ex;
      destruct (ch_eqb x comma) eqn:Ec;
      cbn [pstateAt inQuotes quoteChar values currentVal negb andb quoteIs];
      rewrite ?ch_eqb_refl; cbn [andb];
      try (destruct (ch_eqb y quote) eqn:Ey);
      intro H;
      try (exfalso; exact (grown_not_same _ _ _ _ _ _ H));
      rewrite ?pstateAt_true, ?pstateAt_false in *;
      repeat match goal with
             | E : ch_eqb _ quote = true |- _ => apply ch_eqb_eq in E; subst
             end;
      first [ rewrite (IH0 _ v _ v0 _ H) | rewrite (IH1 _ v _ v0 _ H) ];
      rewrite <- app_assoc; reflexivity.
Qed.

Lemma plain_state (b : bool) (f : str) (v : list str) (c : str) :
  plain b f ->
  parseLoop f (pstateAt v c b) = pstateAt v (c ++ f) (quotedAfter b f).
Proof. intro H. apply (parseLoop_plain f b v c [] [] H). Qed.

Lemma plain_from (b : bool) (f : str) (v : list str) (c : str) :
  values (parseLoop f (pstateAt v c b)) = v -> plain b f.
Proof.
  intro H. unfold plain.
  rewrite (parseLoop_plain f b [] [] v c H). destruct (inQuotes _); reflexivity.
Qed.

Lemma quotedAfter_from (b : bool) (f : str) (v : list str) (c : str) :
  plain b f -> inQuotes (parseLoop f (pstateAt v c b)) = quotedAfter b f.
Proof.
  intro H. rewrite (plain_state b f v c H). destruct (quotedAfter b f); reflexivity.
Qed.

(** The rounds of the loop, from a state of the tokenizer. *)
Lemma step_open (t : str) (v : list str) (c : str) :
  parseLoop (quote :: t) (pstateAt v c false)
  = parseLoop t (pstateAt v (c ++ [quote]) true).
Proof. apply parseLoop_open. reflexivity. Qed.

Lemma step_escaped (t : str) (v : list str) (c : str) :
  parseLoop (quote :: quote :: t) (pstateAt v c true)
  = parseLoop t (pstateAt v (c ++ [quote; quote]) true).
Proof. apply parseLoop_escaped. Qed.

Lemma step_close (t : str) (v : list str) (c : str) :
  startsWith t (L "'") = false ->
  parseLoop (quote :: t) (pstateAt v c true)
  = parseLoop t (pstateAt v (c ++ [quote]) false).
Proof. apply parseLoop_close. Qed.

Lemma step_comma (t : str) (v : list str) (c : str) :
  parseLoop (comma :: t) (pstateAt v c false)
  = parseLoop t (pstateAt (v ++ [trim c]) [] false).
Proof. apply parseLoop_comma. reflexivity. Qed.

Lemma step_other (x : ascii) (t : str) (v : list str) (c : str) (b : bool) :
  x <> quote -> (x <> comma \/ b = true) ->
  parseLoop (x :: t) (pstateAt v c b) = parseLoop t (pstateAt v (c ++ [x]) b).
Proof.
  intros Hq Hc. apply ch_eqb_neq in Hq. rewrite parseLoop_cons.
  cbn [pstateAt inQuotes quoteChar values currentVal]. rewrite Hq. cbn [andb].
  destruct Hc as [Hc| ->].
  - apply ch_eqb_neq in Hc. rewrite Hc. reflexivity.
  - rewrite andb_false_r. reflexivity.
Qed.

Lemma white_not_quote (c : ascii) : isWhiteSpace c = true -> c <> quote.
Proof. intros H E. subst c. discriminate H. Qed.

(** White space goes to the current field. *)
Lemma parseLoop_white (a : str) :
  Forall (fun c => isWhiteSpace c = true) a ->
  forall t v c b,
    parseLoop (a ++ t) (pstateAt v c b) = parseLoop t (pstateAt v (c ++ a) b).
Proof.
  induction 1 as [|x a Hx _ IH]; intros t v c b.
  - rewrite app_nil_r. reflexivity.
  - cbn [app]. rewrite step_other.
    + rewrite IH, <- app_assoc. reflexivity.
    + apply white_not_quote. exact Hx.
    + left. apply white_not_comma. exact Hx.
Qed.

Lemma trimStart_parts (s : str) :
  exists a, s = a ++ trimStart s /\ Forall (fun c => isWhiteSpace c = true) a.
Proof.
  induction s as [|x s [a [E Ha]]].
  - exists []. split; [reflexivity | constructor].
  - cbn [trimStart]. destruct (isWhiteSpace x) eqn:Hx.
    + exists (x :: a). split; [cbn [app]; f_equal; exact E|].
      constructor; assumption.
    + exists []. split; [reflexivity | constructor].
Qed.

Lemma trimStart_starts (s : str) :
  match trimStart s with
  | [] => True
  | c :: _ => isWhiteSpace c = false
  end.
Proof.
  induction s as [|x s IH]; [exact I|]. cbn [trimStart].
  destruct (isWhiteSpace x) eqn:Hx; [exact IH | exact Hx].
Qed.

Lemma trimStart_fixed (s : str) :
  match s with [] => True | c :: _ => isWhiteSpace c = false end ->
  trimStart s = s.
Proof. destruct s as [|c s]; [reflexivity|]. intro H. simpl. rewrite H. reflexivity. Qed.

Lemma trimStart_idem (s : str) : trimStart (trimStart s) = trimStart s.
Proof. apply trimStart_fixed, trimStart_starts. Qed.

Lemma trimStart_white (a s : str) :
  Forall (fun c => isWhiteSpace c = true) a -> trimStart (a ++ s) = trimStart s.
Proof.
  induction 1 as [|x a Hx _ IH]; [reflexivity|]. cbn [app trimStart].
  rewrite Hx. exact IH.
Qed.

Lemma Forall_rev_white (a : str) :
  Forall (fun c => isWhiteSpace c = true) a ->
  Forall (fun c => isWhiteSpace c = true) (rev a).
Proof.
  intro H. apply Forall_forall. intros x Hx. apply in_rev in Hx.
  exact (proj1 (Forall_forall _ _) H x Hx).
Qed.

Lemma trimEnd_parts (s : str) :
  exists z, s = trimEnd s ++ z /\ Forall (fun c => isWhiteSpace c = true) z.
Proof.
  destruct (trimStart_parts (rev s)) as [a [E Ha]].
  exists (rev a). split; [|apply Forall_rev_white; exact Ha].
  unfold trimEnd. rewrite <- rev_app_distr, <- E. symmetry. apply rev_involutive.
Qed.

(** A text is its trim between two runs of white space. *)
Lemma trim_parts (s : str) :
  exists a z, s = a ++ trim s ++ z
    /\ Forall (fun c => isWhiteSpace c = true) a
    /\ Forall (fun c => isWhiteSpace c = true) z.
Proof.
  destruct (trimStart_parts s) as [a [E Ha]].
  destruct (trimEnd_parts (trimStart s)) as [z [E' Hz]].
  exists a, z. split; [|split; assumption].
  unfold trim. rewrite <- E'. exact E.
Qed.

Lemma trimEnd_idem (s : str) : trimEnd (trimEnd s) = trimEnd s.
Proof.
  unfold trimEnd. rewrite rev_involutive, trimStart_idem. reflexivity.
Qed.

Lemma trimEnd_keeps_head (c : ascii) (m : str) :
  isWhiteSpace c = false -> exists u, trimEnd (c :: m) = c :: u.
Proof.
  intro H. unfold trimEnd. cbn [rev].
  destruct (trimStart_snoc (rev m) c H) as [u E]. rewrite E.
  exists (rev u). rewrite rev_app_distr. reflexivity.
Qed.

Lemma trim_idem (s : str) : trim (trim s) = trim s.
Proof.
  unfold trim at 1.
  assert (E : trimStart (trim s) = trim s).
  { apply trimStart_fixed. unfold trim.
    pose proof (trimStart_starts s) as H.
    destruct (trimStart s) as [|c m]; [exact I|].
    destruct (trimEnd_keeps_head c m H) as [u ->]. exact H. }
  rewrite E. unfold trim. apply trimEnd_idem.
Qed.

Lemma trim_white (a s : str) :
  Forall (fun c => isWhiteSpace c = true) a -> trim (a ++ s) = trim s.
Proof. intro H. unfold trim. rewrite (trimStart_white a s H). reflexivity. Qed.

Lemma startsWith_quote_prefix (f rest : str) :
  startsWith (f ++ comma :: rest) (L "'") = false ->
  startsWith f (L "'") = false.
Proof.
  destruct f as [|y f]; [reflexivity|]. cbn [app].
  rewrite !startsWith_quote. auto.
Qed.

(** One round of the loop in front of a text split at a comma. *)
Lemma first_field_step (strict : bool) (b b' : bool) (u t : str) :
  (forall w v c, (strict = true -> startsWith w (L "'") = false) ->
     parseLoop (u ++ w) (pstateAt v c b)
     = parseLoop w (pstateAt v (c ++ u) b')) ->
  (strict = true -> startsWith t (L "'") = false) ->
  (plain b' t
   \/ exists f rest,
        t = f ++ comma :: rest /\ plain b' f /\ quotedAfter b' f = false) ->
  plain b (u ++ t)
  \/ exists f rest,
       u ++ t = f ++ comma :: rest /\ plain b f /\ quotedAfter b f = false.
Proof.
  intros Hstep Ht [Hp | [f [rest [E [Hp Hq]]]]].
  - left. unfold plain. rewrite (Hstep t [] [] Ht).
    rewrite (plain_state b' t [] _ Hp). destruct (quotedAfter b' t); reflexivity.
  - right. exists (u ++ f), rest.
    split; [rewrite E, app_assoc; reflexivity|].
    assert (G : parseLoop (u ++ f) (pstateAt [] [] b)
                = pstateAt [] (([] ++ u) ++ f) false).
    { rewrite Hstep.
      - rewrite (plain_state b' f [] _ Hp), Hq. reflexivity.
      - intro Hs. apply (startsWith_quote_prefix f rest). rewrite <- E.
        exact (Ht Hs). }
    split.
    + unfold plain. rewrite G. reflexivity.
    + unfold quotedAfter. rewrite G. reflexivity.
Qed.

(** Up to the first comma outside the quotes. *)
Lemma first_field (n : nat) :
  forall s b, List.length s <= n ->
    plain b s
    \/ exists f rest,
         s = f ++ comma :: rest /\ plain b f /\ quotedAfter b f = false.
Proof.
  induction n as [|n IH]; intros s b Hn.
  - destruct s; [|simpl in Hn; lia]. left. destruct b; reflexivity.
  - destruct s as [|x t]; [left; destruct b; reflexivity|].
    simpl in Hn. apply le_S_n in Hn.
    destruct (ch_eqb x quote) eqn:Ex.
    + apply ch_eqb_eq in Ex. subst x. destruct b.
      * destruct t as [|y t'].
        -- left. reflexivity.
        -- destruct (ch_eqb y quote) eqn:Ey.
           ++ apply ch_eqb_eq in Ey. subst y.
              apply (first_field_step false true true [quote; quote] t').
              ** intros w v c _. apply step_escaped.
              ** discriminate.
              ** apply IH. simpl in Hn. lia.
           ++ apply (first_field_step true true false [quote] (y :: t')).
              ** intros w v c Hw. apply step_close. apply Hw. reflexivity.
              ** intros _. rewrite startsWith_quote. unfold ch_eqb in *.
                 rewrite Ascii.eqb_sym. exact Ey.
              ** apply IH. exact Hn.
      * apply (first_field_step false false true [quote] t).
        -- intros w v c _. apply step_open.
        -- discriminate.
        -- apply IH. exact Hn.
    + apply ch_eqb_neq in Ex.
      destruct (ch_eqb x comma) eqn:Ec; [destruct b|].
      * apply (first_field_step false true true [x] t).
        -- intros w v c _. apply step_other; [exact Ex | right; reflexivity].
        -- discriminate.
        -- apply IH. exact Hn.
      * apply ch_eqb_eq in Ec. subst x. right. exists [], t.
        split; [reflexivity|]. split; reflexivity.
      * apply ch_eqb_neq in Ec.
        apply (first_field_step false b b [x] t).
        -- intros w v c _. apply step_other; [exact Ex | left; exact Ec].
        -- discriminate.
        -- apply IH. exact Hn.
Qed.

(** Reading up to and over the first comma outside the quotes. *)
Lemma parseLoop_first_field (f rest : str) (b : bool) (v : list str) (c : str) :
  plain b f -> quotedAfter b f = false ->
  parseLoop (f ++ comma :: rest) (pstateAt v c b)
  = parseLoop rest (pstateAt (v ++ [trim (c ++ f)]) [] false).
Proof.
  intros Hp Hq. rewrite (parseLoop_app (comma :: rest) eq_refl).
  rewrite (plain_state b f v c Hp), Hq. apply step_comma.
Qed.

(** Trimming a field changes neither that it closes no field nor where
    it ends. *)
Lemma plain_trim (f : str) :
  plain false f ->
  plain false (trim f) /\ quotedAfter false (trim f) = quotedAfter false f.
Proof.
  intro Hp. destruct (trim_parts f) as [a [z [E [Ha Hz]]]].
  assert (Hz' : startsWith z (L "'") = false).
  { destruct z as [|x z]; [reflexivity|]. rewrite startsWith_quote.
    inversion Hz as [|? ? Hx _]; subst. apply white_not_quote in Hx.
    apply ch_eqb_neq. intro Eq. apply Hx. symmetry. exact Eq. }
  assert (G : parseLoop f (pstateAt [] [] false)
              = parseLoop z (parseLoop (trim f) (pstateAt [] a false))).
  { rewrite E at 1. rewrite (parseLoop_white a Ha).
    rewrite (parseLoop_app z Hz'). reflexivity. }
  assert (Hm : values (parseLoop (trim f) (pstateAt [] a false)) = []).
  { pose proof (parseLoop_values_grow z (parseLoop (trim f) (pstateAt [] a false))) as L1.
    rewrite <- G in L1. unfold plain in Hp. rewrite Hp in L1.
    destruct (values (parseLoop (trim f) (pstateAt [] a false)));
      [reflexivity | simpl in L1; lia]. }
  pose proof (plain_from false (trim f) [] a Hm) as Hp'.
  split; [exact Hp'|].
  unfold quotedAfter at 2. rewrite G.
  rewrite (plain_state false (trim f) [] a Hp').
  pose proof (parseLoop_white z Hz [] [] (a ++ trim f)
                (quotedAfter false (trim f))) as W.
  rewrite app_nil_r in W. rewrite W. destruct (quotedAfter false (trim f)); reflexivity.
Qed.

(** The fields that the loop closes are sealed. *)
Lemma parseLoop_sealed (n : nat) :
  forall s v, List.length s <= n ->
    exists init raw,
      parseLoop s (pstateAt v [] false)
      = pstateAt (v ++ init) raw (quotedAfter false raw)
      /\ Forall sealedField init /\ plain false raw.
Proof.
  induction n as [|n IH]; intros s v Hn.
  - destruct s; [|simpl in Hn; lia]. exists [], [].
    rewrite app_nil_r. split; [reflexivity|]. split; [constructor | reflexivity].
  - destruct (first_field (S n) s false Hn) as [Hp | [f [rest [E [Hp Hq]]]]].
    + exists [], s. rewrite app_nil_r. split; [|split; [constructor | exact Hp]].
      apply (plain_state false s v [] Hp).
    + destruct (IH rest (v ++ [trim f])) as [init [raw [G [Hs Hr]]]].
      { rewrite E, length_app in Hn. simpl in Hn. lia. }
      exists (trim f :: init), raw. split; [|split; [|exact Hr]].
      * rewrite E, (parseLoop_first_field f rest false v [] Hp Hq).
        cbn [app]. rewrite G, <- app_assoc. reflexivity.
      * constructor; [|exact Hs].
        destruct (plain_trim f Hp) as [H1 H2].
        split; [apply trim_idem|]. split; [exact H1 | congruence].
Qed.

Lemma parseValues_rejoinable (s : str) : rejoinable (parseValues s).
Proof.
  destruct (parseLoop_sealed (List.length s) s [] (le_n _))
    as [init [raw [G [Hs Hr]]]].
  exists init, (trim raw). split; [|split; [exact Hs|split]].
  - rewrite parseValues_pushes. change pinit with (pstateAt [] [] false).
    rewrite G. destruct (quotedAfter false raw); reflexivity.
  - apply trim_idem.
  - apply (plain_trim raw Hr).
Qed.

Lemma token_sealed (e : entropy) (p : nat) :
  sealedField (fst (generateRandomQuotedString e p)).
Proof.
  rewrite token_is_literal. split; [apply trim_sqlLiteral|].
  unfold plain, quotedAfter. change (pstateAt [] [] false) with pinit.
  rewrite parseLoop_literal_alone. split; reflexivity.
Qed.

Lemma keptOrToken_rejoinable (e : entropy) (fs new : list str) :
  Forall2 (keptOrToken e) fs new -> rejoinable fs -> rejoinable new.
Proof.
  intros HF [init [last [E [Hs [Ht Hp]]]]]. subst fs.
  apply Forall2_app_inv_l in HF.
  destruct HF as [init' [last' [Hi [Hl E']]]].
  inversion Hl as [|? last2 ? rest Hk Hnil]; subst. inversion Hnil; subst.
  exists init', last2. split; [reflexivity|]. split.
  - clear - Hi Hs. induction Hi as [|a b l l' Hab _ IH]; [constructor|].
    inversion Hs; subst. constructor; [|apply IH; assumption].
    destruct Hab as [-> | [p ->]]; [assumption | apply token_sealed].
  - destruct Hk as [-> | [p ->]]; [split; assumption|].
    destruct (token_sealed e p) as [H1 [H2 _]]. split; assumption.
Qed.

(** Reading the joined fields: every sealed field is closed by its comma,
    the blank after the comma is trimmed away. *)
Lemma parseLoop_join (init : list str) :
  Forall sealedField init ->
  forall last v w,
    Forall (fun c => isWhiteSpace c = true) w ->
    exists w',
      parseLoop (join (L ", ") (init ++ [last])) (pstateAt v w false)
      = parseLoop last (pstateAt (v ++ init) w' false)
      /\ Forall (fun c => isWhiteSpace c = true) w'.
Proof.
  induction 1 as [|f init [Ht [Hp Hq]] _ IH]; intros last v w Hw.
  - exists w. rewrite app_nil_r. split; [reflexivity | exact Hw].
  - assert (E : join (L ", ") ((f :: init) ++ [last])
                = f ++ comma :: L " " ++ join (L ", ") (init ++ [last])).
    { cbn [app]. destruct init; reflexivity. }
    rewrite E, (parseLoop_first_field f _ false v w Hp Hq).
    rewrite (parseLoop_white (L " ")) by (repeat constructor).
    destruct (IH last (v ++ [trim (w ++ f)]) ([] ++ L " ")) as [w' [G Hw']];
      [repeat constructor|].
    exists w'. rewrite G, (trim_white w f Hw), Ht, <- app_assoc.
    split; [reflexivity | exact Hw'].
Qed.

Lemma parseValues_join (fs : list str) :
  rejoinable fs -> parseValues (join (L ", ") fs) = fs.
Proof.
  intros [init [last [E [Hs [Ht Hp]]]]]. subst fs.
  rewrite parseValues_pushes. change pinit with (pstateAt [] [] false).
  destruct (parseLoop_join init Hs last [] [] (Forall_nil _)) as [w [G Hw]].
  rewrite G, (plain_state false last _ w Hp).
  assert (F : forall b, values (pstateAt ([] ++ init) (w ++ last) b) = init
              /\ currentVal (pstateAt ([] ++ init) (w ++ last) b) = w ++ last)
    by (intro b; split; reflexivity).
  destruct (F (quotedAfter false last)) as [F1 F2]. rewrite F1, F2.
  rewrite (trim_white w last Hw), Ht. reflexivity.
Qed.

(** X1: the tokenizer reads its own output back.  When the fields of any
    tuple interior are kept or replaced by tokens and joined with a comma
    and a blank, as lines 334 and 682 do, [parseValues] of the joined text
    gives exactly these fields: no field is split, merged or changed, even
    when the last field ends inside an unclosed quoted string. *)
Theorem X1_fields_read_back (e : entropy) (s : str) (new : list str) :
  Forall2 (keptOrToken e) (parseValues s) new ->
  parseValues (join (L ", ") new) = new.
Proof.
  intro H. apply parseValues_join.
  apply (keptOrToken_rejoinable e (parseValues s) new H).
  apply parseValues_rejoinable.
Qed.

Lemma X1_fields_read_back_witness :
  parseValues (L "1 ,'a, b'  , 'it''s") = [L "1"; L "'a, b'"; L "'it''s"]
  /\ parseValues
       (join (L ", ")
          [L "1"; fst (generateRandomQuotedString zeroEntropy 0); L "'it''s"])
     = [L "1"; fst (generateRandomQuotedString zeroEntropy 0); L "'it''s"].
Proof.
  split; [reflexivity|].
  apply (X1_fields_read_back zeroEntropy (L "1 ,'a, b'  , 'it''s")).
  change (parseValues (L "1 ,'a, b'  , 'it''s"))
    with [L "1"; L "'a, b'"; L "'it''s"].
  constructor; [left; reflexivity|].
  constructor; [right; exists 0; reflexivity|].
  constructor; [left; reflexivity | constructor].
Defined.

Lemma parseLoop_unquoted (s : str) :
  ~ In quote s ->
  forall v c,
    values (parseLoop s (pstateAt v c false))
      ++ [trim (currentVal (parseLoop s (pstateAt v c false)))]
    = v ++ match split s comma with
           | p :: ps => trim (c ++ p) :: map trim ps
           | [] => []
           end.
Proof.
  induction s as [|x s IH]; intros Hq v c.
  - simpl. rewrite app_nil_r. reflexivity.
  - assert (Hx : x <> quote) by (intro E; apply Hq; left; exact E).
    assert (Hs : ~ In quote s) by (intro E; apply Hq; right; exact E).
    cbn [split]. destruct (ch_eqb x comma) eqn:Ec.
    + apply ch_eqb_eq in Ec. subst x. rewrite step_comma, (IH Hs).
      pose proof (split_nonempty s comma) as Hne.
      destruct (split s comma) as [|p ps]; [contradiction|].
      rewrite app_nil_r, <- app_assoc. reflexivity.
    + apply ch_eqb_neq in Ec. rewrite step_other by (auto).
      rewrite (IH Hs).
      pose proof (split_nonempty s comma) as Hne.
      destruct (split s comma) as [|p ps]; [contradiction|].
      rewrite <- app_assoc. reflexivity.
Qed.

(** X2: on a text without a quote character the tokenizer is a plain
    split: the fields are the parts between the commas, each trimmed. *)
Theorem X2_unquoted_fields_are_split (s : str) :
  ~ In quote s -> parseValues s = map trim (split s comma).
Proof.
  intro Hq. rewrite parseValues_pushes. change pinit with (pstateAt [] [] false).
  rewrite (parseLoop_unquoted s Hq [] []).
  destruct (split s comma); reflexivity.
Qed.

Lemma X2_unquoted_fields_are_split_witness :
  parseValues (L " 1, NULL ,, x y ") = [L "1"; L "NULL"; L ""; L "x y"].
Proof.
  rewrite (X2_unquoted_fields_are_split (L " 1, NULL ,, x y ")).
  - reflexivity.
  - intro H. repeat (destruct H as [H|H]; [discriminate H|]). exact H.
Defined.

Lemma parseLoop_in_quotes (body : str) :
  ~ In quote body ->
  forall v c,
    parseLoop body (pstateAt v c true) = pstateAt v (c ++ body) true.
Proof.
  induction body as [|x body IH]; intros Hq v c.
  - rewrite app_nil_r. reflexivity.
  - rewrite step_other.
    + rewrite IH, <- app_assoc; [reflexivity|].
      intro E. apply Hq. right. exact E.
    + intro E. apply Hq. left. exact E.
    + right. reflexivity.
Qed.

(** X3: a quote that is never closed takes the rest of the interior: after
    a comma outside the quotes, an opening quote with no further quote
    character makes everything up to the end one field, commas
    included. *)
Theorem X3_unclosed_quote_takes_rest (s body : str) :
  inQuotes (parseLoop s pinit) = false ->
  ~ In quote body ->
  parseValues (s ++ comma :: quote :: body)
  = parseValues s ++ [trim (quote :: body)].
Proof.
  intros Hs Hb. rewrite !parseValues_pushes.
  rewrite (parseLoop_app (comma :: quote :: body) eq_refl s pinit).
  rewrite (parseLoop_comma _ _ Hs).
  destruct (parseLoop s pinit) as [v c b q]. cbn [inQuotes] in Hs. subst b.
  cbn [values currentVal quoteChar].
  rewrite parseLoop_open by reflexivity. cbn [values currentVal].
  rewrite pstateAt_true, (parseLoop_in_quotes body Hb). reflexivity.
Qed.

Lemma X3_unclosed_quote_takes_rest_witness :
  parseValues (L "1,'a, b, c") = [L "1"; L "'a, b, c"].
Proof.
  apply (X3_unclosed_quote_takes_rest (L "1") (L "a, b, c")).
  - reflexivity.
  - intro H. repeat (destruct H as [H|H]; [discriminate H|]). exact H.
Defined.

(** ** A token of any length *)

Lemma ceilHalf_bounds (n : nat) : n <= 2 * ceilHalf n <= n + 1.
Proof.
  unfold ceilHalf.
  pose proof (Nat.div_mod_eq (n + 1) 2) as E.
  pose proof (Nat.mod_upper_bound (n + 1) 2) as B. lia.
Qed.

(** X4: [generateRandomQuotedString(length)] for any length: the token is
    a quote, exactly [length] lowercase hexadecimal digits and a quote; it
    draws [ceil(length / 2)] bytes, the fewest that give so many digits;
    and the tokenizer reads the token as one field. *)
Theorem X4_token_of_any_length (length : nat) (e : entropy) (p : nat) :
  let token := fst (generateRandomQuotedStringLen length e p) in
  (exists hex, token = quote :: hex ++ [quote]
     /\ List.length hex = length
     /\ Forall (fun c => isLowerHex c = true) hex)
  /\ snd (generateRandomQuotedStringLen length e p) = p + ceilHalf length
  /\ length <= 2 * ceilHalf length <= length + 1
  /\ parseValues token = [token].
Proof.
  intro token.
  set (hex := firstn length (toHex (randomBytes e p (ceilHalf length)))).
  assert (Ht : token = quote :: hex ++ [quote]) by reflexivity.
  assert (Hlow : Forall (fun c => isLowerHex c = true) hex)
    by (apply Forall_firstn, toHex_lower).
  split; [|split; [|split]].
  - exists hex. split; [exact Ht|]. split; [|exact Hlow].
    unfold hex. rewrite length_firstn, toHex_length, randomBytes_length.
    pose proof (ceilHalf_bounds length). lia.
  - reflexivity.
  - apply ceilHalf_bounds.
  - rewrite Ht.
    assert (E : quote :: hex ++ [quote] = sqlLiteral hex).
    { unfold sqlLiteral. rewrite sqlEscape_plain; [reflexivity|].
      eapply Forall_impl; [|exact Hlow]. intros c Hc. apply (lowerHex_plain c Hc). }
    rewrite E. apply parseValues_literal.
Qed.

Example token_of_five :
  show (fst (generateRandomQuotedStringLen 5 someEntropy 0)) = "'0b305'"%string
  /\ snd (generateRandomQuotedStringLen 5 someEntropy 0) = 3.
Proof. split; reflexivity. Qed.

(** ** Warnings and entropy of one tuple *)

Lemma maxIndexOf_bound (cols : list nat) (j : nat) :
  In j cols -> (Z.of_nat j <= maxIndexOf cols)%Z.
Proof.
  intro Hin. unfold maxIndexOf. destruct cols as [|c cs]; [destruct Hin|].
  apply inj_le.
  assert (G : forall cs a, a <= fold_left Nat.max cs a
              /\ forall x, In x cs -> x <= fold_left Nat.max cs a).
  { clear. induction cs as [|y cs IH]; intro a; simpl.
    - split; [lia|intros x []].
    - destruct (IH (Nat.max a y)) as [H1 H2]. split; [lia|].
      intros x [->|Hx]; [lia|auto]. }
  destruct (G cs c) as [G1 G2]. destruct Hin as [->|Hin]; auto.
Qed.

Lemma wide_enough (cols : list nat) (values : list str) (j : nat) :
  tooNarrow cols values = false -> In j cols -> j < List.length values.
Proof.
  unfold tooNarrow. intros Hn Hin. apply Z.leb_gt in Hn.
  pose proof (maxIndexOf_bound cols j Hin). lia.
Qed.

Lemma sameButCursor_refl (r : run) : sameButCursor r r.
Proof. split; [apply quiet_refl | reflexivity]. Qed.

Lemma sameButCursor_trans (a b c : run) :
  sameButCursor a b -> sameButCursor b c -> sameButCursor a c.
Proof.
  intros [H1 H2] [K1 K2]. split; [eapply quiet_trans; eassumption | congruence].
Qed.

Lemma sameButCursor_setCursor (p : nat) (r : run) :
  sameButCursor r (setCursor p r).
Proof. split; [apply quiet_setCursor | reflexivity]. Qed.

(** The [forEach] of the line-based program over indices within bounds:
    no warning, eight bytes for every hit. *)
Lemma cli_fold_within (e : entropy) (line : nat) (cols : list nat) :
  forall values0 values b r,
    List.length values = List.length values0 ->
    (forall j, cliHit values j = cliHit values0 j) ->
    (forall j, In j cols -> j < List.length values0) ->
    exists values' b' r',
      fold_left (Cli.anonymizeIndex e line) cols (values, b, r) = (values', b', r')
      /\ sameButCursor r r'
      /\ cursor r' = cursor r + 8 * List.length (filter (cliHit values0) cols).
Proof.
  induction cols as [|i cols IH]; intros values0 values b r Hlen Hhit Hin.
  - exists values, b, r. split; [reflexivity|].
    split; [apply sameButCursor_refl | simpl; lia].
  - cbn [fold_left filter]. destruct (cliHit values0 i) eqn:Hi.
    + rewrite cli_step_hit by (rewrite Hhit; exact Hi).
      destruct (IH values0
                  (setAt values i (fst (generateRandomQuotedString e (cursor r))))
                  true
                  (setCursor (snd (generateRandomQuotedString e (cursor r))) r))
        as [values' [b' [r' [E [Hs Hc]]]]].
      * rewrite setAt_length. exact Hlen.
      * intro j. rewrite cli_hit_setAt by (rewrite Hhit; exact Hi). apply Hhit.
      * intros j Hj. apply Hin. right. exact Hj.
      * exists values', b', r'. split; [exact E|]. split.
        -- eapply sameButCursor_trans; [apply sameButCursor_setCursor | exact Hs].
        -- rewrite Hc, token_cursor. cbn [cursor setCursor List.length]. lia.
    + assert (Hb : (i <? List.length values) = true).
      { apply Nat.ltb_lt. rewrite Hlen. apply Hin. left. reflexivity. }
      assert (Hstep : Cli.anonymizeIndex e line (values, b, r) i = (values, b, r)).
      { unfold Cli.anonymizeIndex. rewrite Hb.
        rewrite <- Hhit in Hi. unfold cliHit in Hi. rewrite Hb in Hi.
        cbn [andb] in Hi. rewrite Hi. reflexivity. }
      rewrite Hstep.
      destruct (IH values0 values b r Hlen Hhit) as [values' [b' [r' [E H]]]].
      * intros j Hj. apply Hin. right. exact Hj.
      * exists values', b', r'. split; [exact E | exact H].
Qed.

Lemma stream_fold_within (e : entropy) (cols : list nat) :
  forall n values b r,
    List.length values = n ->
    (forall j, In j cols -> j < n) ->
    exists values' b' r',
      fold_left (CliStream.anonymizeIndex e) cols (values, b, r) = (values', b', r')
      /\ sameButCursor r r'
      /\ cursor r' = cursor r + 8 * List.length cols.
Proof.
  induction cols as [|i cols IH]; intros n values b r Hlen Hin.
  - exists values, b, r. split; [reflexivity|].
    split; [apply sameButCursor_refl | simpl; lia].
  - cbn [fold_left].
    rewrite stream_step_hit
      by (unfold streamHit; apply Nat.ltb_lt; rewrite Hlen; apply Hin; left;
          reflexivity).
    destruct (IH n
                (setAt values i (fst (generateRandomQuotedString e (cursor r))))
                true
                (setCursor (snd (generateRandomQuotedString e (cursor r))) r))
      as [values' [b' [r' [E [Hs Hc]]]]].
    + rewrite setAt_length. exact Hlen.
    + intros j Hj. apply Hin. right. exact Hj.
    + exists values', b', r'. split; [exact E|]. split.
      * eapply sameButCursor_trans; [apply sameButCursor_setCursor | exact Hs].
      * rewrite Hc, token_cursor. cbn [cursor setCursor List.length]. lia.
Qed.

(** What one tuple does to the run, in the line-based program. *)
Lemma cli_processValueSet_run cols e line nvs om r m :
  let r' := snd (Cli.processValueSet cols e line (nvs, om, r) m) in
  quiet r r'
  /\ diagnostics r' = diagnostics r ++ boundsWarning line cols (cliFields m)
  /\ cursor r' = cursor r + 8 * List.length (cliHits cols m).
Proof.
  unfold boundsWarning, cliHits.
  destruct (tooNarrow cols (cliFields m)) eqn:Hn.
  - rewrite (cli_processValueSet_narrow cols e line nvs om r m Hn). cbn [snd].
    split; [apply quiet_warn|]. split; [reflexivity | simpl; lia].
  - destruct (cli_fold_within e line cols (cliFields m) (cliFields m) false r
                eq_refl (fun _ => eq_refl) (fun j => wide_enough cols _ j Hn))
      as [values' [b' [r' [E [[Hq Hd] Hc]]]]].
    unfold Cli.processValueSet. fold (cliFields m).
    fold (tooNarrow cols (cliFields m)). rewrite Hn, E.
    destruct b'; cbn [snd]; (split; [exact Hq|]);
      (split; [rewrite app_nil_r; exact Hd | exact Hc]).
Qed.

Lemma stream_processValueSet_run cols e nvs om r m :
  let r' := snd (CliStream.processValueSet cols e (nvs, om, r) m) in
  quiet r r'
  /\ diagnostics r'
     = diagnostics r ++ boundsWarning (processedStatements r) cols (streamFields m)
  /\ cursor r' = cursor r + 8 * List.length (streamHits cols m).
Proof.
  unfold boundsWarning, streamHits.
  destruct (tooNarrow cols (streamFields m)) eqn:Hn.
  - rewrite (stream_processValueSet_narrow cols e nvs om r m Hn). cbn [snd].
    split; [apply quiet_warn|]. split; [reflexivity | simpl; lia].
  - destruct (stream_fold_within e cols (List.length (streamFields m))
                (streamFields m) false r eq_refl
                (fun j => wide_enough cols _ j Hn))
      as [values' [b' [r' [E [[Hq Hd] Hc]]]]].
    unfold CliStream.processValueSet. fold (streamFields m).
    fold (tooNarrow cols (streamFields m)). rewrite Hn, E.
    destruct b'; cbn [snd]; (split; [exact Hq|]);
      (split; [rewrite app_nil_r; exact Hd | exact Hc]).
Qed.

(** ** Two runs of a driver side by side *)

Section LineDriverPair.

Variables A B : Type.
Variable handleA : str -> nat -> A -> A.
Variable handleB : str -> nat -> B -> B.
Variable onWarnA : diag -> A -> A.
Variable onWarnB : diag -> B -> B.
Variable R : A -> B -> Prop.

Hypothesis handle_related :
  forall statement n a b,
    R a b -> R (handleA statement n a) (handleB statement n b).
Hypothesis onWarn_related :
  forall a b, R a b -> R (onWarnA WarnNoSemicolon a) (onWarnB WarnNoSemicolon b).

Lemma cli_onLine_related (buffer : str) (n : nat) (a : A) (b : B) (line : str) :
  R a b ->
  exists buffer' a' b',
    Cli.onLine A handleA (Cli.Driver A buffer n a) line
      = Cli.Driver A buffer' (S n) a'
    /\ Cli.onLine B handleB (Cli.Driver B buffer n b) line
       = Cli.Driver B buffer' (S n) b'
    /\ R a' b'.
Proof.
  intro Hab. unfold Cli.onLine.
  cbn [Cli.currentStatementBuffer Cli.lineNumber Cli.state].
  destruct (endsWith (trimEnd line) (L ";")).
  - destruct (negb (Cli.sameIndex (indexOfChar line semicolon)
                      (lastIndexOfChar line semicolon))).
    + do 3 eexists. split; [reflexivity|]. split; [reflexivity|].
      generalize (removelast (split (buffer ++ line ++ [nl]) semicolon)).
      intro parts. revert a b Hab.
      induction parts as [|p parts IH]; intros a b Hab; [exact Hab|].
      cbn [fold_left]. apply IH.
      destruct (truthy (trim (p ++ L ";"))); [apply handle_related|]; exact Hab.
    + do 3 eexists. split; [reflexivity|]. split; [reflexivity|].
      apply handle_related. exact Hab.
  - do 3 eexists. split; [reflexivity|]. split; [reflexivity|]. exact Hab.
Qed.

Lemma cli_lines_related (lines : list str) :
  forall buffer n a b,
    R a b ->
    exists buffer' n' a' b',
      fold_left (Cli.onLine A handleA) lines (Cli.Driver A buffer n a)
        = Cli.Driver A buffer' n' a'
      /\ fold_left (Cli.onLine B handleB) lines (Cli.Driver B buffer n b)
         = Cli.Driver B buffer' n' b'
      /\ R a' b'.
Proof.
  induction lines as [|line lines IH]; intros buffer n a b Hab.
  - exists buffer, n, a, b. auto.
  - cbn [fold_left].
    destruct (cli_onLine_related buffer n a b line Hab)
      as [buffer1 [a1 [b1 [Ea [Eb H1]]]]].
    rewrite Ea, Eb. apply IH. exact H1.
Qed.

(** Two handlers that keep a relation between their states keep it over a
    whole run of the line-based driver. *)
Lemma cli_drive_related (lines : list str) (a : A) (b : B) :
  R a b ->
  R (Cli.drive A handleA onWarnA lines a) (Cli.drive B handleB onWarnB lines b).
Proof.
  intro Hab. unfold Cli.drive.
  destruct (cli_lines_related lines [] 0 a b Hab)
    as [buffer [n [a' [b' [Ea [Eb H]]]]]].
  rewrite Ea, Eb. unfold Cli.onClose.
  cbn [Cli.currentStatementBuffer Cli.lineNumber Cli.state].
  destruct (truthy (trim buffer)); [|exact H].
  apply handle_related, onWarn_related. exact H.
Qed.

End LineDriverPair.

Section StreamDriverPair.

Variables A B : Type.
Variable handleA : str -> A -> A.
Variable handleB : str -> B -> B.
Variable R : A -> B -> Prop.

Hypothesis handle_related :
  forall statement a b, R a b -> R (handleA statement a) (handleB statement b).

Lemma stream_drain_related (n : nat) :
  forall buffer a b,
    R a b ->
    fst (CliStream.drain A handleA n buffer a)
    = fst (CliStream.drain B handleB n buffer b)
    /\ R (snd (CliStream.drain A handleA n buffer a))
         (snd (CliStream.drain B handleB n buffer b)).
Proof.
  induction n as [|n IH]; intros buffer a b Hab; [split; [reflexivity|exact Hab]|].
  cbn [CliStream.drain]. destruct (indexOfChar buffer semicolon).
  - apply IH, handle_related. exact Hab.
  - split; [reflexivity | exact Hab].
Qed.

Lemma stream_chunks_related (chunks : list str) :
  forall (x : str * A) (y : str * B),
    fst x = fst y -> R (snd x) (snd y) ->
    fst (fold_left (CliStream.onData A handleA) chunks x)
    = fst (fold_left (CliStream.onData B handleB) chunks y)
    /\ R (snd (fold_left (CliStream.onData A handleA) chunks x))
         (snd (fold_left (CliStream.onData B handleB) chunks y)).
Proof.
  induction chunks as [|chunk chunks IH]; intros x y Hb Hab; [auto|].
  cbn [fold_left].
  destruct (stream_drain_related (List.length (fst y ++ chunk)) (fst y ++ chunk)
              (snd x) (snd y) Hab) as [H1 H2].
  apply IH; unfold CliStream.onData; rewrite Hb; assumption.
Qed.

(** The same for the stream-based driver. *)
Lemma stream_drive_related (chunks : list str) (a : A) (b : B) :
  R a b ->
  R (CliStream.drive A handleA chunks a) (CliStream.drive B handleB chunks b).
Proof.
  intro Hab. unfold CliStream.drive.
  destruct (stream_chunks_related chunks ([], a) ([], b) eq_refl Hab) as [H1 H2].
  unfold CliStream.onEnd. rewrite H1.
  destruct (truthy (trim (fst (fold_left (CliStream.onData B handleB) chunks ([], b)))));
    [apply handle_related|]; exact H2.
Qed.

End StreamDriverPair.

(** ** What one statement does to the run *)

Lemma cli_tuples_run cols e line (ms : list found) :
  forall nvs om r,
    exists nvs' r',
      fold_left (Cli.processValueSet cols e line) ms (nvs, om, r)
        = (nvs', om || existsb (cliReplaces cols) ms, r')
      /\ quiet r r'
      /\ diagnostics r'
         = diagnostics r
           ++ flat_map (fun m => boundsWarning line cols (cliFields m)) ms
      /\ cursor r' = cursor r + 8 * List.length (flat_map (cliHits cols) ms).
Proof.
  induction ms as [|m ms IH]; intros nvs om r.
  - exists nvs, r. cbn. rewrite orb_false_r, app_nil_r.
    split; [reflexivity|]. split; [apply quiet_refl|]. split; [reflexivity | lia].
  - cbn [fold_left existsb flat_map].
    destruct (cli_processValueSet_spec cols e line nvs om r m)
      as [fields [r1 [E _]]].
    pose proof (cli_processValueSet_run cols e line nvs om r m) as [Hq [Hd Hc]].
    rewrite E in Hq, Hd, Hc. cbn [snd] in Hq, Hd, Hc. rewrite E.
    destruct (IH (nvs ++ [if negb (tooNarrow cols (cliFields m))
                             && existsb (cliHit (cliFields m)) cols
                          then L "( " ++ join (L ", ") fields ++ L " )"
                          else text m])
                (om || negb (tooNarrow cols (cliFields m))
                       && existsb (cliHit (cliFields m)) cols) r1)
      as [nvs' [r' [E' [Hq' [Hd' Hc']]]]].
    exists nvs', r'. split.
    + rewrite E'. unfold cliReplaces at 2. rewrite orb_assoc. reflexivity.
    + split; [eapply quiet_trans; eassumption|]. split.
      * rewrite Hd', Hd, <- app_assoc. reflexivity.
      * rewrite Hc', Hc, length_app. lia.
Qed.

Lemma stream_tuples_run cols e (ms : list found) :
  forall nvs om r,
    exists nvs' r',
      fold_left (CliStream.processValueSet cols e) ms (nvs, om, r)
        = (nvs', om || existsb (streamReplaces cols) ms, r')
      /\ quiet r r'
      /\ diagnostics r'
         = diagnostics r
           ++ flat_map (fun m => boundsWarning (processedStatements r) cols
                                   (streamFields m)) ms
      /\ cursor r' = cursor r + 8 * List.length (flat_map (streamHits cols) ms).
Proof.
  induction ms as [|m ms IH]; intros nvs om r.
  - exists nvs, r. cbn. rewrite orb_false_r, app_nil_r.
    split; [reflexivity|]. split; [apply quiet_refl|]. split; [reflexivity | lia].
  - cbn [fold_left existsb flat_map].
    destruct (stream_processValueSet_spec cols e nvs om r m)
      as [fields [r1 [E _]]].
    pose proof (stream_processValueSet_run cols e nvs om r m) as [Hq [Hd Hc]].
    rewrite E in Hq, Hd, Hc. cbn [snd] in Hq, Hd, Hc. rewrite E.
    destruct (IH (nvs ++ [if negb (tooNarrow cols (streamFields m))
                             && existsb (streamHit (streamFields m)) cols
                          then L "(" ++ join (L ", ") fields ++ L ")"
                          else text m])
                (om || negb (tooNarrow cols (streamFields m))
                       && existsb (streamHit (streamFields m)) cols) r1)
      as [nvs' [r' [E' [Hq' [Hd' Hc']]]]].
    assert (Hp : processedStatements r1 = processedStatements r)
      by (apply Hq).
    exists nvs', r'. split.
    + rewrite E'. unfold streamReplaces at 2. rewrite orb_assoc. reflexivity.
    + split; [eapply quiet_trans; eassumption|]. split.
      * rewrite Hd', Hd, Hp, <- app_assoc. reflexivity.
      * rewrite Hc', Hc, length_app. lia.
Qed.

Lemma cli_statement_effect table cols e statement line r :
  cliEffect table cols statement line r
    (Cli.processStatement table cols e statement line r).
Proof.
  unfold Cli.processStatement.
  assert (Skip : cliTuples table statement = [] ->
            cliEffect table cols statement line r
              (countSkipped (write statement (countProcessed r)))).
  { intro E. constructor; intros; unfold cliModifies in *; rewrite ?E; cbn;
      rewrite ?app_nil_r; try reflexivity; lia. }
  destruct (search true (Cli.insertRegex table) statement) as [im|] eqn:Ei;
    [|apply Skip; unfold cliTuples; rewrite Ei; reflexivity].
  destruct (search true Cli.valuesRegex statement) as [vm|] eqn:Ev;
    [|apply Skip; unfold cliTuples; rewrite Ei, Ev; reflexivity].
  assert (Et : cliTuples table statement
               = execAll false Cli.valueSetRegex
                   (substringFrom statement (index vm)))
    by (unfold cliTuples; rewrite Ei, Ev; reflexivity).
  destruct (cli_tuples_run cols e line (cliTuples table statement) [] false
              (countProcessed r)) as [nvs [r1 [E [Hq [Hd Hc]]]]].
  rewrite <- Et, E. cbn [orb]. fold (cliModifies table cols statement).
  destruct Hq as [Ho [Hp [Ha [He Hs]]]].
  destruct (cliModifies table cols statement) eqn:Em; constructor; intros;
    rewrite ?Em in *; cbn;
    rewrite ?Ho, ?Hp, ?Ha, ?He, ?Hs, ?Hd, ?Hc; cbn;
    try reflexivity; try discriminate; lia.
Qed.

Lemma startsWith_app (p b : str) : startsWith (p ++ b) p = true.
Proof.
  induction p as [|x p IH]; [destruct b; reflexivity|].
  cbn [app startsWith]. rewrite ch_eqb_refl. exact IH.
Qed.

Lemma indexOf_eq (s p : str) :
  indexOf s p =
  if startsWith s p then Some 0
  else match s with
       | [] => None
       | _ :: s' => option_map S (indexOf s' p)
       end.
Proof. destruct s; reflexivity. Qed.

Lemma indexOf_contains (s p : str) :
  contains s p -> exists i, indexOf s p = Some i.
Proof.
  intros [a [b E]]. subst s. induction a as [|x a [i IH]].
  - exists 0. rewrite indexOf_eq. cbn [app]. rewrite startsWith_app. reflexivity.
  - rewrite indexOf_eq. destruct (startsWith ((x :: a) ++ p ++ b) p).
    + exists 0. reflexivity.
    + cbn [app]. rewrite IH. exists (S i). reflexivity.
Qed.

Lemma toUpperCase_app (a b : str) :
  toUpperCase (a ++ b) = toUpperCase a ++ toUpperCase b.
Proof. apply map_app. Qed.

(** A statement that the pattern of line 492 matches holds the word
    [VALUES] in some case: the [throw] of line 645 is never reached. *)
Lemma stream_target_has_values (table statement : str) :
  streamTarget table statement = true ->
  exists valuesPos, indexOf (toUpperCase statement) (L "VALUES") = Some valuesPos.
Proof.
  unfold streamTarget, test, search. intro H.
  destruct (searchFrom true (CliStream.insertRegex table) 0 statement)
    as [m|] eqn:E; [clear H|discriminate H].
  apply searchFrom_lang in E. destruct E as [a [w [z [Hs Hw]]]].
  unfold CliStream.insertRegex in Hw. cbn [seqs fold_right] in Hw.
  destruct Hw as [u0 [v0 [-> [_ Hw]]]].
  destruct Hw as [u1 [v1 [-> [_ Hw]]]].
  destruct Hw as [u2 [v2 [-> [_ Hw]]]].
  destruct Hw as [u3 [v3 [-> [_ Hw]]]].
  destruct Hw as [u4 [v4 [-> [_ Hw]]]].
  destruct Hw as [u5 [v5 [-> [_ Hw]]]].
  destruct Hw as [u6 [v6 [-> [_ Hw]]]].
  destruct Hw as [u7 [v7 [-> [_ Hw]]]].
  destruct Hw as [u8 [v8 [-> [_ Hw]]]].
  destruct Hw as [kw [v9 [-> [Hkw _]]]].
  apply lang_lits in Hkw.
  apply indexOf_contains.
  exists (toUpperCase (a ++ u0 ++ u1 ++ u2 ++ u3 ++ u4 ++ u5 ++ u6 ++ u7 ++ u8)),
    (toUpperCase (v9 ++ z)).
  rewrite Hs. change (L "VALUES") with (toUpperCase (L "VALUES")).
  rewrite <- Hkw, <- !toUpperCase_app, <- !app_assoc. reflexivity.
Qed.

Lemma stream_statement_effect table cols e statement r :
  streamEffect table cols statement r
    (CliStream.processStatement table cols e statement r).
Proof.
  unfold CliStream.processStatement. fold (streamTarget table statement).
  destruct (streamTarget table statement) eqn:Et.
  - destruct (stream_target_has_values table statement Et) as [valuesPos Ev].
    assert (Etu : streamTuples statement
                  = execAll false CliStream.valueSetRegex
                      (substringFrom statement (valuesPos + 6)))
      by (unfold streamTuples; rewrite Ev; reflexivity).
    rewrite Ev.
    destruct (stream_tuples_run cols e (streamTuples statement) [] false
                (countProcessed r)) as [nvs [r1 [E [Hq [Hd Hc]]]]].
    rewrite <- Etu, E. cbn [orb].
    destruct Hq as [Ho [Hp [Ha [He Hs]]]].
    destruct (existsb (streamReplaces cols) (streamTuples statement)) eqn:Em;
      constructor; intros; unfold streamModifies in *; rewrite ?Et, ?Em in *;
      cbn;
      rewrite ?Ho, ?Hp, ?Ha, ?He, ?Hs, ?Hd, ?Hc; cbn;
      try reflexivity; try discriminate; lia.
  - constructor; intros; unfold streamModifies in *; rewrite ?Et in *; cbn;
      rewrite ?app_nil_r; try reflexivity; lia.
Qed.

(** ** Whole runs: the summary, the entropy, the warnings *)

Lemma count_snoc (p : str -> bool) (done : list str) (s : str) :
  count p (done ++ [s]) = count p done + (if p s then 1 else 0).
Proof.
  unfold count. rewrite filter_app, length_app. cbn [filter].
  destruct (p s); reflexivity.
Qed.

Lemma boundsWarning_kind (where_ : nat) (cols : list nat) (ms : list found)
  (fields : found -> list str) :
  Forall isBoundsWarning
    (flat_map (fun m => boundsWarning where_ cols (fields m)) ms).
Proof.
  induction ms as [|m ms IH]; [constructor|]. cbn [flat_map].
  apply Forall_app. split; [|exact IH]. unfold boundsWarning.
  destruct (tooNarrow cols (fields m)); [|constructor].
  constructor; [|constructor]. do 3 eexists. reflexivity.
Qed.

Lemma cli_run_step table cols e statement line r done :
  cliRunFacts table cols r done ->
  cliRunFacts table cols (Cli.processStatement table cols e statement line r)
    (done ++ [statement]).
Proof.
  intros [Hp Ha Hs He Hc Hd Ho].
  destruct (cli_statement_effect table cols e statement line r)
    as [Ep Ee Ea Es Eo Ed Ec].
  constructor.
  - rewrite Ep, Hp, length_app. simpl. lia.
  - rewrite Ea, Ha, count_snoc. reflexivity.
  - rewrite Es, Hs, count_snoc.
    destruct (cliModifies table cols statement); reflexivity.
  - rewrite Ee. exact He.
  - rewrite Ec, Hc, flat_map_app, length_app. cbn [flat_map].
    rewrite app_nil_r. lia.
  - rewrite Ed. apply Forall_app. split; [exact Hd|].
    eapply Forall_impl; [|apply boundsWarning_kind]. intros d H. right. exact H.
  - rewrite count_snoc. intro H0.
    destruct (cliModifies table cols statement) eqn:Em; [lia|].
    rewrite (Eo eq_refl), Ho by lia.
    rewrite concat_app. cbn [List.concat]. rewrite app_nil_r. reflexivity.
Qed.

Lemma cli_run_warn table cols r done :
  cliRunFacts table cols r done ->
  cliRunFacts table cols (warn WarnNoSemicolon r) done.
Proof.
  intros [Hp Ha Hs He Hc Hd Ho]. constructor; try assumption.
  cbn [diagnostics warn]. apply Forall_app. split; [exact Hd|].
  constructor; [left; reflexivity | constructor].
Qed.

Lemma cli_run_facts table cols e lines :
  cliRunFacts table cols (Cli.processFile table cols e lines)
    (Cli.statements lines).
Proof.
  unfold Cli.processFile, Cli.statements.
  apply (cli_drive_related run (list str)
           (Cli.processStatement table cols e)
           (fun statement _ acc => acc ++ [statement])
           warn (fun _ acc => acc) (cliRunFacts table cols)).
  - intros statement n a b H. apply cli_run_step. exact H.
  - intros a b H. apply cli_run_warn. exact H.
  - constructor; try reflexivity. constructor.
Qed.

Lemma stream_run_step table cols e statement r done :
  streamRunFacts table cols r done ->
  streamRunFacts table cols (CliStream.processStatement table cols e statement r)
    (done ++ [statement]).
Proof.
  intros [Hp Ha Hs He Hc Hd Ho].
  destruct (stream_statement_effect table cols e statement r)
    as [Ep Ee Ea Es Eo Ed Ec].
  constructor.
  - rewrite Ep, Hp, length_app. simpl. lia.
  - rewrite Ea, Ha, count_snoc. reflexivity.
  - rewrite Es, Hs, count_snoc. reflexivity.
  - rewrite Ee. exact He.
  - rewrite Ec, Hc, filter_app, flat_map_app, length_app. cbn [filter].
    destruct (streamTarget table statement); cbn [flat_map List.length];
      rewrite ?app_nil_r; lia.
  - rewrite Ed. apply Forall_app. split; [exact Hd|].
    destruct (streamTarget table statement); [|constructor].
    apply boundsWarning_kind.
  - rewrite count_snoc. intro H0.
    destruct (streamModifies table cols statement) eqn:Em; [lia|].
    rewrite (Eo eq_refl), Ho by lia.
    rewrite map_app, concat_app. cbn [map List.concat]. rewrite app_nil_r.
    reflexivity.
Qed.

Lemma stream_run_facts table cols e chunks :
  streamRunFacts table cols (CliStream.processFile table cols e chunks)
    (CliStream.statements chunks).
Proof.
  unfold CliStream.processFile, CliStream.statements.
  apply (stream_drive_related run (list str)
           (CliStream.processStatement table cols e)
           (fun statement acc => acc ++ [statement])
           (streamRunFacts table cols)).
  - intros statement a b H. apply stream_run_step. exact H.
  - constructor; try reflexivity. constructor.
Qed.


Lemma count_split (p : str -> bool) (statements : list str) :
  count p statements + count (fun s => negb (p s)) statements
  = List.length statements.
Proof.
  unfold count. induction statements as [|s statements IH]; [reflexivity|].
  cbn [filter]. destruct (p s); cbn [negb List.length]; lia.
Qed.

(** X5: the summary of the line-based program.  Every statement that the
    driver hands over is counted once as processed and once either as
    anonymized, when a field of one of its tuples was replaced, or as
    skipped; the error counter of lines 377, 384 and 390 never moves. *)
Theorem X5_cli_summary_counts (table : str) (cols : list nat) (e : entropy)
  (lines : list str) :
  let r := Cli.processFile table cols e lines in
  let statements := Cli.statements lines in
  processedStatements r = List.length statements
  /\ successfullyAnonymizedStatements r = count (cliModifies table cols) statements
  /\ statementsWithSkippedAnonymization r
     = count (fun s => negb (cliModifies table cols s)) statements
  /\ statementsWithErrors r = 0
  /\ processedStatements r
     = successfullyAnonymizedStatements r + statementsWithSkippedAnonymization r.
Proof.
  intros r statements.
  destruct (cli_run_facts table cols e lines) as [Hp Ha Hs He _ _ _].
  fold r in Hp, Ha, Hs, He. fold statements in Hp, Ha, Hs.
  repeat split; try assumption.
  rewrite Hp, Ha, Hs. symmetry. apply count_split.
Qed.

(** X6: the summary of the stream-based program.  Every statement is
    counted as processed; a target statement is counted as anonymized when
    a field of one of its tuples was replaced and as skipped otherwise; a
    statement that is no target is counted in neither, so that anonymized
    and skipped add up to the number of target statements only; the
    [throw] of line 645 is never reached and the error counter never
    moves. *)
Theorem X6_stream_summary_counts (table : str) (cols : list nat) (e : entropy)
  (chunks : list str) :
  let r := CliStream.processFile table cols e chunks in
  let statements := CliStream.statements chunks in
  processedStatements r = List.length statements
  /\ successfullyAnonymizedStatements r
     = count (streamModifies table cols) statements
  /\ statementsWithSkippedAnonymization r
     = count (fun s => streamTarget table s && negb (streamModifies table cols s))
         statements
  /\ statementsWithErrors r = 0
  /\ successfullyAnonymizedStatements r + statementsWithSkippedAnonymization r
     = count (streamTarget table) statements.
Proof.
  intros r statements.
  destruct (stream_run_facts table cols e chunks) as [Hp Ha Hs He _ _ _].
  fold r in Hp, Ha, Hs, He. fold statements in Hp, Ha, Hs.
  repeat split; try assumption.
  rewrite Ha, Hs. unfold count, streamModifies. clear.
  induction statements as [|s statements IH]; [reflexivity|].
  cbn [filter]. destruct (streamTarget table s); cbn [andb negb].
  - destruct (existsb (streamReplaces cols) (streamTuples s));
      cbn [negb List.length]; lia.
  - exact IH.
Qed.

(** X7: the entropy of a run.  Both programs draw eight bytes for every
    field they replace and none otherwise: at the end of a run the cursor
    stands at eight times the number of requested indices, repeats
    included, that hit a field in a tuple wide enough, over all the tuples
    of the statements (the target statements, in the stream-based
    program). *)
Theorem X7_eight_bytes_per_replacement (table : str) (cols : list nat)
  (e : entropy) (input : list str) :
  cursor (Cli.processFile table cols e input)
  = 8 * List.length
          (flat_map (fun s => flat_map (cliHits cols) (cliTuples table s))
             (Cli.statements input))
  /\ cursor (CliStream.processFile table cols e input)
     = 8 * List.length
             (flat_map (fun s => flat_map (streamHits cols) (streamTuples s))
                (filter (streamTarget table) (CliStream.statements input))).
Proof.
  split.
  - apply (cli_run_cursor _ _ _ _ (cli_run_facts table cols e input)).
  - apply (stream_run_cursor _ _ _ _ (stream_run_facts table cols e input)).
Qed.

(** X8: the warnings of a run of the line-based program are the bounds
    warning of line 306 and the warning of line 219 for a file that ends
    without a semicolon; the warning of line 328 (an index out of bounds
    inside the [forEach]) is never printed, because the check of line 305
    has refused every tuple in which it could be. *)
Theorem X8_cli_index_warning_never_printed (table : str) (cols : list nat)
  (e : entropy) (lines : list str) :
  let r := Cli.processFile table cols e lines in
  Forall (fun d => d = WarnNoSemicolon \/ isBoundsWarning d) (diagnostics r)
  /\ forall where_ index len,
       ~ In (WarnIndexOutOfBounds where_ index len) (diagnostics r).
Proof.
  intro r.
  pose proof (cli_run_diagnostics _ _ _ _ (cli_run_facts table cols e lines)) as H.
  fold r in H. split; [exact H|].
  intros w i n Hin.
  destruct (proj1 (Forall_forall _ _) H _ Hin) as [E | [a [b [c E]]]];
    discriminate E.
Qed.

(** X9: a run that reports no anonymized statement has copied its input:
    the line-based program has written the statements as the driver handed
    them over, the stream-based program each statement followed by a line
    feed. *)
Theorem X9_nothing_anonymized_is_a_copy (table : str) (cols : list nat)
  (e : entropy) (input : list str) :
  (successfullyAnonymizedStatements (Cli.processFile table cols e input) = 0 ->
   output (Cli.processFile table cols e input)
   = List.concat (Cli.statements input))
  /\ (successfullyAnonymizedStatements (CliStream.processFile table cols e input) = 0 ->
      output (CliStream.processFile table cols e input)
      = List.concat (map (fun s => s ++ [nl]) (CliStream.statements input))).
Proof.
  split; intro H.
  - destruct (cli_run_facts table cols e input) as [_ Ha _ _ _ _ Ho].
    apply Ho. rewrite <- Ha. exact H.
  - destruct (stream_run_facts table cols e input) as [_ Ha _ _ _ _ Ho].
    apply Ho. rewrite <- Ha. exact H.
Qed.

Lemma X9_nothing_anonymized_is_a_copy_witness :
  output (Cli.processFile (L "t") [1] zeroEntropy
            [L "INSERT INTO t VALUES (1, 2);"; L "SELECT 1;"])
  = List.concat (Cli.statements [L "INSERT INTO t VALUES (1, 2);"; L "SELECT 1;"])
  /\ output (CliStream.processFile (L "t") [1] zeroEntropy
               [L "INSERT INTO u VALUES (1, 2); SELECT 1;"])
     = List.concat (map (fun s => s ++ [nl])
                      (CliStream.statements
                         [L "INSERT INTO u VALUES (1, 2); SELECT 1;"])).
Proof.
  split.
  - apply (proj1 (X9_nothing_anonymized_is_a_copy (L "t") [1] zeroEntropy
                    [L "INSERT INTO t VALUES (1, 2);"; L "SELECT 1;"])).
    vm_compute. reflexivity.
  - apply (proj2 (X9_nothing_anonymized_is_a_copy (L "t") [1] zeroEntropy
                    [L "INSERT INTO u VALUES (1, 2); SELECT 1;"])).
    vm_compute. reflexivity.
Defined.

(** ** The chunks of the stream *)

Lemma first_separator_unique (c : ascii) (b b' : str) :
  ~ In c b -> ~ In c b' -> forall x x',
  b ++ c :: x = b' ++ c :: x' -> b = b' /\ x = x'.
Proof.
  revert b'. induction b as [|y b IH]; intros b' Hb Hb' x x' E.
  - destruct b' as [|y' b']; [injection E as ->; auto|].
    injection E as <- _. exfalso. apply Hb'. left. reflexivity.
  - destruct b' as [|y' b'].
    + injection E as -> _. exfalso. apply Hb. left. reflexivity.
    + injection E as <- E.
      destruct (IH b') with (x := x) (x' := x') as [-> ->]; auto.
      * intro H. apply Hb. right. exact H.
      * intro H. apply Hb'. right. exact H.
Qed.

(** A text is cut at its semicolons in one way only. *)
Lemma cut_unique (stmts : list str) :
  Forall endsAtOnlySemicolon stmts ->
  forall rest stmts' rest',
    Forall endsAtOnlySemicolon stmts' ->
    ~ In semicolon rest -> ~ In semicolon rest' ->
    List.concat stmts ++ rest = List.concat stmts' ++ rest' ->
    stmts = stmts' /\ rest = rest'.
Proof.
  induction 1 as [|s stmts [b [-> Hb]] _ IH];
    intros rest stmts' rest' Hs' Hr Hr' E.
  - destruct Hs' as [|s' stmts' [b' [-> Hb']] _]; [auto|].
    exfalso. apply Hr. cbn [List.concat app] in E. rewrite E.
    rewrite <- !app_assoc. apply in_or_app. right. left. reflexivity.
  - destruct Hs' as [|s' stmts' [b' [-> Hb']] Hs'].
    + exfalso. apply Hr'. cbn [List.concat app] in E. rewrite <- E.
      rewrite <- !app_assoc. apply in_or_app. right. left. reflexivity.
    + cbn [List.concat] in E. rewrite <- !app_assoc in E. cbn [app] in E.
      destruct (first_separator_unique semicolon b b' Hb Hb' _ _ E) as [-> E'].
      destruct (IH rest stmts' rest' Hs' Hr Hr' E') as [-> ->]. auto.
Qed.

(** X10: the stream-based driver does not depend on how the input comes
    in chunks: any handler sees the same statements in the same order as if
    the whole input had come as one chunk, and so the whole run is the
    same. *)
Theorem X10_chunking_does_not_matter (table : str) (cols : list nat)
  (e : entropy) (chunks : list str) :
  CliStream.statements chunks = CliStream.statements [List.concat chunks]
  /\ CliStream.processFile table cols e chunks
     = CliStream.processFile table cols e [List.concat chunks].
Proof.
  assert (G : forall (A : Type) (handle : str -> A -> A) (a : A),
            CliStream.drive A handle chunks a
            = CliStream.drive A handle [List.concat chunks] a).
  { intros A handle a. unfold CliStream.drive.
    destruct (onData_spec A handle chunks [] a)
      as [s1 [r1 [E1 [C1 [F1 N1]]]]].
    destruct (onData_spec A handle [List.concat chunks] [] a)
      as [s2 [r2 [E2 [C2 [F2 N2]]]]].
    unfold str in *. rewrite E1, E2.
    cbn [List.concat app] in C1, C2. rewrite app_nil_r in C2.
    destruct (cut_unique s1 F1 r1 s2 r2 F2 (N1 (fun x => x)) (N2 (fun x => x)))
      as [-> ->]; [congruence | reflexivity]. }
  split; [apply G | apply G].
Qed.

(** ** The statements of the line-based driver *)

Lemma ink_app (a b : str) : ink (a ++ b) = ink a ++ ink b.
Proof. apply filter_app. Qed.

Lemma ink_white (z : str) :
  Forall (fun c => isWhiteSpace c = true) z -> ink z = [].
Proof.
  induction 1 as [|x z Hx _ IH]; [reflexivity|]. cbn [ink filter].
  rewrite Hx. exact IH.
Qed.




Lemma endsWith_semicolon (s : str) :
  endsWith s (L ";") = true -> exists t, s = t ++ [semicolon].
Proof.
  unfold endsWith. cbn [rev L list_ascii_of_string app].
  intro H. destruct (rev s) as [|x u] eqn:E; [discriminate H|].
  cbn [startsWith] in H. apply andb_true_iff in H. destruct H as [H _].
  apply ch_eqb_eq in H. subst x. exists (rev u).
  rewrite <- (rev_involutive s), E. reflexivity.
Qed.



Lemma trim_empty_white (s : str) :
  truthy (trim s) = false -> Forall (fun c => isWhiteSpace c = true) s.
Proof.
  intro H. destruct (trim_parts s) as [a [z [E [Ha Hz]]]].
  destruct (trim s); [|discriminate H].
  rewrite E. apply Forall_app. split; assumption.
Qed.




(** ** The reconstruction of a statement, lines 350-366 *)

(** A match lies in the text at its index and ends at its last index. *)
Lemma searchFrom_span ic r (s : str) :
  forall p m, searchFrom ic r p s = Some m ->
  exists a,
    s = a ++ text m ++ tail m
    /\ index m = p + List.length a
    /\ lastIndex m = index m + List.length (text m).
Proof.
  assert (Here : forall p s st,
            rmatch ic r (MState p s []) (fun st => Some st) = Some st ->
            exists w, s = w ++ rest st /\ pos st = p + List.length w).
  { intros p s0 st E. apply rmatch_sound in E. destruct E as [st' [M E]].
    injection E as ->. apply matches_lang in M.
    destruct M as [w [Hw1 [Hw2 _]]]. exists w. auto. }
  assert (Found_ok : forall p s st,
            rmatch ic r (MState p s []) (fun st => Some st) = Some st ->
            let m := Found p (firstn (pos st - p) s) (caps st) (pos st) (rest st) in
            s = [] ++ text m ++ tail m
            /\ index m = p + 0
            /\ lastIndex m = index m + List.length (text m)).
  { intros p s0 st E. destruct (Here _ _ _ E) as [w [Hs Hp]].
    cbn [text tail index lastIndex app].
    replace (pos st - p) with (List.length w) by lia.
    subst s0. rewrite firstn_length_app.
    split; [reflexivity|]. split; lia. }
  induction s as [|x s IH]; intros p m H; rewrite searchFrom_eq in H.
  - destruct (rmatch ic r (MState p [] []) (fun st => Some st)) as [st|] eqn:E;
      [|discriminate H].
    injection H as <-. exists []. apply (Found_ok _ _ _ E).
  - destruct (rmatch ic r (MState p (x :: s) []) (fun st => Some st))
      as [st|] eqn:E.
    + injection H as <-. exists []. apply (Found_ok _ _ _ E).
    + destruct (IH _ _ H) as [a [Hs [Hi Hl]]].
      exists (x :: a). split; [cbn [app]; f_equal; exact Hs|].
      split; [simpl; lia | exact Hl].
Qed.

Lemma substring_gap (done a t : str) :
  substring (done ++ a ++ t) (List.length done) (List.length done + List.length a)
  = a.
Proof.
  unfold substring.
  replace (List.length done + List.length a - List.length done)
    with (List.length a) by lia.
  rewrite skipn_length_app. apply firstn_length_app.
Qed.

(** The loop of lines 356-363 from any state of the first loop. *)
Lemma cli_reconstruct_loop ic r (vp : str) (n : nat) :
  forall s p done,
    vp = done ++ s -> List.length done = p ->
    exists gaps post,
      List.length gaps = List.length (execLoop n ic r p s)
      /\ s = interleave gaps (map text (execLoop n ic r p s)) ++ post
      /\ forall nvs acc k,
           exists li mi,
             fold_left (Cli.reconstructStep vp nvs) (execLoop n ic r p s)
               (acc, p, k) = (acc ++ interleave gaps
                                       (map (fun j => nth j nvs (L "undefined"))
                                          (seq k (List.length (execLoop n ic r p s)))),
                              li, mi)
             /\ substringFrom vp li = post.
Proof.
  induction n as [|n IH]; intros s p done Hvp Hp.
  - exists [], s. split; [reflexivity|]. split; [reflexivity|].
    intros nvs acc k. exists p, k. cbn. rewrite app_nil_r.
    split; [reflexivity|]. unfold substringFrom. rewrite Hvp, <- Hp.
    apply skipn_length_app.
  - cbn [execLoop]. destruct (searchFrom ic r p s) as [m|] eqn:E.
    + destruct (searchFrom_span ic r s p m E) as [a [Hs [Hi Hl]]].
      destruct (IH (tail m) (lastIndex m) (done ++ a ++ text m))
        as [gaps [post [Hlen [Hs' Hfold]]]].
      { rewrite Hvp, Hs, <- !app_assoc. reflexivity. }
      { rewrite !length_app. lia. }
      exists (a :: gaps), post. split; [simpl; congruence|]. split.
      * cbn [map]. unfold interleave in *. cbn [combine map List.concat fst snd].
        rewrite <- !app_assoc. rewrite <- Hs'. exact Hs.
      * intros nvs acc k. cbn [fold_left].
        change (Cli.reconstructStep vp nvs (acc, p, k) m)
          with (acc ++ substring vp p (index m) ++ nth k nvs (L "undefined"),
                lastIndex m, S k).
        destruct (Hfold nvs
                    (acc ++ substring vp p (index m) ++ nth k nvs (L "undefined"))
                    (S k)) as [li [mi [Ef Epost]]].
        exists li, mi. unfold str in *. rewrite Ef.
        split; [|exact Epost]. f_equal. f_equal.
        cbn [List.length seq map]. unfold interleave.
        cbn [combine map List.concat fst snd].
        assert (Eg : substring vp p (index m) = a).
        { rewrite Hvp, Hs, Hi, <- Hp. apply substring_gap. }
        rewrite Eg, <- !app_assoc. reflexivity.
    + exists [], s. split; [reflexivity|]. split; [reflexivity|].
      intros nvs acc k. exists p, k. cbn. rewrite app_nil_r.
      split; [reflexivity|]. unfold substringFrom. rewrite Hvp, <- Hp.
      apply skipn_length_app.
Qed.

Lemma map_nth_seq (nvs : list str) (d : str) :
  forall k pre, List.length pre = k ->
  map (fun j => nth j (pre ++ nvs) d) (seq k (List.length nvs)) = nvs.
Proof.
  induction nvs as [|x nvs IH]; intros k pre Hk; [reflexivity|].
  cbn [List.length seq map]. f_equal.
  - rewrite app_nth2 by lia. rewrite Hk, Nat.sub_diag. reflexivity.
  - replace (pre ++ x :: nvs) with ((pre ++ [x]) ++ nvs)
      by (rewrite <- app_assoc; reflexivity).
    apply IH. rewrite length_app. simpl. lia.
Qed.

(** The text between the tuples and after the last, and the new sets in
    the place of the tuples. *)
Lemma cli_reconstruct_spans (vp : str) :
  exists gaps post,
    List.length gaps = List.length (execAll false Cli.valueSetRegex vp)
    /\ vp = interleave gaps (map text (execAll false Cli.valueSetRegex vp)) ++ post
    /\ forall nvs,
         List.length nvs = List.length (execAll false Cli.valueSetRegex vp) ->
         Cli.reconstruct vp nvs = interleave gaps nvs ++ post.
Proof.
  unfold Cli.reconstruct, execAll.
  destruct (cli_reconstruct_loop false Cli.valueSetRegex vp (S (List.length vp))
              vp 0 [] eq_refl eq_refl) as [gaps [post [Hlen [Hvp Hfold]]]].
  exists gaps, post. split; [exact Hlen|]. split; [exact Hvp|].
  intros nvs Hn. destruct (Hfold nvs [] 0) as [li [mi [E Epost]]].
  unfold str in *. rewrite E, Epost. cbn [app]. rewrite <- Hn.
  pose proof (map_nth_seq nvs (L "undefined") 0 [] eq_refl) as Hm.
  cbn [app] in Hm. unfold str in *. rewrite Hm. reflexivity.
Qed.

(** X12: the reconstruction of lines 350-366 keeps everything outside
    the tuples: the values part is the spans of the tuples, each after a
    gap, and a rest; the reconstruction is the same text with each span
    replaced by the new set of that tuple, the gaps and the rest byte for
    byte. *)
Theorem X12_reconstruction_keeps_the_gaps (valuesPart : str) :
  let tuples := execAll false Cli.valueSetRegex valuesPart in
  exists gaps post,
    List.length gaps = List.length tuples
    /\ valuesPart = interleave gaps (map text tuples) ++ post
    /\ Cli.reconstruct valuesPart (map text tuples) = valuesPart
    /\ forall newValueSets,
         List.length newValueSets = List.length tuples ->
         Cli.reconstruct valuesPart newValueSets
         = interleave gaps newValueSets ++ post.
Proof.
  intro tuples. destruct (cli_reconstruct_spans valuesPart)
    as [gaps [post [Hlen [Hvp Hrec]]]].
  exists gaps, post. split; [exact Hlen|]. split; [exact Hvp|].
  split; [|exact Hrec].
  rewrite Hrec by apply length_map. symmetry. exact Hvp.
Qed.

Lemma X12_reconstruction_keeps_the_gaps_witness :
  exists gaps post,
    L " VALUES (1,'a') , (2,'b') ;"
    = interleave gaps [L "(1,'a')"; L "(2,'b')"] ++ post
    /\ Cli.reconstruct (L " VALUES (1,'a') , (2,'b') ;")
         [L "( 1, 'x' )"; L "(2,'b')"]
       = interleave gaps [L "( 1, 'x' )"; L "(2,'b')"] ++ post.
Proof.
  destruct (X12_reconstruction_keeps_the_gaps (L " VALUES (1,'a') , (2,'b') ;"))
    as [gaps [post [_ [Hvp [_ Hrec]]]]].
  exists gaps, post. split; [exact Hvp|]. apply Hrec. reflexivity.
Defined.

Example reconstruction_of_two_tuples :
  show (Cli.reconstruct (L " VALUES (1,'a') , (2,'b') ;")
          [L "( 1, 'x' )"; L "(2,'b')"])
  = " VALUES ( 1, 'x' ) , (2,'b') ;"%string.
Proof. vm_compute. reflexivity. Qed.

(** ** What a statement becomes *)

Lemma existsb_eqb_In (j : nat) (cols : list nat) :
  existsb (Nat.eqb j) cols = true <-> In j cols.
Proof.
  rewrite existsb_exists. split.
  - intros [x [Hx E]]. apply Nat.eqb_eq in E. subst x. exact Hx.
  - intro H. exists j. split; [exact H | apply Nat.eqb_refl].
Qed.

Lemma cli_processValueSet_rebuilt cols e line nvs om r m :
  exists t om' r',
    Cli.processValueSet cols e line (nvs, om, r) m = (nvs ++ [t], om', r')
    /\ cliRebuilt cols e m t.
Proof.
  destruct (cli_processValueSet_spec cols e line nvs om r m)
    as [fields [r' [E [HF [Hk [Hf [Ht _]]]]]]].
  do 3 eexists. split; [exact E|]. unfold cliRebuilt.
  fold (cliReplaces cols m).
  destruct (cliReplaces cols m) eqn:Er; [|reflexivity].
  exists fields. split; [|reflexivity].
  unfold cliReplaces in Er. apply andb_true_iff in Er. destruct Er as [Hn _].
  apply negb_true_iff in Hn.
  split; [symmetry; apply (Forall2_length HF)|].
  intros j Hj.
  destruct (existsb (Nat.eqb j) cols) eqn:Ej; cbn [andb].
  - apply existsb_eqb_In in Ej.
    destruct (Cli.anonymizable (nth j (cliFields m) [])) eqn:Ea.
    + apply (Ht j Hn Ej). unfold cliHit. rewrite Ea, andb_true_r.
      apply Nat.ltb_lt. exact Hj.
    + apply Hk. unfold cliHit. rewrite Ea. apply andb_false_r.
  - apply Hf. intro Hin. apply existsb_eqb_In in Hin. congruence.
Qed.

Lemma cli_tuples_rebuilt cols e line (ms : list found) :
  forall nvs om r,
    exists outs om' r',
      fold_left (Cli.processValueSet cols e line) ms (nvs, om, r)
        = (nvs ++ outs, om', r')
      /\ Forall2 (cliRebuilt cols e) ms outs.
Proof.
  induction ms as [|m ms IH]; intros nvs om r.
  - exists [], om, r. rewrite app_nil_r. split; [reflexivity | constructor].
  - cbn [fold_left].
    destruct (cli_processValueSet_rebuilt cols e line nvs om r m)
      as [t [om1 [r1 [E Ht]]]].
    rewrite E. destruct (IH (nvs ++ [t]) om1 r1) as [outs [om' [r' [E' Ho]]]].
    exists (t :: outs), om', r'. rewrite E', <- app_assoc.
    split; [reflexivity | constructor; assumption].
Qed.

Lemma interleave_prefix (prefix : str) (gaps : list str) (post : str) :
  exists gaps' post',
    List.length gaps' = List.length gaps
    /\ forall xs, List.length xs = List.length gaps ->
         prefix ++ interleave gaps xs ++ post = interleave gaps' xs ++ post'.
Proof.
  destruct gaps as [|g gaps].
  - exists [], (prefix ++ post). split; [reflexivity|].
    intros xs Hx. destruct xs; [reflexivity | discriminate Hx].
  - exists ((prefix ++ g) :: gaps), post. split; [reflexivity|].
    intros xs Hx. destruct xs as [|x xs]; [discriminate Hx|].
    unfold interleave. cbn [combine map List.concat fst snd].
    rewrite <- !app_assoc. reflexivity.
Qed.

Lemma Forall2_not_replaced cols e (ms : list found) :
  existsb (cliReplaces cols) ms = false ->
  Forall2 (cliRebuilt cols e) ms (map text ms).
Proof.
  induction ms as [|m ms IH]; intro H; [constructor|].
  cbn [existsb] in H. apply orb_false_iff in H. destruct H as [H1 H2].
  cbn [map]. constructor; [|apply IH; exact H2].
  unfold cliRebuilt. rewrite H1. reflexivity.
Qed.

(** X13: what the line-based program writes for a statement.  The
    statement is the spans of its tuples, each after a gap, and a rest; the
    text written has the same gaps and the same rest, byte for byte, and
    in the place of each tuple either the tuple as read, when no field of
    it was replaced, or its fields between ["( "] and [" )"], joined by
    [", "], where exactly the fields at requested indices that start with
    a quote or are [NULL] have become tokens. *)
Theorem X13_cli_statement_changes_only_tuples (table : str) (cols : list nat)
  (e : entropy) (statement : str) (line : nat) (r : run) :
  let tuples := cliTuples table statement in
  exists gaps post outs,
    List.length gaps = List.length tuples
    /\ statement = interleave gaps (map text tuples) ++ post
    /\ Forall2 (cliRebuilt cols e) tuples outs
    /\ output (Cli.processStatement table cols e statement line r)
       = output r ++ interleave gaps outs ++ post.
Proof.
  intro tuples.
  assert (Skip : tuples = [] ->
            output (Cli.processStatement table cols e statement line r)
            = output r ++ statement ->
            exists gaps post outs,
              List.length gaps = List.length tuples
              /\ statement = interleave gaps (map text tuples) ++ post
              /\ Forall2 (cliRebuilt cols e) tuples outs
              /\ output (Cli.processStatement table cols e statement line r)
                 = output r ++ interleave gaps outs ++ post).
  { intros Et Ho. exists [], statement, []. rewrite Et.
    split; [reflexivity|]. split; [reflexivity|]. split; [constructor | exact Ho]. }
  unfold Cli.processStatement in *. subst tuples. unfold cliTuples in *.
  destruct (search true (Cli.insertRegex table) statement) as [im|] eqn:Ei;
    [|apply Skip; reflexivity].
  destruct (search true Cli.valuesRegex statement) as [vm|] eqn:Ev;
    [|apply Skip; reflexivity].
  clear Skip.
  set (valuesPart := substringFrom statement (index vm)).
  set (ms := execAll false Cli.valueSetRegex valuesPart).
  assert (Es : statement = substring statement 0 (index vm) ++ valuesPart).
  { unfold substring, substringFrom, valuesPart. rewrite Nat.sub_0_r.
    cbn [skipn]. symmetry. apply firstn_skipn. }
  destruct (cli_reconstruct_spans valuesPart) as [gaps0 [post0 [Hlen [Hvp Hrec]]]].
  fold ms in Hlen, Hvp, Hrec.
  destruct (interleave_prefix (substring statement 0 (index vm)) gaps0 post0)
    as [gaps [post [Hlen' Hpre]]].
  destruct (cli_tuples_rebuilt cols e line ms [] false (countProcessed r))
    as [outs [om [r1 [E Houts]]]].
  destruct (cli_tuples_run cols e line ms [] false (countProcessed r))
    as [nvs2 [r2 [E2 [Hq _]]]].
  rewrite E in E2. injection E2 as <- Eom <-.
  rewrite E. cbn [app orb] in *.
  assert (Ho : output r1 = output r) by (destruct Hq as [Ho _]; exact Ho).
  destruct om.
  - exists gaps, post, outs. split; [congruence|]. split; [|split; [exact Houts|]].
    + rewrite Es at 1. rewrite Hvp at 1. apply Hpre. rewrite length_map. congruence.
    + cbn [output write countAnonymized]. rewrite Ho.
      rewrite (Hrec outs) by (symmetry; apply (Forall2_length Houts)).
      f_equal. apply Hpre. rewrite <- (Forall2_length Houts). congruence.
  - exists gaps, post, (map text ms). split; [congruence|].
    assert (Hst : statement = interleave gaps (map text ms) ++ post).
    { rewrite Es at 1. rewrite Hvp at 1. apply Hpre.
      rewrite length_map. congruence. }
    split; [exact Hst|]. split.
    + apply Forall2_not_replaced. symmetry. exact Eom.
    + cbn [output write countSkipped]. rewrite Ho, <- Hst. reflexivity.
Qed.





Example stream_drops_the_gaps :
  output (CliStream.processStatement (L "t") [1] zeroEntropy
            (L "insert into t values (1,'a') , (2,'b') -- x;") run0)
  = L "insert into t values (1, '0000000000000000')," ++ [nl; tab]
    ++ L "(2, '0000000000000000');" ++ [nl; nl].
Proof. vm_compute. reflexivity. Qed.

(** ** The arguments *)







Example coerce_sorts :
  coerce (L "3, 1 ,2,1") = inr [0; 0; 1; 2].
Proof. reflexivity. Qed.

Example coerce_reads_the_leading_number :
  coerce (L "2nd,+3.9, 1 5") = inr [0; 1; 2].
Proof. reflexivity. Qed.

Example coerce_refuses :
  coerce (L "2,0,x") = inl (L "0") /\ coerce (L "1,,2") = inl (L "")
  /\ coerce (L "") = inl (L "") /\ coerce (L "-1") = inl (L "-1").
Proof. repeat split. Qed.



Example escaped_public_users :
  show (escapedTableName (L "public.users$1")) = "public\.users\$1"%string.
Proof. reflexivity. Qed.

Lemma upper_of_null_letters (x : ascii) :
  (upper x = "N"%char -> x = "N"%char \/ x = "n"%char)
  /\ (upper x = "U"%char -> x = "U"%char \/ x = "u"%char)
  /\ (upper x = "L"%char -> x = "L"%char \/ x = "l"%char).
Proof.
  destruct x as [[] [] [] [] [] [] [] []]; vm_compute;
    repeat split; intro H; solve [discriminate H | auto].
Qed.

(** X17: the safety check of line 317.  The line-based program takes a
    field for anonymizable exactly when it starts with a quote or is the
    word [NULL] in one of its sixteen spellings in upper and lower case;
    a field that starts with a digit, as a number does, never is. *)
Theorem X17_safety_check (originalValue : str) :
  (Cli.anonymizable originalValue = true <->
   (exists rest, originalValue = quote :: rest)
   \/ (exists a b c d,
         originalValue = [a; b; c; d]
         /\ (a = "N"%char \/ a = "n"%char) /\ (b = "U"%char \/ b = "u"%char)
         /\ (c = "L"%char \/ c = "l"%char) /\ (d = "L"%char \/ d = "l"%char)))
  /\ (forall c rest, originalValue = c :: rest -> isDigit c = true ->
        Cli.anonymizable originalValue = false).
Proof.
  assert (Hs : forall v, startsWith v (L "'") = true <-> exists rest, v = quote :: rest).
  { intros [|x v]; split.
    - discriminate.
    - intros [rest E]. discriminate E.
    - rewrite startsWith_quote. intro H. apply ch_eqb_eq in H. subst x.
      exists v. reflexivity.
    - intros [rest E]. injection E as -> _. rewrite startsWith_quote.
      apply ch_eqb_refl. }
  assert (Hn : forall v, str_eqb (toUpperCase v) (L "NULL") = true <->
            exists a b c d,
              v = [a; b; c; d]
              /\ (a = "N"%char \/ a = "n"%char) /\ (b = "U"%char \/ b = "u"%char)
              /\ (c = "L"%char \/ c = "l"%char) /\ (d = "L"%char \/ d = "l"%char)).
  { intro v. rewrite str_eqb_eq. split.
    - intro H. destruct v as [|a [|b [|c [|d [|x v]]]]]; try discriminate H.
      injection H as Ha Hb Hc Hd. exists a, b, c, d. split; [reflexivity|].
      split; [apply (upper_of_null_letters a); exact Ha|].
      split; [apply (upper_of_null_letters b); exact Hb|].
      split; [apply (upper_of_null_letters c); exact Hc|].
      apply (upper_of_null_letters d); exact Hd.
    - intros [a [b [c [d [-> [Ha [Hb [Hc Hd]]]]]]]].
      destruct Ha as [-> | ->], Hb as [-> | ->], Hc as [-> | ->],
        Hd as [-> | ->]; reflexivity. }
  split.
  - unfold Cli.anonymizable. rewrite orb_true_iff, Hs, Hn. reflexivity.
  - intros c rest -> Hd. unfold Cli.anonymizable. apply orb_false_iff. split.
    + rewrite startsWith_quote. apply ch_eqb_neq. intro E. subst c.
      discriminate Hd.
    + destruct (str_eqb (toUpperCase (c :: rest)) (L "NULL")) eqn:E;
        [|reflexivity].
      apply Hn in E. destruct E as [a [b [x [d [E [Ha _]]]]]].
      injection E as -> _. destruct Ha as [-> | ->]; discriminate Hd.
Qed.

Lemma X17_safety_check_witness :
  Cli.anonymizable (L "nUlL") = true /\ Cli.anonymizable (L "42") = false.
Proof.
  split.
  - apply (proj1 (X17_safety_check (L "nUlL"))). right.
    exists "n"%char, "U"%char, "l"%char, "L"%char. split; [reflexivity|].
    repeat split; auto.
  - apply (proj2 (X17_safety_check (L "42")) "4"%char (L "2")); reflexivity.
Defined.

(** X18: the warnings of one statement.  Each program prints, for a
    statement, exactly one bounds warning for every tuple that has too few
    fields, in the order of the tuples, and nothing else; the line-based
    program marks them with the line at which the statement ended, the
    stream-based program with the number of the statement, and only for a
    target statement. *)
Theorem X18_one_warning_per_narrow_tuple (table : str) (cols : list nat)
  (e : entropy) (statement : str) (line : nat) (r : run) :
  diagnostics (Cli.processStatement table cols e statement line r)
  = diagnostics r
    ++ flat_map (fun m => boundsWarning line cols (cliFields m))
         (cliTuples table statement)
  /\ diagnostics (CliStream.processStatement table cols e statement r)
     = diagnostics r
       ++ (if streamTarget table statement
           then flat_map (fun m => boundsWarning (S (processedStatements r)) cols
                                     (streamFields m))
                  (streamTuples statement)
           else []).
Proof.
  split.
  - apply (cli_diagnostics _ _ _ _ _ _
             (cli_statement_effect table cols e statement line r)).
  - apply (stream_diagnostics _ _ _ _ _
             (stream_statement_effect table cols e statement r)).
Qed.

Example stream_cuts_at_the_first_values :
  output (CliStream.processStatement (L "values_log") [1] zeroEntropy
            (L "INSERT INTO values_log VALUES (1,'a');") run0)
  = L "INSERT INTO values (1, '0000000000000000');" ++ [nl; nl].
Proof. vm_compute. reflexivity. Qed.

(** ** The tokenizer and the text *)

Lemma ink_trim (f : str) : ink (trim f) = ink f.
Proof.
  destruct (trim_parts f) as [a [z [E [Ha Hz]]]].
  rewrite E at 2. rewrite !ink_app, (ink_white a Ha), (ink_white z Hz).
  rewrite app_nil_r. reflexivity.
Qed.

(** The text is the fields as read, each but the last before its comma. *)
Lemma parseLoop_regions (n : nat) :
  forall s v, List.length s <= n ->
    exists fs raw,
      s = List.concat (map (fun f => f ++ [comma]) fs) ++ raw
      /\ parseLoop s (pstateAt v [] false)
         = pstateAt (v ++ map trim fs) raw (quotedAfter false raw).
Proof.
  induction n as [|n IH]; intros s v Hn.
  - destruct s; [|simpl in Hn; lia]. exists [], [].
    cbn [map List.concat app]. rewrite app_nil_r. split; reflexivity.
  - destruct (first_field (S n) s false Hn) as [Hp | [f [rest [E [Hp Hq]]]]].
    + exists [], s. cbn [map List.concat app]. rewrite app_nil_r. split; [reflexivity|].
      apply (plain_state false s v [] Hp).
    + destruct (IH rest (v ++ [trim f])) as [fs [raw [Es G]]].
      { rewrite E, length_app in Hn. simpl in Hn. lia. }
      exists (f :: fs), raw. split.
      * rewrite E, Es. cbn [map List.concat]. rewrite <- !app_assoc. reflexivity.
      * rewrite E, (parseLoop_first_field f rest false v [] Hp Hq).
        cbn [app map]. rewrite G, <- app_assoc. reflexivity.
Qed.

Lemma ink_join_comma (fs : list str) (raw : str) :
  ink (join (L ",") (map trim fs ++ [trim raw]))
  = ink (List.concat (map (fun f => f ++ [comma]) fs) ++ raw).
Proof.
  induction fs as [|f fs IH].
  - cbn. apply ink_trim.
  - assert (E : join (L ",") (map trim (f :: fs) ++ [trim raw])
                = trim f ++ L "," ++ join (L ",") (map trim fs ++ [trim raw])).
    { cbn [map app]. destruct (map trim fs ++ [trim raw]) eqn:Em; [|reflexivity].
      destruct (map trim fs); discriminate Em. }
    rewrite E. cbn [map List.concat]. rewrite <- !app_assoc, !ink_app.
    rewrite IH, ink_trim, !ink_app. reflexivity.
Qed.

(** X19: the tokenizer loses nothing but white space: the fields it
    returns are trimmed, and joined by commas they hold the characters of
    the interior that are no white space, all of them and in order. *)
Theorem X19_tokenizer_keeps_the_text (valuesString : str) :
  ink (join (L ",") (parseValues valuesString)) = ink valuesString
  /\ Forall (fun field => trim field = field) (parseValues valuesString).
Proof.
  destruct (parseLoop_regions (List.length valuesString) valuesString []
              (le_n _)) as [fs [raw [Es G]]].
  assert (E : parseValues valuesString = map trim fs ++ [trim raw]).
  { rewrite parseValues_pushes. change pinit with (pstateAt [] [] false).
    rewrite G. destruct (quotedAfter false raw); reflexivity. }
  rewrite E. split.
  - rewrite ink_join_comma, <- Es. reflexivity.
  - apply Forall_app. split.
    + apply Forall_forall. intros x Hx. apply in_map_iff in Hx.
      destruct Hx as [f [<- _]]. apply trim_idem.
    + constructor; [apply trim_idem | constructor].
Qed.

(** ** The fields and the text of a tuple *)

Lemma matches_groupFree ic r st st' :
  matches ic r st st' -> groupFree r = true -> caps st' = caps st.
Proof.
  induction 1 as
    [ st | c x s' st Hr Hc | negated items x s' st Hr Hc
    | r1 r2 st st1 st2 _ IH1 _ IH2
    | r1 r2 st st' _ IH | r1 r2 st st' _ IH
    | greedy r st
    | greedy r st st1 st2 _ IH1 Hp _ IH2
    | n r st st1 _ IH
    | st Hp ]; cbn [groupFree]; intro G; try reflexivity.
  - apply andb_true_iff in G. destruct G as [G1 G2].
    rewrite (IH2 G2). apply (IH1 G1).
  - apply andb_true_iff in G. apply IH, G.
  - apply andb_true_iff in G. apply IH, G.
  - rewrite (IH2 G). apply (IH1 G).
  - discriminate G.
Qed.

(** A match that the search finds is a match of the pattern at its
    index. *)
Lemma searchFrom_matches ic r (s : str) :
  forall p m, searchFrom ic r p s = Some m ->
  exists s' st',
    matches ic r (MState (index m) s' []) st'
    /\ text m = firstn (pos st' - index m) s'
    /\ groups m = caps st'.
Proof.
  induction s as [|x s IH]; intros p m H; rewrite searchFrom_eq in H.
  - destruct (rmatch ic r (MState p [] []) (fun st => Some st)) as [st|] eqn:E;
      [|discriminate H].
    injection H as <-. apply rmatch_sound in E. destruct E as [st' [M E]].
    injection E as ->. exists [], st. auto.
  - destruct (rmatch ic r (MState p (x :: s) []) (fun st => Some st))
      as [st|] eqn:E.
    + injection H as <-. apply rmatch_sound in E. destruct E as [st' [M E]].
      injection E as ->. exists (x :: s), st. auto.
    + apply (IH _ _ H).
Qed.

Lemma execLoop_matches ic r (n : nat) :
  forall s p m, In m (execLoop n ic r p s) ->
  exists s' st',
    matches ic r (MState (index m) s' []) st'
    /\ text m = firstn (pos st' - index m) s'
    /\ groups m = caps st'.
Proof.
  induction n as [|n IH]; intros s p m H; [destruct H|].
  cbn [execLoop] in H. destruct (searchFrom ic r p s) as [m0|] eqn:E;
    [|destruct H].
  destruct H as [<- | H]; [apply (searchFrom_matches ic r s p m0 E)|].
  apply (IH _ _ _ H).
Qed.

Lemma matches_one (c : ascii) st st' :
  matches false (Chr c) st st' ->
  exists s', rest st = c :: s' /\ st' = MState (S (pos st)) s' (caps st).
Proof.
  intro M. inversion M as [| c0 x s' st0 Hr Hc | | | | | | | |]; subst.
  unfold chr_match in Hc. apply ch_eqb_eq in Hc. subst x.
  exists s'. split; [exact Hr | reflexivity].
Qed.

Lemma matches_white greedy st st' :
  matches false (Star greedy ws) st st' ->
  exists a, rest st = a ++ rest st' /\ pos st' = pos st + List.length a
            /\ caps st' = caps st
            /\ Forall (fun c => isWhiteSpace c = true) a.
Proof.
  intro M. pose proof (matches_groupFree _ _ _ _ M eq_refl) as Hc.
  apply matches_lang in M. destruct M as [a [H1 [H2 H3]]].
  exists a. split; [exact H1|]. split; [exact H2|]. split; [exact Hc|].
  apply lang_star_cls in H3. eapply Forall_impl; [|exact H3].
  intros c Hm. unfold cls_match in Hm. simpl in Hm.
  rewrite orb_false_r in Hm. exact Hm.
Qed.

Lemma matches_group_text n r st st' :
  matches false (Group n r) st st' -> groupFree r = true ->
  exists w, rest st = w ++ rest st' /\ pos st' = pos st + List.length w
            /\ caps st' = caps st ++ [(n, w)].
Proof.
  intros M G. inversion M as [| | | | | | | | n0 r0 st0 st1 M1 |]; subst.
  pose proof (matches_groupFree _ _ _ _ M1 G) as Hc.
  apply matches_lang in M1. destruct M1 as [w [H1 [H2 _]]].
  exists w. cbn [rest pos caps]. split; [exact H1|]. split; [exact H2|].
  rewrite Hc, H2, H1.
  replace (pos st + List.length w - pos st) with (List.length w) by lia.
  rewrite firstn_length_app. reflexivity.
Qed.

Lemma group_single (n : nat) (w : str) : group [(n, w)] n = w.
Proof. unfold group. cbn. rewrite Nat.eqb_refl. reflexivity. Qed.

Lemma firstn_exact (w s : str) (n : nat) :
  n = List.length w -> firstn n (w ++ s) = w.
Proof. intros ->. apply firstn_length_app. Qed.

(** The text and the group of a match of the stream-based pattern. *)
Lemma stream_tuple_interior (s : str) (m : found) :
  In m (execAll false CliStream.valueSetRegex s) ->
  text m = lparen :: group (groups m) 1 ++ [rparen].
Proof.
  intro H. apply execLoop_matches in H.
  destruct H as [s' [st' [M [Ht Hg]]]].
  unfold CliStream.valueSetRegex in M. cbn [seqs fold_right] in M.
  inversion M as [| | | r1 r2 st0 st1 st2 M1 M2 | | | | | |]; subst. clear M.
  apply matches_one in M1. destruct M1 as [s1 [E1 ->]]. cbn [rest pos caps] in *.
  inversion M2 as [| | | r1 r2 st0 st2 st3 M3 M4 | | | | | |]; subst. clear M2.
  apply matches_group_text in M3; [|reflexivity].
  destruct M3 as [w [E2 [P2 C2]]]. cbn [rest pos caps] in *.
  inversion M4 as [| | | r1 r2 st0 st3 st4 M5 M6 | | | | | |]; subst. clear M4.
  apply matches_one in M5. destruct M5 as [s3 [E3 ->]].
  inversion M6; subst. clear M6. cbn [rest pos caps] in *.
  rewrite Hg, C2. cbn [app]. rewrite group_single, Ht, E3, P2.
  replace ("("%char :: w ++ ")"%char :: s3) with ((lparen :: w ++ [rparen]) ++ s3)
    by (cbn [app]; rewrite <- app_assoc; reflexivity).
  apply firstn_exact. cbn [List.length]. rewrite length_app. cbn [List.length]. lia.
Qed.

Lemma trimStart_app_white (m z : str) :
  Forall (fun c => isWhiteSpace c = true) z ->
  trimStart (m ++ z) = match trimStart m with [] => [] | t => t ++ z end.
Proof.
  intro Hz. induction m as [|x m IH].
  - cbn [app trimStart]. apply trimStart_all_ws. exact Hz.
  - cbn [app trimStart]. destruct (isWhiteSpace x); [exact IH | reflexivity].
Qed.

Lemma trimEnd_white (s z : str) :
  Forall (fun c => isWhiteSpace c = true) z -> trimEnd (s ++ z) = trimEnd s.
Proof.
  intro Hz. unfold trimEnd. rewrite rev_app_distr.
  rewrite (trimStart_white (rev z) (rev s) (Forall_rev_white z Hz)). reflexivity.
Qed.

(** White space around a text does not change its trim. *)
Lemma trim_around (a m z : str) :
  Forall (fun c => isWhiteSpace c = true) a ->
  Forall (fun c => isWhiteSpace c = true) z ->
  trim (a ++ m ++ z) = trim m.
Proof.
  intros Ha Hz. rewrite (trim_white a _ Ha). unfold trim.
  rewrite (trimStart_app_white m z Hz).
  destruct (trimStart m) as [|c t]; [reflexivity|].
  apply (trimEnd_white (c :: t) z Hz).
Qed.

(** The text and the group of a match of the line-based pattern. *)
Lemma cli_tuple_interior (s : str) (m : found) :
  In m (execAll false Cli.valueSetRegex s) ->
  exists a z,
    Forall (fun c => isWhiteSpace c = true) a
    /\ Forall (fun c => isWhiteSpace c = true) z
    /\ text m = lparen :: (a ++ group (groups m) 1 ++ z) ++ [rparen].
Proof.
  intro H. apply execLoop_matches in H.
  destruct H as [s' [st' [M [Ht Hg]]]].
  unfold Cli.valueSetRegex in M. cbn [seqs fold_right] in M.
  inversion M as [| | | r1 r2 st0 st1 st2 M1 M2 | | | | | |]; subst. clear M.
  apply matches_one in M1. destruct M1 as [s1 [E1 ->]]. cbn [rest pos caps] in *.
  inversion M2 as [| | | r1 r2 st0 st2 st3 M3 M4 | | | | | |]; subst. clear M2.
  apply matches_white in M3. destruct M3 as [a [Ea [Pa [Ca Ha]]]].
  cbn [rest pos caps] in *.
  inversion M4 as [| | | r1 r2 st0 st3 st4 M5 M6 | | | | | |]; subst. clear M4.
  apply matches_group_text in M5; [|reflexivity].
  destruct M5 as [w [Ew [Pw Cw]]].
  inversion M6 as [| | | r1 r2 st0 st4 st5 M7 M8 | | | | | |]; subst. clear M6.
  apply matches_white in M7. destruct M7 as [z [Ez [Pz [Cz Hz]]]].
  inversion M8 as [| | | r1 r2 st0 st5 st6 M9 M10 | | | | | |]; subst. clear M8.
  apply matches_one in M9. destruct M9 as [s5 [E5 ->]].
  inversion M10; subst. clear M10. cbn [rest pos caps] in *.
  exists a, z. split; [exact Ha|]. split; [exact Hz|].
  rewrite Hg, Cz, Cw, Ca. cbn [app]. rewrite group_single, Ht.
  rewrite Ew, Ez, E5, Pz, Pw, Pa.
  replace ("("%char :: a ++ w ++ z ++ ")"%char :: s5)
    with ((lparen :: (a ++ w ++ z) ++ [rparen]) ++ s5)
    by (cbn [app]; rewrite <- !app_assoc; reflexivity).
  apply firstn_exact. cbn [List.length]. rewrite !length_app. cbn [List.length]. lia.
Qed.

Lemma interior_tuple (x : str) : interior (lparen :: x ++ [rparen]) = x.
Proof. unfold interior. cbn [List.tl]. apply removelast_last. Qed.

(** X20: the fields of a tuple are read from the text between its outer
    parentheses and from nothing else: for every tuple that the extractor
    finds, the stream-based program tokenizes the interior of the tuple's
    text as it stands, and the line-based program the interior trimmed
    (so that the [trim] of line 298 and the two [\s*] of the pattern
    together take the white space next to the parentheses, wherever the
    pattern has put it). *)
Theorem X20_fields_of_the_interior (s : str) (m : found) :
  (In m (execAll false CliStream.valueSetRegex s) ->
   text m = lparen :: interior (text m) ++ [rparen]
   /\ streamFields m = parseValues (interior (text m)))
  /\ (In m (execAll false Cli.valueSetRegex s) ->
      text m = lparen :: interior (text m) ++ [rparen]
      /\ cliFields m = parseValues (trim (interior (text m)))).
Proof.
  split; intro H.
  - pose proof (stream_tuple_interior s m H) as E.
    rewrite E at 2 3. rewrite interior_tuple. split; [exact E | reflexivity].
  - destruct (cli_tuple_interior s m H) as [a [z [Ha [Hz E]]]].
    rewrite E. rewrite interior_tuple. split; [reflexivity|].
    unfold cliFields. rewrite (trim_around a _ z Ha Hz). reflexivity.
Qed.

Lemma X20_fields_of_the_interior_witness :
  cliFields obrienTuple = parseValues (trim (interior (text obrienTuple))).
Proof.
  apply (proj2 (X20_fields_of_the_interior (L " VALUES ('x', 'O''Brien');")
                  obrienTuple)).
  vm_compute. left. reflexivity.
Defined.

(** ** The start of a target statement *)

Lemma searchFrom_at ic r (s : str) :
  forall p m, searchFrom ic r p s = Some m ->
  exists a s' st',
    s = a ++ s' /\ index m = p + List.length a
    /\ matches ic r (MState (index m) s' []) st'.
Proof.
  induction s as [|x s IH]; intros p m H; rewrite searchFrom_eq in H.
  - destruct (rmatch ic r (MState p [] []) (fun st => Some st)) as [st|] eqn:E;
      [|discriminate H].
    injection H as <-. apply rmatch_sound in E. destruct E as [st' [M _]].
    exists [], [], st'. cbn [index List.length]. rewrite Nat.add_0_r. auto.
  - destruct (rmatch ic r (MState p (x :: s) []) (fun st => Some st))
      as [st|] eqn:E.
    + injection H as <-. apply rmatch_sound in E. destruct E as [st' [M _]].
      exists [], (x :: s), st'. cbn [index List.length]. rewrite Nat.add_0_r. auto.
    + destruct (IH _ _ H) as [a [s' [st' [Es [Hi M]]]]].
      exists (x :: a), s', st'. split; [cbn [app]; f_equal; exact Es|].
      split; [simpl; lia | exact M].
Qed.

Lemma lang_star_white ic greedy (w : str) :
  lang ic (Star greedy ws) w -> Forall (fun c => isWhiteSpace c = true) w.
Proof.
  intros [ws0 [-> Hws]].
  induction Hws as [|u ws0 [z [-> Hz]] _ IH]; simpl; [constructor|].
  constructor; [|exact IH]. unfold cls_match in Hz. simpl in Hz.
  rewrite orb_false_r in Hz. exact Hz.
Qed.

(** X21: the pattern of the stream-based program is anchored: a target
    statement begins, white space apart, with the word [INSERT] in some
    case.  A statement with anything else before the word, such as a
    comment after the semicolon of the statement before, is no target and
    is copied. *)
Theorem X21_stream_target_begins_with_insert (table statement : str) :
  streamTarget table statement = true ->
  exists blank keyword rest,
    statement = blank ++ keyword ++ rest
    /\ Forall (fun c => isWhiteSpace c = true) blank
    /\ toUpperCase keyword = L "INSERT".
Proof.
  unfold streamTarget, test, search. intro H.
  destruct (searchFrom true (CliStream.insertRegex table) 0 statement)
    as [m|] eqn:E; [clear H|discriminate H].
  apply searchFrom_at in E. destruct E as [a [s' [st' [Es [Hi M]]]]].
  unfold CliStream.insertRegex in M. cbn [seqs fold_right] in M.
  inversion M as [| | | r1 r2 st0 st1 st2 M1 M2 | | | | | |]; subst. clear M.
  inversion M1 as [| | | | | | | | | st0 Hp]; subst. clear M1.
  cbn [pos] in Hp. rewrite Hp in Hi.
  assert (Ha : a = []) by (destruct a; [reflexivity | simpl in Hi; lia]).
  subst a. cbn [app] in *.
  inversion M2 as [| | | r1 r2 st0 st1 st2 M3 M4 | | | | | |]; subst. clear M2.
  apply matches_lang in M3. destruct M3 as [blank [Eb [_ Lb]]].
  inversion M4 as [| | | r1 r2 st0 st2 st3 M5 M6 | | | | | |]; subst. clear M4.
  apply matches_lang in M5. destruct M5 as [keyword [Ek [_ Lk]]].
  cbn [rest] in Eb. exists blank, keyword. eexists.
  split; [rewrite Eb, Ek; reflexivity|]. split.
  - apply (lang_star_white true true). exact Lb.
  - apply (lang_lits (L "INSERT")). exact Lk.
Qed.

Lemma X21_stream_target_begins_with_insert_witness :
  exists blank keyword rest,
    [nl] ++ L "insert into t values (1);" = blank ++ keyword ++ rest
    /\ Forall (fun c => isWhiteSpace c = true) blank
    /\ toUpperCase keyword = L "INSERT".
Proof.
  apply (X21_stream_target_begins_with_insert (L "t")
           ([nl] ++ L "insert into t values (1);")).
  vm_compute. reflexivity.
Defined.

Example stream_copies_after_a_comment :
  let statement := [nl] ++ L "-- users" ++ [nl] ++ L "INSERT INTO t VALUES (1,'a');" in
  streamTarget (L "t") statement = false
  /\ output (CliStream.processStatement (L "t") [1] zeroEntropy statement run0)
     = statement ++ [nl]
  /\ show (output (Cli.processStatement (L "t") [1] zeroEntropy statement 3 run0))
     = show ([nl] ++ L "-- users" ++ [nl]
             ++ L "INSERT INTO t VALUES ( 1, '0000000000000000' );").
Proof. repeat split; vm_compute; reflexivity. Qed.

(** ** Statements that do not name the table *)

Lemma contains_upper (s sub : str) :
  contains s sub -> contains (toUpperCase s) (toUpperCase sub).
Proof.
  intros [a [b E]]. exists (toUpperCase a), (toUpperCase b).
  rewrite E, !toUpperCase_app. reflexivity.
Qed.

(** A statement that the pattern of line 85 matches holds the table name
    in some case. *)
Lemma cli_target_names_table (table statement : str) :
  search true (Cli.insertRegex table) statement <> None ->
  exists name, contains statement name
               /\ toUpperCase name = toUpperCase table.
Proof.
  unfold search. intro H.
  destruct (searchFrom true (Cli.insertRegex table) 0 statement)
    as [m|] eqn:E; [clear H|contradiction].
  apply searchFrom_lang in E. destruct E as [a [w [z [Hs Hw]]]].
  unfold Cli.insertRegex in Hw. cbn [seqs fold_right] in Hw.
  destruct Hw as [u0 [v0 [-> [_ Hw]]]].
  destruct Hw as [u1 [v1 [-> [_ Hw]]]].
  destruct Hw as [u2 [v2 [-> [_ Hw]]]].
  destruct Hw as [u3 [v3 [-> [_ Hw]]]].
  destruct Hw as [u4 [v4 [-> [_ Hw]]]].
  destruct Hw as [name [v5 [-> [Hname _]]]].
  exists name. split; [|apply (lang_lits table); exact Hname].
  exists (a ++ u0 ++ u1 ++ u2 ++ u3 ++ u4), (v5 ++ z).
  rewrite Hs, <- !app_assoc. reflexivity.
Qed.

(** X22: a statement that does not hold the table name, in any case, is
    never changed: the line-based program writes it as read and counts it
    as skipped, the stream-based program writes it with a line feed after
    it; neither draws a random byte nor prints a warning. *)
Theorem X22_unnamed_table_untouched (table : str) (cols : list nat)
  (e : entropy) (statement : str) (line : nat) (r : run) :
  indexOf (toUpperCase statement) (toUpperCase table) = None ->
  (let r' := Cli.processStatement table cols e statement line r in
   output r' = output r ++ statement
   /\ statementsWithSkippedAnonymization r'
      = S (statementsWithSkippedAnonymization r)
   /\ cursor r' = cursor r /\ diagnostics r' = diagnostics r)
  /\ (let r' := CliStream.processStatement table cols e statement r in
      output r' = output r ++ statement ++ [nl]
      /\ cursor r' = cursor r /\ diagnostics r' = diagnostics r).
Proof.
  intro Hno.
  assert (Habsent : forall name, contains statement name ->
            toUpperCase name = toUpperCase table -> False).
  { intros name Hc Hn. apply contains_upper in Hc. rewrite Hn in Hc.
    destruct (indexOf_contains _ _ Hc) as [i Hi]. congruence. }
  split.
  - assert (Hs : search true (Cli.insertRegex table) statement = None).
    { destruct (search true (Cli.insertRegex table) statement) eqn:E;
        [|reflexivity].
      exfalso.
      destruct (cli_target_names_table table statement) as [name [Hc Hn]];
        [rewrite E; discriminate|].
      exact (Habsent name Hc Hn). }
    unfold Cli.processStatement. rewrite Hs. cbv zeta. repeat split.
  - assert (Ht : test true (CliStream.insertRegex table) statement = false).
    { destruct (test true (CliStream.insertRegex table) statement) eqn:E;
        [|reflexivity].
      exfalso.
      destruct (stream_target_exact table statement E)
        as [pre [b [name [sp [post [Hs [Hn _]]]]]]].
      apply (Habsent name); [|exact Hn].
      exists (pre ++ [b]), (sp :: post). exact Hs. }
    unfold CliStream.processStatement. rewrite Ht. cbv zeta. repeat split.
Qed.

Lemma X22_unnamed_table_untouched_witness :
  output (Cli.processStatement (L "users") [1] zeroEntropy
            (L "insert into orders values (1,'a');") 1 run0)
  = output run0 ++ L "insert into orders values (1,'a');"
  /\ output (CliStream.processStatement (L "users") [1] zeroEntropy
               (L "insert into orders values (1,'a');") run0)
     = output run0 ++ L "insert into orders values (1,'a');" ++ [nl].
Proof.
  destruct (X22_unnamed_table_untouched (L "users") [1] zeroEntropy
              (L "insert into orders values (1,'a');") 1 run0)
    as [[H1 _] [H2 _]]; [reflexivity|].
  split; [exact H1 | exact H2].
Defined.

(** ** What counts as a statement *)

Lemma nonblank_with (s : str) (c : ascii) :
  In c s -> isWhiteSpace c = false -> truthy (trim s) = true.
Proof.
  intros Hin Hc. destruct (truthy (trim s)) eqn:E; [reflexivity|].
  pose proof (proj1 (Forall_forall _ _) (trim_empty_white s E) c Hin) as Hw.
  congruence.
Qed.

Lemma nonblank_statement (s : str) :
  endsAtOnlySemicolon s -> truthy (trim s) = true.
Proof.
  intros [b [-> _]]. apply (nonblank_with _ semicolon); [|reflexivity].
  apply in_or_app. right. left. reflexivity.
Qed.

Lemma cli_onLine_nonblank (buffer : str) (n : nat) (acc : list str) (line : str) :
  Forall (fun s => truthy (trim s) = true) acc ->
  Forall (fun s => truthy (trim s) = true)
    (Cli.state _
       (Cli.onLine (list str) (fun statement _ acc => acc ++ [statement])
          (Cli.Driver (list str) buffer n acc) line)).
Proof.
  intro Hacc.
  destruct (onLine_cases (list str) (fun statement _ acc => acc ++ [statement])
              buffer n acc line) as [H1 [H2 H3]].
  cbv zeta in *.
  destruct (endsWith (trimEnd line) (L ";")) eqn:Ee.
  - destruct (Cli.sameIndex (indexOfChar line semicolon)
                (lastIndexOfChar line semicolon)) eqn:Es.
    + rewrite (H2 eq_refl eq_refl). cbn [Cli.state].
      apply Forall_app. split; [exact Hacc|]. constructor; [|constructor].
      apply (nonblank_with _ semicolon); [|reflexivity].
      destruct (endsWith_semicolon _ Ee) as [t Et].
      destruct (trimEnd_parts line) as [z [Ez _]].
      rewrite Ez, Et. apply in_or_app. right. apply in_or_app. left.
      apply in_or_app. left. apply in_or_app. right. left. reflexivity.
    + destruct (H3 eq_refl eq_refl) as [stmts [E [Hs _]]]. rewrite E.
      cbn [Cli.state]. rewrite collect_all. apply Forall_app.
      split; [exact Hacc|]. eapply Forall_impl; [|exact Hs].
      exact nonblank_statement.
  - rewrite (H1 eq_refl). exact Hacc.
Qed.

(** X23: no blank statement is processed: every statement that either
    driver hands over holds a character that is no white space, so the
    count of processed statements never includes the white space between
    or after the statements. *)
Theorem X23_no_blank_statement (input : list str) :
  Forall (fun s => truthy (trim s) = true) (Cli.statements input)
  /\ Forall (fun s => truthy (trim s) = true) (CliStream.statements input).
Proof.
  split.
  - unfold Cli.statements, Cli.drive.
    assert (G : forall lines buffer n acc,
              Forall (fun s => truthy (trim s) = true) acc ->
              Forall (fun s => truthy (trim s) = true)
                (Cli.onClose (list str)
                   (fun statement _ acc => acc ++ [statement])
                   (fun _ acc => acc)
                   (fold_left
                      (Cli.onLine (list str)
                         (fun statement _ acc => acc ++ [statement]))
                      lines (Cli.Driver (list str) buffer n acc)))).
    { induction lines as [|line lines IH]; intros buffer n acc Hacc.
      - cbn [fold_left]. unfold Cli.onClose.
        cbn [Cli.state Cli.currentStatementBuffer Cli.lineNumber].
        destruct (truthy (trim buffer)) eqn:Et; [|exact Hacc].
        apply Forall_app. split; [exact Hacc|].
        constructor; [exact Et | constructor].
      - cbn [fold_left].
        pose proof (cli_onLine_nonblank buffer n acc line Hacc) as H.
        destruct (Cli.onLine (list str)
                    (fun statement _ acc => acc ++ [statement])
                    (Cli.Driver (list str) buffer n acc) line) as [b1 n1 a1].
        apply IH. exact H. }
    apply G. constructor.
  - destruct (stream_statements_spec input) as [stmts [rest [E [_ [Hs _]]]]].
    rewrite E. apply Forall_app. split.
    + eapply Forall_impl; [|exact Hs]. exact nonblank_statement.
    + destruct (truthy (trim rest)) eqn:Et; constructor; [exact Et | constructor].
Qed.
